(** * documentation-server: a shallow embedding of the content pipeline

    The development follows the TypeScript sources:

    - [lib/mdx.ts]: the slug-addressed content store ([assertSafeSlug],
      [readMdxFile]), the tree builder ([collectDocs], [getDocsTree],
      [getAllDocSlugs], [getChildNodes]) and the search index
      ([stripMarkdown], [getDocsIndex]);
    - [app/api/docs/tree/route.ts]: the [GET] handler in front of
      [getChildNodes];
    - [components/mdx-renderer.tsx]: [compileMdx], [createIncludeComponent],
      [renderMdx], [MDXRenderer];
    - [components/navigation-menu.tsx]: [slugToHref], [humanizeName],
      [deriveActiveSlug], [buildSnippet], [Search].

    JavaScript strings are modelled by [string]; the character classes of the
    regular expressions and of [trim] / [toLowerCase] are the ASCII ones.
    Asynchronous code is sequentialised: [Promise.all (xs.map f)] runs [f] on
    the elements from left to right. *)

From Stdlib Require Import Ascii String ZArith Lia Sorted OrdersEx.
From stdpp Require Import gmap strings list.

Open Scope string_scope.
Open Scope list_scope.

Set Warnings "-register-all".

(** stdpp freezes [String.append]; the proofs below compute with it. *)
Arguments String.append : simpl nomatch.

(** ** ECMAScript string and array primitives *)

Module Js.

(** [Boolean(s)] on a string: true unless the string is empty. *)
Definition truthy (s : string) : bool :=
  match s with EmptyString => false | String _ _ => true end.

(** [Array.prototype.join]. *)
Definition join (sep : string) (parts : list string) : string :=
  String.concat sep parts.

(** [String.prototype.split] with a one-character separator. *)
Fixpoint split (sep : ascii) (s : string) : list string :=
  match s with
  | EmptyString => [EmptyString]
  | String c rest =>
      if Ascii.eqb c sep then EmptyString :: split sep rest
      else match split sep rest with
           | hd :: tl => String c hd :: tl
           | [] => [String c EmptyString]
           end
  end.

(** [String.prototype.startsWith]. *)
Fixpoint startsWith (s p : string) : bool :=
  match p, s with
  | EmptyString, _ => true
  | String _ _, EmptyString => false
  | String b p', String a s' => Ascii.eqb a b && startsWith s' p'
  end.

(** [String.prototype.includes]. *)
Fixpoint includes (s needle : string) : bool :=
  startsWith s needle ||
  match s with
  | EmptyString => false
  | String _ s' => includes s' needle
  end.

(** [String.prototype.indexOf]; [None] stands for [-1]. *)
Fixpoint indexOf (s needle : string) : option nat :=
  if startsWith s needle then Some 0
  else match s with
       | EmptyString => None
       | String _ s' => S <$> indexOf s' needle
       end.

Fixpoint take (n : nat) (s : string) : string :=
  match n, s with
  | S n', String c s' => String c (take n' s')
  | _, _ => EmptyString
  end.

Fixpoint drop (n : nat) (s : string) : string :=
  match n, s with
  | S n', String _ s' => drop n' s'
  | _, _ => s
  end.

(** [s.slice(i, j)] for non-negative indices. *)
Definition slice (s : string) (i j : nat) : string :=
  take (j - i) (drop i s).

(** [s.slice(0, -n)]. *)
Definition dropEnd (s : string) (n : nat) : string :=
  take (String.length s - n) s.

(** [String.prototype.endsWith]. *)
Definition endsWith (s p : string) : bool :=
  (String.length p <=? String.length s)%nat &&
  String.eqb (drop (String.length s - String.length p) s) p.

(** White space as [\s] and [trim] see it (TAB, LF, VT, FF, CR, SP). *)
Definition isSpace (c : ascii) : bool :=
  let n := nat_of_ascii c in
  ((9 <=? n) && (n <=? 13))%nat || (n =? 32)%nat.

Fixpoint trimStart (s : string) : string :=
  match s with
  | EmptyString => EmptyString
  | String c s' => if isSpace c then trimStart s' else s
  end.

Fixpoint trimEnd (s : string) : string :=
  match s with
  | EmptyString => EmptyString
  | String c s' =>
      match trimEnd s' with
      | EmptyString => if isSpace c then EmptyString else String c EmptyString
      | r => String c r
      end
  end.

(** [String.prototype.trim]. *)
Definition trim (s : string) : string := trimEnd (trimStart s).

Definition isUpper (c : ascii) : bool :=
  let n := nat_of_ascii c in ((65 <=? n) && (n <=? 90))%nat.

Definition isLower (c : ascii) : bool :=
  let n := nat_of_ascii c in ((97 <=? n) && (n <=? 122))%nat.

Definition isDigit (c : ascii) : bool :=
  let n := nat_of_ascii c in ((48 <=? n) && (n <=? 57))%nat.

(** The class [\w]. *)
Definition isWord (c : ascii) : bool :=
  isUpper c || isLower c || isDigit c || Ascii.eqb c "_"%char.

Definition lowerChar (c : ascii) : ascii :=
  if isUpper c then ascii_of_nat (nat_of_ascii c + 32) else c.

Definition upperChar (c : ascii) : ascii :=
  if isLower c then ascii_of_nat (nat_of_ascii c - 32) else c.

Fixpoint mapChars (f : ascii -> ascii) (s : string) : string :=
  match s with
  | EmptyString => EmptyString
  | String c s' => String (f c) (mapChars f s')
  end.

(** [String.prototype.toLowerCase]. *)
Definition toLowerCase (s : string) : string := mapChars lowerChar s.

(** [s.replace(/C+/g, " ")] for a character class [C]: every maximal run
    of characters of the class becomes one space. *)
Fixpoint replaceRuns (cls : ascii -> bool) (s : string) : string :=
  match s with
  | EmptyString => EmptyString
  | String c s' =>
      if cls c then
        match s' with
        | String d _ =>
            if cls d then replaceRuns cls s'
            else String " "%char (replaceRuns cls s')
        | EmptyString => String " "%char EmptyString
        end
      else String c (replaceRuns cls s')
  end.

(** A stable sort driven by a comparator returning a negative, zero or
    positive number, as [Array.prototype.sort] is specified. *)
Section Sort.
Context {A : Type} (cmp : A -> A -> Z).

Fixpoint insertSorted (x : A) (l : list A) : list A :=
  match l with
  | [] => [x]
  | y :: l' => if (0 <? cmp x y)%Z then y :: insertSorted x l' else x :: l
  end.

Definition sort (l : list A) : list A := foldr insertSorted [] l.
End Sort.

End Js.

(** ** [node:path] on POSIX *)

Module Path.

(** One step of [normalizeString]: empty and [.] segments vanish, [..]
    removes the segment before it when there is one to remove. *)
Definition normalizeStep (allowAboveRoot : bool) (res : list string) (seg : string)
  : list string :=
  if String.eqb seg "" || String.eqb seg "." then res
  else if String.eqb seg ".." then
    match last res with
    | Some prev =>
        if String.eqb prev ".." then
          (if allowAboveRoot then res ++ [".."] else res)
        else removelast res
    | None => if allowAboveRoot then [".."] else []
    end
  else res ++ [seg].

Definition normalizeString (segs : list string) (allowAboveRoot : bool) : list string :=
  fold_left (normalizeStep allowAboveRoot) segs [].

(** [path.normalize]. *)
Definition normalize (p : string) : string :=
  if String.eqb p "" then "."
  else
    let isAbsolute := Js.startsWith p "/" in
    let trailingSeparator := Js.endsWith p "/" in
    let body := Js.join "/" (normalizeString (Js.split "/" p) (negb isAbsolute)) in
    if String.eqb body "" then
      (if isAbsolute then "/" else if trailingSeparator then "./" else ".")
    else
      (if isAbsolute then "/" else "") +:+ body +:+
      (if trailingSeparator then "/" else "").

(** [path.join]: the non-empty arguments joined by [/], then normalized. *)
Definition join (parts : list string) : string :=
  let joined := Js.join "/" (filter (fun s => Js.truthy s = true) parts) in
  if String.eqb joined "" then "." else normalize joined.

End Path.

(** ** The file system seen through [node:fs/promises] *)

(** A snapshot of the disk: regular files with their text, directories with
    their entries in [readdir] order, and everything else (links, sockets). *)
Inductive fsnode : Type :=
| FFile (content : string)
| FDir (entries : list (string * fsnode))
| FOther.

Inductive fskind := KFile | KDir | KOther.

(** [fs.Stats] and [fs.Dirent], reduced to what the sources ask of them. *)
Record Dirent := mkDirent { d_name : string; d_kind : fskind }.

Definition kindOf (n : fsnode) : fskind :=
  match n with FFile _ => KFile | FDir _ => KDir | FOther => KOther end.

Definition isDirectory (k : fskind) : bool :=
  match k with KDir => true | _ => false end.

Definition isFile (k : fskind) : bool :=
  match k with KFile => true | _ => false end.

Inductive errno := ENOENT | ENOTDIR | EISDIR.

Fixpoint lookupEntry (name : string) (entries : list (string * fsnode)) : option fsnode :=
  match entries with
  | [] => None
  | (n, node) :: rest => if String.eqb n name then Some node else lookupEntry name rest
  end.

(** Path resolution from the root of the disk, one segment at a time. *)
Fixpoint walk (node : fsnode) (segs : list string) : errno + fsnode :=
  match segs with
  | [] => inr node
  | seg :: rest =>
      match node with
      | FDir entries =>
          match lookupEntry seg entries with
          | Some child => walk child rest
          | None => inl ENOENT
          end
      | _ => inl ENOTDIR
      end
  end.

Definition segmentsOf (p : string) : list string :=
  filter (fun s => Js.truthy s = true) (Js.split "/" p).

Definition resolve (disk : fsnode) (p : string) : errno + fsnode :=
  walk disk (segmentsOf p).

(** ** Effects: exceptions, the sets allocated by [new Set], the disk log *)

(** The values thrown by the sources, one constructor per [throw] site. *)
Inductive exn : Type :=
| EmptySlug                              (* "Slug must contain at least one segment" *)
| InvalidSlugSegment (segment : string)  (* `Invalid slug segment: ${segment}` *)
| CircularInclude (slugKey : string)     (* `Circular Include detected for slug ...` *)
| EmptyInclude                           (* "Include component requires a non-empty slug" *)
| PathDoesNotExist                       (* "Requested path does not exist" *)
| NotADirectory                          (* "Requested slug is not a directory" *)
| Errno (code : errno)                   (* a rejection of node:fs *)
| NextNotFound                           (* next/navigation notFound() *)
| FrontMatterError                       (* gray-matter rejects the source *)
| MdxCompileError.                       (* next-mdx-remote rejects the source *)

Inductive fscall : Type :=
| Stat (p : string)
| Readdir (p : string)
| ReadFile (p : string).

(** What a run can observe and change: the [Set<string>] objects on the heap,
    addressed by their allocation index, and the calls made to the disk. *)
Record world : Type := World {
  sets : list (gset string);
  trace : list fscall
}.

Definition emptyWorld : world := World [] [].

Inductive outcome (A : Type) : Type :=
| Return (a : A)
| Throw (e : exn)
| OutOfFuel.
Arguments Return {A} a.
Arguments Throw {A} e.
Arguments OutOfFuel {A}.

Definition M (A : Type) : Type := world -> outcome A * world.

Definition ret {A} (a : A) : M A := fun w => (Return a, w).
Definition throw {A} (e : exn) : M A := fun w => (Throw e, w).
Definition diverge {A} : M A := fun w => (OutOfFuel, w).

Definition bind {A B} (m : M A) (k : A -> M B) : M B :=
  fun w =>
    match m w with
    | (Return a, w') => k a w'
    | (Throw e, w') => (Throw e, w')
    | (OutOfFuel, w') => (OutOfFuel, w')
    end.

(** [try { m } catch (error) { h error }]. *)
Definition tryCatch {A} (m : M A) (h : exn -> M A) : M A :=
  fun w =>
    match m w with
    | (Throw e, w') => h e w'
    | r => r
    end.

Notation "x <- m ;; k" := (bind m (fun x => k))
  (at level 100, m at next level, right associativity).
Notation "m ;;; k" := (bind m (fun _ => k))
  (at level 100, right associativity).

(** [await Promise.all(xs.map(f))], sequentialised. *)
Fixpoint mapM {A B} (f : A -> M B) (xs : list A) : M (list B) :=
  match xs with
  | [] => ret []
  | x :: xs' => y <- f x ;; ys <- mapM f xs' ;; ret (y :: ys)
  end.

(** [for (const x of xs) { f x }]. *)
Fixpoint forEachM {A} (f : A -> M unit) (xs : list A) : M unit :=
  match xs with
  | [] => ret tt
  | x :: xs' => f x ;;; forEachM f xs'
  end.

(** [xs.filter(x => x !== null)]. *)
Definition compact {A} (xs : list (option A)) : list A := omap id xs.

(** *** [Set<string>] objects *)

Definition loc := nat.

(** [new Set()] and [new Set(other)]. *)
Definition newSet (init : gset string) : M loc :=
  fun w => (Return (length (sets w)), World (sets w ++ [init]) (trace w)).

Definition readSet (l : loc) : M (gset string) :=
  fun w => (Return (default ∅ (sets w !! l)), w).

(** [set.has(key)]. *)
Definition setHas (l : loc) (key : string) : M bool :=
  v <- readSet l ;; ret (bool_decide (key ∈ v)).

(** [set.add(key)]: the object is updated in place. *)
Definition setAdd (l : loc) (key : string) : M unit :=
  fun w =>
    (Return tt,
     World (<[l := {[key]} ∪ default ∅ (sets w !! l)]> (sets w)) (trace w)).

(** [new Set(set)]: a fresh object with the same elements. *)
Definition copySet (l : loc) : M loc :=
  v <- readSet l ;; newSet v.

(** ** The platform the sources run on *)

(** Front matter: an open mapping of scalars and arrays. *)
Inductive fmvalue : Type :=
| FmString (s : string)
| FmNumber (z : Z)
| FmBool (b : bool)
| FmNull
| FmArray (items : list fmvalue).

(** [typeof data.title === "string" ? data.title : undefined]. *)
Definition stringField (data : gmap string fmvalue) (key : string) : option string :=
  match data !! key with
  | Some (FmString s) => Some s
  | _ => None
  end.

(** What [compileMDX] finds in a document body: text to render as it is, and
    [<Include slug="..." />] elements. *)
Inductive mdxnode : Type :=
| MdxText (text : string)
| MdxInclude (slugAttr : string).

(** The collaborators outside the repository: the process, the disk,
    gray-matter, next-mdx-remote and the locale-aware string comparison. *)
Class Platform : Type := {
  cwd : string;
  disk : fsnode;
  matter : string -> option (gmap string fmvalue * string);
  compileMDX : string -> option (list mdxnode * gmap string fmvalue);
  localeCompare : string -> string -> Z
}.

Section Sources.
Context `{Platform}.

Definition logCall (c : fscall) : M unit :=
  fun w => (Return tt, World (sets w) (trace w ++ [c])).

Definition fromDisk {A} (r : errno + A) : M A :=
  match r with
  | inl code => throw (Errno code)
  | inr a => ret a
  end.

(** [fs.stat]. *)
Definition fs_stat (p : string) : M fskind :=
  logCall (Stat p) ;;;
  fromDisk (match resolve disk p with
            | inl code => inl code
            | inr node => inr (kindOf node)
            end).

(** [fs.readdir(p, { withFileTypes: true })]. *)
Definition fs_readdir (p : string) : M (list Dirent) :=
  logCall (Readdir p) ;;;
  fromDisk (match resolve disk p with
            | inl code => inl code
            | inr (FDir entries) =>
                inr (map (fun e => mkDirent (fst e) (kindOf (snd e))) entries)
            | inr _ => inl ENOTDIR
            end).

(** [fs.readFile(p, "utf8")]. *)
Definition fs_readFile (p : string) : M string :=
  logCall (ReadFile p) ;;;
  fromDisk (match resolve disk p with
            | inl code => inl code
            | inr (FFile content) => inr content
            | inr (FDir _) => inl EISDIR
            | inr FOther => inl ENOENT
            end).

(** ** [lib/mdx.ts] *)

Inductive NodeType := TFile | TDirectory.

Definition NodeType_eqb (a b : NodeType) : bool :=
  match a, b with
  | TFile, TFile | TDirectory, TDirectory => true
  | _, _ => false
  end.

Inductive DocNode : Type :=
  mkDocNode (type : NodeType) (name : string) (slug : list string)
            (filePath : string) (children : option (list DocNode)).

Definition node_type (n : DocNode) : NodeType :=
  match n with mkDocNode t _ _ _ _ => t end.
Definition node_name (n : DocNode) : string :=
  match n with mkDocNode _ x _ _ _ => x end.
Definition node_slug (n : DocNode) : list string :=
  match n with mkDocNode _ _ x _ _ => x end.
Definition node_filePath (n : DocNode) : string :=
  match n with mkDocNode _ _ _ x _ => x end.
Definition node_children (n : DocNode) : option (list DocNode) :=
  match n with mkDocNode _ _ _ _ x => x end.

Record DocListItem : Type := mkDocListItem {
  item_type : NodeType;
  item_name : string;
  item_slug : list string;
  item_hasChildren : option bool;
  item_title : option string
}.

Definition CONTENT_EXTENSION : string := ".mdx".
Definition CONTENT_ROOT : string := Path.join [cwd; "content"].

Definition unsafeSegment (segment : string) : bool :=
  negb (Js.truthy segment) || Js.includes segment ".." ||
  Js.includes segment "/" || Js.includes segment "\".

Definition assertSafeSlug (slug : list string) : M unit :=
  if negb (0 <? length slug)%nat then throw EmptySlug
  else
    forEachM (fun segment =>
                if unsafeSegment segment then throw (InvalidSlugSegment segment)
                else ret tt) slug.

Definition readMdxFile (slug : list string) : M (string * string) :=
  assertSafeSlug slug ;;;
  let relativeFilePath := Path.join slug +:+ CONTENT_EXTENSION in
  let filePath := Path.join [CONTENT_ROOT; relativeFilePath] in
  source <- fs_readFile filePath ;;
  ret (source, filePath).

Definition mdxExists (slug : list string) : M bool :=
  tryCatch (readMdxFile slug ;;; ret true)
           (fun error =>
              match error with
              | Errno ENOENT => ret false
              | _ => throw error
              end).

Definition isDocumentEntry (entry : Dirent) : bool :=
  isFile (d_kind entry) && Js.endsWith (d_name entry) CONTENT_EXTENSION.

Definition baseNameOf (entry : Dirent) : string :=
  Js.dropEnd (d_name entry) (String.length CONTENT_EXTENSION).

Definition byName (a b : DocNode) : Z := localeCompare (node_name a) (node_name b).

(** The callback [collectDocs] maps over the entries of a directory;
    [recurse] stands for [collectDocs] itself. *)
Definition collectEntry (recurse : string -> list string -> M (list DocNode))
           (dirPath : string) (ancestorSlug : list string) (entry : Dirent)
  : M (option DocNode) :=
  if isDirectory (d_kind entry) then
    let directorySlug := ancestorSlug ++ [d_name entry] in
    children <- recurse (Path.join [dirPath; d_name entry]) directorySlug ;;
    if negb (0 <? length children)%nat then ret None
    else ret (Some (mkDocNode TDirectory (d_name entry) directorySlug
                      (Path.join [dirPath; d_name entry]) (Some children)))
  else if negb (isDocumentEntry entry) then ret None
  else
    let baseName := baseNameOf entry in
    let fileSlug := ancestorSlug ++ [baseName] in
    ret (Some (mkDocNode TFile baseName fileSlug
                 (Path.join [dirPath; d_name entry]) None)).

(** The recursion follows the directories of the disk; [fuel] bounds its
    depth. *)
Fixpoint collectDocs (fuel : nat) (dirPath : string) (ancestorSlug : list string)
  : M (list DocNode) :=
  match fuel with
  | O => diverge
  | S fuel' =>
      entries <- fs_readdir dirPath ;;
      nodes <- mapM (collectEntry (collectDocs fuel') dirPath ancestorSlug) entries ;;
      ret (Js.sort byName (compact nodes))
  end.

Definition getDocsTree (fuel : nat) : M (list DocNode) :=
  collectDocs fuel CONTENT_ROOT [].

(** The [walk] closure of [getAllDocSlugs]. *)
Fixpoint walkSlugs (node : DocNode) : list (list string) :=
  match node with
  | mkDocNode TFile _ slug _ _ => [slug]
  | mkDocNode TDirectory _ _ _ (Some children) => flat_map walkSlugs children
  | mkDocNode TDirectory _ _ _ None => []
  end.

Definition getAllDocSlugs (fuel : nat) : M (list (list string)) :=
  tree <- getDocsTree fuel ;;
  ret (flat_map walkSlugs tree).

Definition hasChildrenOf (childEntries : list Dirent) : bool :=
  existsb (fun child =>
             if isDirectory (d_kind child) then true
             else isDocumentEntry child) childEntries.

Definition listingOrder (a b : DocListItem) : Z :=
  if negb (NodeType_eqb (item_type a) (item_type b)) then
    (if NodeType_eqb (item_type a) TDirectory then (-1)%Z else 1%Z)
  else localeCompare (item_name a) (item_name b).

(** The callback [getChildNodes] maps over the entries of the target. *)
Definition listEntry (slug : list string) (targetPath : string) (entry : Dirent)
  : M (option DocListItem) :=
  if Js.startsWith (d_name entry) "." then ret None
  else if isDirectory (d_kind entry) then
    let directorySlug := slug ++ [d_name entry] in
    childEntries <- fs_readdir (Path.join [targetPath; d_name entry]) ;;
    let hasChildren := hasChildrenOf childEntries in
    ret (Some (mkDocListItem TDirectory (d_name entry) directorySlug
                 (Some hasChildren) None))
  else if negb (isDocumentEntry entry) then ret None
  else
    let baseName := baseNameOf entry in
    let fileSlug := slug ++ [baseName] in
    let filePath := Path.join [targetPath; d_name entry] in
    source <- fs_readFile filePath ;;
    match matter source with
    | None => throw FrontMatterError
    | Some (data, _) =>
        let title := stringField data "title" in
        ret (Some (mkDocListItem TFile baseName fileSlug None title))
    end.

Definition getChildNodes (slug : list string) : M (list DocListItem) :=
  let targetPath := Path.join (CONTENT_ROOT :: slug) in
  stat <- tryCatch (fs_stat targetPath) (fun _ => throw PathDoesNotExist) ;;
  if negb (isDirectory stat) then throw NotADirectory
  else
    entries <- fs_readdir targetPath ;;
    items <- mapM (listEntry slug targetPath) entries ;;
    ret (Js.sort listingOrder (compact items)).

Record DocIndexEntry : Type := mkDocIndexEntry {
  entry_slug : list string;
  entry_title : string;
  entry_content : string
}.

(** [s.replace(re, " ")] for a global regular expression given by its
    matcher: [matchAt s] is what follows the match when [re] matches at the
    start of [s].  The scan restarts after each match; [fuel] is the number
    of characters left. *)
Fixpoint replaceAll (matchAt : string -> option string) (fuel : nat) (s : string)
  : string :=
  match fuel, s with
  | S fuel', String c s' =>
      match matchAt s with
      | Some rest => String " "%char (replaceAll matchAt fuel' rest)
      | None => String c (replaceAll matchAt fuel' s')
      end
  | _, _ => s
  end.

(** What follows the first occurrence of [needle] in [s]. *)
Fixpoint afterFirst (needle s : string) : option string :=
  if Js.startsWith s needle then Some (Js.drop (String.length needle) s)
  else match s with
       | EmptyString => None
       | String _ s' => afterFirst needle s'
       end.

Definition backtick : ascii := ascii_of_nat 96.
Definition fence : string := String backtick (String backtick (String backtick "")).

(** [/```[\s\S]*?```/]. *)
Definition matchFence (s : string) : option string :=
  if Js.startsWith s fence then afterFirst fence (Js.drop 3 s) else None.

(** [/`[^`]*`/]. *)
Definition matchInlineCode (s : string) : option string :=
  match s with
  | String c s' => if Ascii.eqb c backtick then afterFirst (String backtick "") s' else None
  | EmptyString => None
  end.

(** [/\[[^\]]*\]\([^\)]*\)/]. *)
Definition matchLink (s : string) : option string :=
  match s with
  | String "["%char s' =>
      match afterFirst "]" s' with
      | Some (String "("%char target) => afterFirst ")" target
      | _ => None
      end
  | _ => None
  end.

(** [/!\[[^\]]*\]\([^\)]*\)/]. *)
Definition matchImage (s : string) : option string :=
  match s with
  | String "!"%char s' => matchLink s'
  | _ => None
  end.

(** The class [[\*_~>#-]]. *)
Definition isMarker (c : ascii) : bool :=
  Ascii.eqb c "*"%char || Ascii.eqb c "_"%char || Ascii.eqb c "~"%char ||
  Ascii.eqb c ">"%char || Ascii.eqb c "#"%char || Ascii.eqb c "-"%char.

Definition replaceRegex (matchAt : string -> option string) (s : string) : string :=
  replaceAll matchAt (String.length s) s.

Definition stripMarkdown (value : string) : string :=
  Js.trim
    (Js.replaceRuns Js.isSpace
       (Js.replaceRuns isMarker
          (replaceRegex matchLink
             (replaceRegex matchImage
                (replaceRegex matchInlineCode
                   (replaceRegex matchFence value)))))).

Definition byTitle (a b : DocIndexEntry) : Z :=
  localeCompare (entry_title a) (entry_title b).

(** The [visit] closure of [getDocsIndex]; the entries are collected in
    tree order. *)
Fixpoint visit (node : DocNode) : M (list DocIndexEntry) :=
  match node with
  | mkDocNode TFile _ slug _ _ =>
      r <- readMdxFile slug ;;
      match matter (fst r) with
      | None => throw FrontMatterError
      | Some (data, content) =>
          let title := match stringField data "title" with
                       | Some t => t
                       | None => default "" (last slug)
                       end in
          ret [mkDocIndexEntry slug title (stripMarkdown content)]
      end
  | mkDocNode TDirectory _ _ _ (Some children) =>
      (fix visitAll (nodes : list DocNode) : M (list DocIndexEntry) :=
         match nodes with
         | [] => ret []
         | n :: rest => es <- visit n ;; es' <- visitAll rest ;; ret (es ++ es')
         end) children
  | mkDocNode TDirectory _ _ _ None => ret []
  end.

Definition getDocsIndex (fuel : nat) : M (list DocIndexEntry) :=
  tree <- getDocsTree fuel ;;
  entries <- mapM visit tree ;;
  ret (Js.sort byTitle (concat entries)).

(** ** [app/api/docs/tree/route.ts] *)

(** [slugParam.split("/").map(s => s.trim()).filter(Boolean)]. *)
Definition parseSlug (slugParam : string) : list string :=
  filter (fun s => Js.truthy s = true) (map Js.trim (Js.split "/" slugParam)).

Inductive response : Type :=
| Json200 (items : list DocListItem)
| Json400 (error : exn).

(** [slugParam] is [url.searchParams.get("slug")], [None] when absent. *)
Definition GET (slugParam : option string) : M response :=
  tryCatch
    (let slug := match slugParam with
                 | Some p => if Js.truthy p then parseSlug p else []
                 | None => []
                 end in
     items <- getChildNodes slug ;;
     ret (Json200 items))
    (fun error => ret (Json400 error)).

(** ** [components/mdx-renderer.tsx] *)

(** The React elements of a compiled document: text, and [<Include>]
    elements bound to the component that [createIncludeComponent visited]
    returned, whose closure holds the set object [visited]. *)
Inductive element : Type :=
| ElText (text : string)
| ElInclude (visited : loc) (slugAttr : string).

Record RenderedMdx : Type := mkRenderedMdx {
  rm_content : list element;
  rm_frontmatter : gmap string fmvalue
}.

(** [components: { Include: createIncludeComponent(includeVisited), ... }]
    applied to the compiled body. *)
Definition bindComponents (includeVisited : loc) (node : mdxnode) : element :=
  match node with
  | MdxText text => ElText text
  | MdxInclude slugAttr => ElInclude includeVisited slugAttr
  end.

Definition compileMdx (slug : list string) (visited : loc) : M RenderedMdx :=
  let slugKey := Js.join "/" slug in
  seen <- setHas visited slugKey ;;
  if seen then throw (CircularInclude slugKey)
  else
    setAdd visited slugKey ;;;
    r <- tryCatch (readMdxFile slug)
           (fun error =>
              match error with
              | Errno ENOENT => throw NextNotFound
              | _ => throw error
              end) ;;
    let source := fst r in
    includeVisited <- copySet visited ;;
    match compileMDX source with
    | None => throw MdxCompileError
    | Some (nodes, frontmatter) =>
        ret (mkRenderedMdx (map (bindComponents includeVisited) nodes) frontmatter)
    end.

(** The component returned by [createIncludeComponent visited], applied to
    its [slug] property. *)
Definition Include (visited : loc) (slugAttr : string) : M (list element) :=
  let includeSlug := parseSlug slugAttr in
  if negb (0 <? length includeSlug)%nat then throw EmptyInclude
  else
    fresh <- copySet visited ;;
    r <- compileMdx includeSlug fresh ;;
    ret (rm_content r).

Definition renderMdx (slug : list string) : M RenderedMdx :=
  visited <- newSet ∅ ;;
  compileMdx slug visited.

(** The children of the [<article>] that [MDXRenderer] returns. *)
Definition MDXRenderer (slug : list string) : M (list element) :=
  visited <- newSet ∅ ;;
  r <- compileMdx slug visited ;;
  ret (rm_content r).

(** *** Rendering

    React calls the component of every element it meets; an element whose
    component throws yields no output and the error is reported, while its
    siblings are still rendered.  [fuel] bounds the nesting of includes. *)

Record rendered : Type := mkRendered {
  r_text : list string;
  r_errors : list exn
}.

Definition attempt {A} (m : M A) : M (exn + A) :=
  fun w =>
    match m w with
    | (Return a, w') => (Return (inr a), w')
    | (Throw e, w') => (Return (inl e), w')
    | (OutOfFuel, w') => (OutOfFuel, w')
    end.

Fixpoint render (fuel : nat) (els : list element) : M rendered :=
  match fuel with
  | O => diverge
  | S fuel' =>
      (fix renderAll (els : list element) : M rendered :=
         match els with
         | [] => ret (mkRendered [] [])
         | ElText text :: rest =>
             r <- renderAll rest ;;
             ret (mkRendered (text :: r_text r) (r_errors r))
         | ElInclude visited slugAttr :: rest =>
             c <- attempt (Include visited slugAttr) ;;
             here <- match c with
                     | inl e => ret (mkRendered [] [e])
                     | inr content => render fuel' content
                     end ;;
             r <- renderAll rest ;;
             ret (mkRendered (r_text here ++ r_text r) (r_errors here ++ r_errors r))
         end) els
  end.

(** The composed document of a page: the front matter that [renderMdx]
    returns for the page's slug, and the text React makes of the content. *)
Record ComposedDocument : Type := mkComposed {
  cd_slug : list string;
  cd_body : list string;
  cd_metadata : gmap string fmvalue
}.

Inductive composition : Type :=
| Composed (doc : ComposedDocument)
| Failed (errors : list exn).

Definition composeDocument (fuel : nat) (slug : list string) : M composition :=
  root <- attempt (renderMdx slug) ;;
  match root with
  | inl e => ret (Failed [e])
  | inr r =>
      out <- render fuel (rm_content r) ;;
      match r_errors out with
      | [] => ret (Composed (mkComposed slug (r_text out) (rm_frontmatter r)))
      | errors => ret (Failed errors)
      end
  end.

(** ** [components/navigation-menu.tsx] *)

Definition slugKey (slug : list string) : string := Js.join "/" slug.

Definition slugToHref (slug : list string) : string :=
  match slug with
  | [segment] => if String.eqb segment "home" then "/" else "/" +:+ Js.join "/" slug
  | _ => "/" +:+ Js.join "/" slug
  end.

(** [/\b\w/g] replaced by its upper case: a word character is capitalised
    when the character before it is not a word character. *)
Fixpoint capitalizeWords (prevIsWord : bool) (s : string) : string :=
  match s with
  | EmptyString => EmptyString
  | String c s' =>
      String (if Js.isWord c && negb prevIsWord then Js.upperChar c else c)
             (capitalizeWords (Js.isWord c) s')
  end.

Definition humanizeName (value : string) : string :=
  Js.trim
    (capitalizeWords false
       (Js.replaceRuns Js.isSpace
          (Js.mapChars (fun c => if Ascii.eqb c "-"%char || Ascii.eqb c "_"%char
                                 then " "%char else c) value))).

Definition deriveActiveSlug (pathname : string) : list string :=
  let segments := filter (fun s => Js.truthy s = true) (Js.split "/" pathname) in
  if (length segments =? 0)%nat then ["home"] else segments.

Definition MAX_RESULTS : nat := 8.

Definition buildSnippet (content normalizedQuery : string) : string :=
  if negb (Js.truthy normalizedQuery) then Js.trim (Js.slice content 0 140)
  else
    let lowerContent := Js.toLowerCase content in
    let radius := 80 in
    match Js.indexOf lowerContent normalizedQuery with
    | None => Js.trim (Js.slice content 0 160)
    | Some matchIndex =>
        let start := matchIndex - radius in
        let end_ := Nat.min (String.length content)
                            (matchIndex + String.length normalizedQuery + radius) in
        let snippet := Js.trim (Js.slice content start end_) in
        let snippet := if (0 <? start)%nat then "..." +:+ snippet else snippet in
        let snippet := if (end_ <? String.length content)%nat
                       then snippet +:+ "..." else snippet in
        Js.replaceRuns Js.isSpace snippet
    end.

Record DocLink : Type := mkDocLink {
  link_slug : list string;
  link_title : string;
  link_content : string;
  link_href : string
}.

(** [docs.map(doc => ({ ...doc, href: slugToHref(doc.slug) }))]. *)
Definition toDocLink (doc : DocIndexEntry) : DocLink :=
  mkDocLink (entry_slug doc) (entry_title doc) (entry_content doc)
            (slugToHref (entry_slug doc)).

Record SearchResult : Type := mkSearchResult {
  result_doc : DocLink;
  result_snippet : string
}.

Definition normalizeQuery (query : string) : string :=
  Js.toLowerCase (Js.trim query).

Definition haystack (doc : DocLink) : string :=
  Js.toLowerCase (link_title doc +:+ " " +:+ link_href doc +:+ " " +:+ link_content doc).

(** The [results] memo of the [Search] component. *)
Definition Search (docs : list DocLink) (query : string) : list SearchResult :=
  let normalizedQuery := normalizeQuery query in
  if negb (Js.truthy normalizedQuery) then []
  else
    firstn MAX_RESULTS
      (compact
         (map (fun doc =>
                 if negb (Js.includes (haystack doc) normalizedQuery) then None
                 else Some (mkSearchResult doc (buildSnippet (link_content doc) normalizedQuery)))
              docs)).

End Sources.

(** ** A small site, used to run the definitions *)

Module Fixture.

(** Code-unit order, the order [localeCompare] induces on lower-case ASCII
    names. *)
Definition codeUnitCompare (a b : string) : Z :=
  match String.compare a b with
  | Lt => (-1)%Z
  | Eq => 0%Z
  | Gt => 1%Z
  end.

(** A toy document syntax: fields separated by [|]; a leading [title:]
    field is the front matter, a field starting with [+] is an include of
    the slug that follows, any other field is text. *)
Definition toyMatter (source : string) : option (gmap string fmvalue * string) :=
  match Js.split "|" source with
  | hd :: tl =>
      if Js.startsWith hd "title:"
      then Some ({[ "title" := FmString (Js.drop 6 hd) ]}, Js.join "|" tl)
      else Some (∅, source)
  | [] => Some (∅, source)
  end.

Definition toyNode (field : string) : mdxnode :=
  if Js.startsWith field "+" then MdxInclude (Js.drop 1 field) else MdxText field.

Definition toyCompileMDX (source : string)
  : option (list mdxnode * gmap string fmvalue) :=
  match toyMatter source with
  | Some (data, body) => Some (map toyNode (Js.split "|" body), data)
  | None => None
  end.

Definition content : fsnode :=
  FDir [ ("home.mdx", FFile "title:Welcome|Start here");
         ("guide", FDir [ ("intro.mdx", FFile "Intro|+general/shared|+general/shared");
                          ("getting-started.mdx", FFile "Install it") ]);
         ("general", FDir [ ("shared.mdx", FFile "title:Shared|Shared content") ]);
         ("loops", FDir [ ("self.mdx", FFile "+loops/self");
                          ("ping.mdx", FFile "+loops/pong");
                          ("pong.mdx", FFile "+loops/ping") ]);
         ("assets", FDir [ ("logo.svg", FFile "<svg/>") ]);
         ("empty", FDir []);
         ("mixed", FDir [ ("a.mdx", FFile "A");
                          ("b", FDir [ ("c.mdx", FFile "C") ]) ]);
         ("zebra.mdx", FFile "Stripes") ].

Definition siteDisk : fsnode :=
  FDir [ ("srv", FDir [ ("site", FDir [ ("package.json", FFile "{}");
                                          ("secrets", FDir [ ("notes.mdx", FFile "title:Keys|k") ]);
                                          ("content", content) ]) ]) ].

#[export] Instance site : Platform := {|
  cwd := "/srv/site";
  disk := siteDisk;
  matter := toyMatter;
  compileMDX := toyCompileMDX;
  localeCompare := codeUnitCompare
|}.

End Fixture.

(** * The rest of the sources

    The callers and the neighbours of the functions above: the SEO lookup of
    [lib/mdx.ts], the static parameters of [app/[...slug]/page.tsx], the
    sitemap of [app/sitemap.ts], the link test of the [NavBar] component and the
    ancestor directories the navigation menu expands. *)

From Stdlib Require PrimFloat.

(** [Set<string>] as [Array.from] reads it: the elements, in insertion
    order. *)
Module JsSet.

Definition has (elements : list string) (key : string) : bool :=
  existsb (String.eqb key) elements.

(** [set.add(key)]. *)
Definition add (elements : list string) (key : string) : list string :=
  if has elements key then elements else elements ++ [key].

(** [new Set(keys)]. *)
Definition ofArray (keys : list string) : list string := fold_left add keys [].

End JsSet.

Section Seo.
Context `{Platform}.

(** [JSON.parse]: [None] when it throws its [SyntaxError], and the
    truthiness of the value otherwise ([null], [false], [0] and the empty
    string are falsy). *)
Context {Json : Type} (JSON_parse : string -> option Json) (truthy : Json -> bool).

(** The [SyntaxError] of [JSON.parse] is no rejection of [node:fs] and no
    error of the sources: a run it ends returns it on the left. *)
Inductive SyntaxError : Type := JsonSyntaxError.

Definition readSeoMetadataFile (filePath : string) : M (SyntaxError + option Json) :=
  tryCatch
    (raw <- fs_readFile filePath ;;
     match JSON_parse raw with
     | Some seo => ret (inr (Some seo))
     | None => ret (inl JsonSyntaxError)
     end)
    (fun error =>
       match error with
       | Errno ENOENT => ret (inr None)
       | _ => throw error
       end).

(** [path.join(CONTENT_ROOT, ...slug.slice(0, index), "seo.json")]. *)
Definition seoCandidate (slug : list string) (index : nat) : string :=
  Path.join (CONTENT_ROOT :: firstn index slug ++ ["seo.json"]).

(** The [candidates] array of [getSeoMetadata]: one path per prefix of the
    slug, the longest first, then the root once more. *)
Definition seoCandidates (slug : list string) : list string :=
  map (seoCandidate slug) (rev (seq 0 (S (length slug))))
  ++ [Path.join [CONTENT_ROOT; "seo.json"]].

(** [for (const candidate of candidates) { ... if (seo) return seo; }
    return null]. *)
Fixpoint firstSeo (candidates : list string) : M (SyntaxError + option Json) :=
  match candidates with
  | [] => ret (inr None)
  | candidate :: rest =>
      r <- readSeoMetadataFile candidate ;;
      match r with
      | inl error => ret (inl error)
      | inr (Some seo) => if truthy seo then ret (inr (Some seo)) else firstSeo rest
      | inr None => firstSeo rest
      end
  end.

Definition getSeoMetadata (slug : list string) : M (SyntaxError + option Json) :=
  firstSeo (seoCandidates slug).

End Seo.

Section Pages.
Context `{Platform}.

(** ** [app/[...slug]/page.tsx] *)

Definition generateStaticParams (fuel : nat) : M (list (list string)) :=
  slugs <- getAllDocSlugs fuel ;;
  ret (filter (fun segments => Js.join "/" segments <> "home") slugs).

(** ** [components/navigation-menu.tsx], [expandActivePath]

    [activeSlug.slice(0, -1).map((_, index) => activeSlug.slice(0, index + 1))]. *)
Definition activeDirectories (activeSlug : list string) : list (list string) :=
  imap (fun index _ => firstn (index + 1) activeSlug) (removelast activeSlug).

(** ** The [NavBar] component *)

(** [linkClassName]'s test. *)
Definition isActiveLink (pathname href : string) : bool :=
  String.eqb pathname href ||
  (negb (String.eqb href "/") && Js.startsWith pathname (href +:+ "/")).

End Pages.

(** ** [app/sitemap.ts] *)

Section Sitemap.
Import PrimFloat.
Set Warnings "-inexact-float".
Context `{Platform}.

(** [process.env.NEXT_PUBLIC_SITE_URL ?? "http://localhost:3000"], and the
    value of the [index]-th [new Date()] of a run. *)
Context (BASE_URL : string) {Date : Type} (newDate : nat -> Date).

Definition DEFAULT_PRIORITY : float := 0.6%float.

Definition buildUrl (slug : list string) : string :=
  match slug with
  | [segment] =>
      if String.eqb segment "home" then BASE_URL
      else BASE_URL +:+ "/" +:+ Js.join "/" slug
  | _ => BASE_URL +:+ "/" +:+ Js.join "/" slug
  end.

Definition getPriorityForSlug (slug : list string) : float :=
  if (length slug =? 0)%nat then 1.0%float
  else if (length slug =? 1)%nat then 0.8%float
  else DEFAULT_PRIORITY.

Record SitemapEntry : Type := mkSitemapEntry {
  sm_url : string;
  sm_lastModified : Date;
  sm_changeFrequency : string;
  sm_priority : float
}.

Definition sitemap (fuel : nat) : M (list SitemapEntry) :=
  slugs <- getAllDocSlugs fuel ;;
  let uniqueSlugs := JsSet.ofArray (map (Js.join "/") slugs) in
  let uniqueSlugs := JsSet.add uniqueSlugs "home" in
  ret (imap (fun index joinedSlug =>
               let segments := filter (fun s => Js.truthy s = true)
                                      (Js.split "/" joinedSlug) in
               let url := buildUrl segments in
               mkSitemapEntry url (newDate index) "monthly"
                              (getPriorityForSlug segments))
            uniqueSlugs).

End Sitemap.

(** ** A site with SEO files, used to run the lookup *)

Module SeoFixture.

(** JSON left as text: a text that opens a brace and does not close it is
    malformed, and [null] is the falsy value. *)
Definition toyParse (raw : string) : option string :=
  if Js.startsWith raw "{" && negb (Js.endsWith raw "}") then None else Some raw.

Definition toyTruthy (seo : string) : bool := negb (String.eqb seo "null").

Definition seoDisk : fsnode :=
  FDir [ ("srv", FDir [ ("site", FDir [ ("content", FDir [
           ("seo.json", FFile "{root}");
           ("guide", FDir [ ("seo.json", FFile "{guide}");
                            ("intro.mdx", FFile "Intro");
                            ("deep", FDir [ ("seo.json", FFile "null");
                                            ("page.mdx", FFile "Page") ]) ]);
           ("broken", FDir [ ("seo.json", FFile "{oops");
                             ("page.mdx", FFile "Page") ]) ]) ]) ]) ].

Definition seoSite : Platform := {|
  cwd := "/srv/site";
  disk := seoDisk;
  matter := Fixture.toyMatter;
  compileMDX := Fixture.toyCompileMDX;
  localeCompare := Fixture.codeUnitCompare
|}.

End SeoFixture.

(** ** A site whose documents carry front matter at every include depth *)

Module ComposeFixture.

(** [manual] includes [parts/one], which includes [parts/two]; each of the
    three has a title of its own. *)
Definition manualDisk : fsnode :=
  FDir [ ("srv", FDir [ ("site", FDir [ ("content", FDir [
           ("manual.mdx", FFile "title:Manual|Intro|+parts/one|Outro");
           ("parts", FDir [ ("one.mdx", FFile "title:One|First|+parts/two");
                            ("two.mdx", FFile "title:Two|Second") ]) ]) ]) ]) ].

Definition manualSite : Platform := {|
  cwd := "/srv/site";
  disk := manualDisk;
  matter := Fixture.toyMatter;
  compileMDX := Fixture.toyCompileMDX;
  localeCompare := Fixture.codeUnitCompare
|}.

End ComposeFixture.

(** * Vocabulary of the statements *)

(** The characters of a string, in order. *)
Definition chars (s : string) : list ascii := list_ascii_of_string s.

(** A segment as a slug or a directory entry holds it: not empty and free
    of the separator. *)
Definition plainSegment (s : string) : Prop :=
  s <> "" /\ ~ In "/"%char (chars s).

(** The slug invariant of the data model: every segment is non-empty, holds
    no separator and is not the parent-traversal token. *)
Definition validSegment (s : string) : bool :=
  Js.truthy s && negb (Js.includes s "/") && negb (Js.includes s "\") &&
  negb (String.eqb s "..").

Definition validSlug (slug : list string) : Prop :=
  Forall (fun s => validSegment s = true) slug.

(** White space collapsed: the only white-space character is the space, and
    no two white-space characters are adjacent. *)
Fixpoint singleSpaced (s : string) : Prop :=
  match s with
  | EmptyString => True
  | String a s' =>
      (Js.isSpace a = true ->
       a = " "%char /\ match s' with
                       | String b _ => Js.isSpace b = false
                       | EmptyString => True
                       end) /\ singleSpaced s'
  end.

Definition noLeadingSpace (s : string) : Prop :=
  forall c rest, s = String c rest -> Js.isSpace c = false.

Definition noTrailingSpace (s : string) : Prop :=
  forall pre c, s = pre +:+ String c "" -> Js.isSpace c = false.

(** The order a comparator induces. *)
Definition cmpLe {A} (cmp : A -> A -> Z) (a b : A) : Prop := (cmp a b <= 0)%Z.

(** [readdir] as a function of the disk alone. *)
Definition direntOf (e : string * fsnode) : Dirent := mkDirent (fst e) (kindOf (snd e)).

(** The order of a one-level listing: directories before files, and by name
    within each kind. *)
Definition listedBefore `{Platform} (a b : DocListItem) : Prop :=
  (item_type a = TDirectory /\ item_type b = TFile) \/
  (item_type a = item_type b /\ (localeCompare (item_name a) (item_name b) <= 0)%Z).

(** A comparator is consistent when swapping its arguments flips the sign
    and the order it induces is transitive. *)
Definition consistentCompare (cmp : string -> string -> Z) : Prop :=
  (forall a b, (0 < cmp a b)%Z -> (cmp b a <= 0)%Z) /\
  (forall a b c, (cmp a b <= 0)%Z -> (cmp b c <= 0)%Z -> (cmp a c <= 0)%Z).

(** Every level of a tree is sorted by name. *)
Inductive sortedLevels `{Platform} : list DocNode -> Prop :=
| SortedLevels (nodes : list DocNode) :
    StronglySorted (cmpLe byName) nodes ->
    Forall (fun n => forall ch, node_children n = Some ch -> sortedLevels ch) nodes ->
    sortedLevels nodes.

(** What a run returned, [d] when it did not return. *)
Definition returned {A} (d : A) (r : outcome A * world) : A :=
  match fst r with Return a => a | _ => d end.


(** Whether a document lies somewhere below a node of the disk. *)
Fixpoint containsDocument (node : fsnode) : bool :=
  match node with
  | FDir entries =>
      (fix anyEntry (es : list (string * fsnode)) : bool :=
         match es with
         | [] => false
         | (name, FFile _) :: rest => Js.endsWith name CONTENT_EXTENSION || anyEntry rest
         | (_, sub) :: rest => containsDocument sub || anyEntry rest
         end) entries
  | _ => false
  end.

(** The text of the document a slug addresses, when [readMdxFile] returns
    it. *)
Definition documentSource `{Platform} (slug : list string) : option string :=
  match fst (readMdxFile slug emptyWorld) with
  | Return r => Some (fst r)
  | _ => None
  end.

(** A computation that only adds calls to the log of the disk. *)
Definition appendsOnly {A} (m : M A) : Prop :=
  forall w, exists t, trace (snd (m w)) = trace w ++ t.

(** The title and the text of an index entry, read off the document. *)
Definition indexedFrom `{Platform} (e : DocIndexEntry) : Prop :=
  exists source data content,
    documentSource (entry_slug e) = Some source /\
    matter source = Some (data, content) /\
    entry_title e = match stringField data "title" with
                    | Some title => title
                    | None => default "" (last (entry_slug e))
                    end /\
    entry_content e = stripMarkdown content.


(** A name as a directory holds it. *)
Definition entryName (s : string) : Prop :=
  plainSegment s /\ s <> "." /\ s <> "..".

(** An absolute path in normal form. *)
Definition absolutePath (segs : list string) : string := "/" +:+ Js.join "/" segs.

(** Names are proper and unique within each directory, at every depth. *)
Fixpoint wellFormed (node : fsnode) : Prop :=
  match node with
  | FDir entries =>
      NoDup (map fst entries) /\
      (fix each (es : list (string * fsnode)) : Prop :=
         match es with
         | [] => True
         | (name, sub) :: rest => entryName name /\ wellFormed sub /\ each rest
         end) entries
  | _ => True
  end.

Fixpoint height (node : fsnode) : nat :=
  match node with
  | FDir entries =>
      S ((fix highest (es : list (string * fsnode)) : nat :=
            match es with
            | [] => 0
            | (_, sub) :: rest => Nat.max (height sub) (highest rest)
            end) entries)
  | _ => 0
  end.

(** The tree of documents below a directory of the disk, read off the
    snapshot itself: the function [collectDocs] computes through its calls
    to the disk. *)
Fixpoint treeOf `{Platform} (node : fsnode) (dirPath : string) (ancestorSlug : list string)
  : list DocNode :=
  match node with
  | FDir entries =>
      Js.sort byName
        (compact
           (map (fun e : string * fsnode =>
                   let (name, sub) := e in
                   match sub with
                   | FDir _ =>
                       let children :=
                         treeOf sub (Path.join [dirPath; name]) (ancestorSlug ++ [name]) in
                       if negb (0 <? length children)%nat then None
                       else Some (mkDocNode TDirectory name (ancestorSlug ++ [name])
                                    (Path.join [dirPath; name]) (Some children))
                   | FFile _ =>
                       if Js.endsWith name CONTENT_EXTENSION
                       then Some (mkDocNode TFile (Js.dropEnd name (String.length CONTENT_EXTENSION))
                                    (ancestorSlug ++ [Js.dropEnd name (String.length CONTENT_EXTENSION)])
                                    (Path.join [dirPath; name]) None)
                       else None
                   | FOther => None
                   end) entries))
  | _ => []
  end.

(** The number of documents below a node of the tree. *)
Fixpoint countFiles (node : DocNode) : nat :=
  match node with
  | mkDocNode TFile _ _ _ _ => 1
  | mkDocNode TDirectory _ _ _ (Some children) => list_sum (map countFiles children)
  | mkDocNode TDirectory _ _ _ None => 0
  end.

(** A node of the tree and all the nodes below it. *)
Fixpoint subtree (node : DocNode) : list DocNode :=
  node :: match node_children node with
          | Some children => flat_map subtree children
          | None => []
          end.

(** A node no directory of which is empty. *)
Inductive populated : DocNode -> Prop :=
| PopulatedFile name slug filePath :
    populated (mkDocNode TFile name slug filePath None)
| PopulatedDirectory name slug filePath children :
    children <> [] -> Forall populated children ->
    populated (mkDocNode TDirectory name slug filePath (Some children)).

(** What [treeOf] makes of one entry of a directory. *)
Definition entryTree `{Platform} (dirPath : string) (ancestorSlug : list string)
           (e : string * fsnode) : option DocNode :=
  let (name, sub) := e in
  match sub with
  | FDir _ =>
      let children :=
        treeOf sub (Path.join [dirPath; name]) (ancestorSlug ++ [name]) in
      if negb (0 <? length children)%nat then None
      else Some (mkDocNode TDirectory name (ancestorSlug ++ [name])
                   (Path.join [dirPath; name]) (Some children))
  | FFile _ =>
      if Js.endsWith name CONTENT_EXTENSION
      then Some (mkDocNode TFile (Js.dropEnd name (String.length CONTENT_EXTENSION))
                   (ancestorSlug ++ [Js.dropEnd name (String.length CONTENT_EXTENSION)])
                   (Path.join [dirPath; name]) None)
      else None
  | FOther => None
  end.

(** A computation that returns [a] whatever the world it starts from. *)
Definition returns {A} (m : M A) (a : A) : Prop :=
  forall w, fst (m w) = Return a.

(** The elements of the set object at [l]. *)
Definition valueAt (w : world) (l : loc) : gset string := default ∅ (sets w !! l).

(** What [compileMdx] obtains for a slug once the cycle check has passed:
    the compiled body and front matter of the document, or the error its
    [try]/[catch] around [readMdxFile], or [compileMDX], ends with. *)
Definition loadDocument `{Platform} (slug : list string)
  : exn + (list mdxnode * gmap string fmvalue) :=
  match fst (readMdxFile slug emptyWorld) with
  | Return r =>
      match compileMDX (fst r) with
      | Some compiled => inr compiled
      | None => inl MdxCompileError
      end
  | Throw (Errno ENOENT) => inl NextNotFound
  | Throw e => inl e
  | OutOfFuel => inl NextNotFound
  end.

(** The texts of all the regular files of a disk. *)
Fixpoint allContents (node : fsnode) : list string :=
  match node with
  | FFile content => [content]
  | FDir entries =>
      (fix below (es : list (string * fsnode)) : list string :=
         match es with
         | [] => []
         | (_, sub) :: rest => allContents sub ++ below rest
         end) entries
  | FOther => []
  end.

(** The slug keys of the include directives of a compiled body. *)
Definition includeKeys `{Platform} (nodes : list mdxnode) : list string :=
  flat_map (fun node => match node with
                        | MdxInclude slugAttr => [slugKey (parseSlug slugAttr)]
                        | MdxText _ => []
                        end) nodes.

(** The slug keys that the include directives of the files of the disk can
    name: a finite set, whatever the documents say. *)
Definition allKeys `{Platform} : gset string :=
  list_to_set
    (flat_map (fun source => match compileMDX source with
                             | Some (nodes, _) => includeKeys nodes
                             | None => []
                             end) (allContents disk)).

(** The closures of the include elements of [els] hold sets that exist in
    [w], whose complement in [allKeys] has at most [m] elements. *)
Definition boundedBy `{Platform} (m : nat) (w : world) (els : list element) : Prop :=
  forall l slugAttr,
    In (ElInclude l slugAttr) els ->
    exists V, sets w !! l = Some V /\
              slugKey (parseSlug slugAttr) ∈ allKeys /\
              size (allKeys ∖ V) <= m.

(** [expands V nodes body]: below the ancestors [V], every include directive
    of [nodes] resolves, level after level, without meeting an ancestor, a
    missing or a malformed document, and the texts met on the way are
    [body], in order. *)
Inductive expands `{Platform} : gset string -> list mdxnode -> list string -> Prop :=
| expands_nil V : expands V [] []
| expands_text V text rest body :
    expands V rest body ->
    expands V (MdxText text :: rest) (text :: body)
| expands_include V slugAttr rest nodes fm inner body :
    parseSlug slugAttr <> [] ->
    slugKey (parseSlug slugAttr) ∉ V ->
    loadDocument (parseSlug slugAttr) = inr (nodes, fm) ->
    expands ({[slugKey (parseSlug slugAttr)]} ∪ V) nodes inner ->
    expands V rest body ->
    expands V (MdxInclude slugAttr :: rest) (inner ++ body).

(** ** Vocabulary of the further properties *)

(** What [capitalizeWords] makes of one character. *)
Definition capitalizeChar (prevIsWord : bool) (c : ascii) : ascii :=
  if Js.isWord c && negb prevIsWord then Js.upperChar c else c.

(** No word of [s] starts with a lower-case letter; [prevIsWord] tells
    whether a word character stands before [s]. *)
Fixpoint wordsCapitalized (prevIsWord : bool) (s : string) : Prop :=
  match s with
  | EmptyString => True
  | String c s' =>
      (prevIsWord = false -> Js.isLower c = false) /\ wordsCapitalized (Js.isWord c) s'
  end.

Definition isDot (s : string) : bool := String.eqb s ".".

(** The entries [readMdxFile] descends through below the content root for a
    slug that passed [assertSafeSlug]: the segments other than [.], the
    last one with the extension. *)
Definition documentEntries (slug : list string) : list string :=
  match List.filter (fun s => negb (isDot s)) slug with
  | [] => ["..mdx"]
  | kept => removelast kept ++ [List.last kept "" +:+ ".mdx"]
  end.

(** A node of the tree sits where its parent says: its slug is the slug of
    the parent followed by its name, its path the path of the parent
    followed by the name of its entry. *)
Inductive located : string -> list string -> DocNode -> Prop :=
| LocatedFile dirPath ancestorSlug name :
    located dirPath ancestorSlug
            (mkDocNode TFile name (ancestorSlug ++ [name])
                       (Path.join [dirPath; name +:+ ".mdx"]) None)
| LocatedDirectory dirPath ancestorSlug name children :
    Forall (located (Path.join [dirPath; name]) (ancestorSlug ++ [name])) children ->
    located dirPath ancestorSlug
            (mkDocNode TDirectory name (ancestorSlug ++ [name])
                       (Path.join [dirPath; name]) (Some children)).

(** A computation that runs to its end whatever the world it starts from. *)
Definition terminates {A} (m : M A) : Prop := forall w, fst (m w) <> OutOfFuel.

(** A candidate that holds no SEO data: the file is missing, or holds a
    falsy JSON value. *)
Definition seoAbsent `{Platform} {Json : Type} (JSON_parse : string -> option Json)
           (truthy : Json -> bool) (p : string) : Prop :=
  match resolve disk p with
  | inl ENOENT => True
  | inr FOther => True
  | inr (FFile raw) => exists seo, JSON_parse raw = Some seo /\ truthy seo = false
  | _ => False
  end.

(** The keys of the set the sitemap is made from, and the entry made of the
    key at [index]. *)
Definition sitemapKeys (slugs : list (list string)) : list string :=
  JsSet.add (JsSet.ofArray (map (Js.join "/") slugs)) "home".

Definition sitemapEntryOf (BASE_URL : string) {Date : Type} (newDate : nat -> Date)
           (index : nat) (joinedSlug : string) : SitemapEntry :=
  mkSitemapEntry (buildUrl BASE_URL (segmentsOf joinedSlug)) (newDate index) "monthly"
                 (getPriorityForSlug (segmentsOf joinedSlug)).

(** The document nodes of a tree, at every depth, in the order of the
    tree. *)
Definition documentNodes (tree : list DocNode) : list DocNode :=
  List.filter (fun node => NodeType_eqb (node_type node) TFile) (flat_map subtree tree).

(** * Facts about the string primitives *)

Section StringFacts.

Lemma append_nil_r (s : string) : s +:+ "" = s.
Proof. induction s as [|c s IH]; simpl; [reflexivity | now rewrite IH]. Qed.

Lemma append_assoc (a b c : string) : (a +:+ b) +:+ c = a +:+ (b +:+ c).
Proof. induction a as [|x a IH]; simpl; [reflexivity | now rewrite IH]. Qed.

Lemma truthy_true (s : string) : Js.truthy s = true <-> s <> "".
Proof. destruct s; simpl; split; congruence. Qed.

Lemma chars_append (a b : string) : chars (a +:+ b) = chars a ++ chars b.
Proof. induction a as [|x a IH]; simpl; [reflexivity | now rewrite IH]. Qed.

Lemma startsWith_spec (s p : string) :
  Js.startsWith s p = true <-> exists rest, s = p +:+ rest.
Proof.
  revert s; induction p as [|b p IH]; intros s; simpl.
  - destruct s; split; eauto.
  - destruct s as [|a s].
    + split; [discriminate | intros [rest Hr]; discriminate].
    + simpl. rewrite andb_true_iff, Ascii.eqb_eq, IH. split.
      * intros [-> [rest ->]]. now exists rest.
      * intros [rest Hr]. injection Hr as -> ->. eauto.
Qed.

Lemma includes_nil (needle : string) :
  Js.includes "" needle = Js.startsWith "" needle || false.
Proof. reflexivity. Qed.

Lemma includes_cons (a : ascii) (s needle : string) :
  Js.includes (String a s) needle =
  Js.startsWith (String a s) needle || Js.includes s needle.
Proof. reflexivity. Qed.

Lemma includes_spec (s needle : string) :
  Js.includes s needle = true <-> exists pre post, s = pre +:+ needle +:+ post.
Proof.
  induction s as [|a s IH].
  - rewrite includes_nil, orb_false_r, startsWith_spec. split.
    + intros [rest Hr]. now exists "", rest.
    + intros [pre [post Hs]]. destruct pre; [eauto | discriminate].
  - rewrite includes_cons, orb_true_iff, startsWith_spec, IH. split.
    + intros [[rest Hr] | [pre [post Hs]]].
      * now exists "", rest.
      * exists (String a pre), post. simpl. now rewrite Hs.
    + intros [pre [post Hs]]. destruct pre as [|x pre]; simpl in Hs.
      * left. eauto.
      * right. injection Hs as -> ->. eauto.
Qed.

Lemma includes_char (s : string) (c : ascii) :
  Js.includes s (String c "") = true <-> In c (chars s).
Proof.
  rewrite includes_spec. split.
  - intros [pre [post ->]]. rewrite chars_append, in_app_iff. right. now left.
  - induction s as [|a s IH]; simpl; [tauto|]. intros [->|Hin].
    + now exists "", s.
    + destruct (IH Hin) as [pre [post ->]]. now exists (String a pre), post.
Qed.


(** *** [split] and [join] *)

Lemma split_nonempty (sep : ascii) (s : string) : Js.split sep s <> [].
Proof. induction s as [|c s IH]; simpl; [easy|]. destruct (Ascii.eqb c sep); [easy|].
       destruct (Js.split sep s); easy. Qed.

Lemma split_no_sep (sep : ascii) (s : string) :
  ~ In sep (chars s) -> Js.split sep s = [s].
Proof.
  induction s as [|c s IH]; simpl; intros Hs; [reflexivity|].
  destruct (Ascii.eqb_spec c sep) as [->|Hne]; [tauto|].
  rewrite IH by tauto. reflexivity.
Qed.

Lemma split_app_sep (sep : ascii) (a b : string) :
  Js.split sep (a +:+ String sep b) = Js.split sep a ++ Js.split sep b.
Proof.
  induction a as [|c a IH]; simpl.
  - now rewrite Ascii.eqb_refl.
  - destruct (Ascii.eqb c sep); rewrite IH; [reflexivity|].
    pose proof (split_nonempty sep a) as Hne.
    destruct (Js.split sep a); [congruence | reflexivity].
Qed.

Lemma join_cons (x : string) (l : list string) :
  l <> [] -> Js.join "/" (x :: l) = x +:+ String "/"%char (Js.join "/" l).
Proof. destruct l; [congruence | reflexivity]. Qed.

Lemma split_join (l : list string) :
  l <> [] -> Forall plainSegment l -> Js.split "/" (Js.join "/" l) = l.
Proof.
  induction l as [|x l IH]; [congruence|]. intros _ Hl.
  inversion Hl as [|? ? [Hx Hsep] Hl']; subst.
  destruct l as [|y l].
  - simpl. now apply split_no_sep.
  - rewrite join_cons by easy. rewrite split_app_sep, IH by easy.
    now rewrite split_no_sep.
Qed.

Lemma filter_truthy_plain (l : list string) :
  Forall plainSegment l -> filter (fun s => Js.truthy s = true) l = l.
Proof.
  induction 1 as [|x l [Hx _] _ IH]; [reflexivity|].
  rewrite filter_cons, IH. destruct (decide (Js.truthy x = true)) as [|Hn]; [reflexivity|].
  exfalso. apply Hn. now apply truthy_true.
Qed.

Lemma segmentsOf_join (l : list string) :
  Forall plainSegment l -> segmentsOf (Js.join "/" l) = l.
Proof.
  intros Hl. unfold segmentsOf. destruct l as [|x l]; [reflexivity|].
  rewrite split_join by easy. now apply filter_truthy_plain.
Qed.

Lemma segmentsOf_slash (s : string) : segmentsOf (String "/"%char s) = segmentsOf s.
Proof. unfold segmentsOf. simpl. reflexivity. Qed.

Lemma segmentsOf_app_sep (a b : string) :
  segmentsOf (a +:+ String "/"%char b) = segmentsOf a ++ segmentsOf b.
Proof. unfold segmentsOf. now rewrite split_app_sep, filter_app. Qed.

End StringFacts.

Section SearchFacts.

Lemma compact_cons_Some {A} (a : A) (l : list (option A)) :
  compact (Some a :: l) = a :: compact l.
Proof. reflexivity. Qed.

Lemma compact_cons_None {A} (l : list (option A)) :
  compact (None :: l) = compact l.
Proof. reflexivity. Qed.

Lemma compact_map_filter {A B} (keep : A -> Prop) `{forall a, Decision (keep a)}
      (f : A -> option B) (g : B -> A) (l : list A) :
  (forall a, keep a -> exists b, f a = Some b /\ g b = a) ->
  (forall a, ~ keep a -> f a = None) ->
  map g (compact (map f l)) = filter keep l.
Proof.
  intros Hkeep Hdrop. induction l as [|a l IH]; [reflexivity|].
  rewrite filter_cons, map_cons.
  destruct (decide (keep a)) as [Hk|Hk].
  - destruct (Hkeep a Hk) as [b [-> Hb]].
    now rewrite compact_cons_Some, map_cons, IH, Hb.
  - now rewrite (Hdrop a Hk), compact_cons_None.
Qed.

Lemma truthy_false (s : string) : Js.truthy s = false <-> s = "".
Proof. destruct s; simpl; split; congruence. Qed.

End SearchFacts.

(** * Facts about the effect monad and about [Js.sort] *)

Section MonadFacts.

Lemma bind_Return_inv {A B} (m : M A) (k : A -> M B) (w w' : world) (b : B) :
  bind m k w = (Return b, w') ->
  exists a w1, m w = (Return a, w1) /\ k a w1 = (Return b, w').
Proof.
  unfold bind. destruct (m w) as [[a|e|] w1]; intros Hk; try discriminate. eauto.
Qed.

Lemma ret_Return_inv {A} (a b : A) (w w' : world) :
  ret a w = (Return b, w') -> a = b /\ w = w'.
Proof. unfold ret. now intros [= -> ->]. Qed.

Lemma mapM_cons {A B} (f : A -> M B) (x : A) (xs : list A) :
  mapM f (x :: xs) = (y <- f x ;; ys <- mapM f xs ;; ret (y :: ys)).
Proof. reflexivity. Qed.

(** What [mapM] returns was returned element by element. *)
Lemma mapM_Return_inv {A B} (f : A -> M B) (xs : list A) (ys : list B) (w w' : world) :
  mapM f xs w = (Return ys, w') ->
  Forall2 (fun x y => exists w1 w2, f x w1 = (Return y, w2)) xs ys.
Proof.
  revert ys w w'. induction xs as [|x xs IH]; intros ys w w' Hm.
  - injection Hm as <- _. apply List.Forall2_nil.
  - rewrite mapM_cons in Hm. apply bind_Return_inv in Hm as (y & w1 & Hy & Hm).
    apply bind_Return_inv in Hm as (ys' & w2 & Hys & Hm).
    apply ret_Return_inv in Hm as [<- _].
    apply List.Forall2_cons; [eauto | eapply IH; eassumption].
Qed.

Lemma In_compact {A} (a : A) (l : list (option A)) :
  In a (compact l) <-> In (Some a) l.
Proof.
  induction l as [|[x|] l IH].
  - reflexivity.
  - rewrite compact_cons_Some. simpl. rewrite IH. split; intros [?|?]; auto; left; congruence.
  - rewrite compact_cons_None. simpl. rewrite IH. split; [auto | intros [?|?]; [discriminate | auto]].
Qed.

End MonadFacts.

Section SortFacts.
Context {A : Type} (cmp : A -> A -> Z).

Lemma insertSorted_In (x y : A) (l : list A) :
  In y (Js.insertSorted cmp x l) <-> y = x \/ In y l.
Proof.
  induction l as [|z l IH]; simpl.
  - intuition.
  - destruct (0 <? cmp x z)%Z; simpl; rewrite ?IH; intuition.
Qed.

Lemma sort_In (y : A) (l : list A) : In y (Js.sort cmp l) <-> In y l.
Proof.
  induction l as [|x l IH]; [reflexivity|].
  unfold Js.sort in *. simpl. rewrite insertSorted_In, IH. intuition.
Qed.

(** A comparator is consistent when swapping its arguments flips the sign
    and the order it induces is transitive. *)
Hypothesis cmp_flip : forall a b, (0 < cmp a b)%Z -> (cmp b a <= 0)%Z.
Hypothesis cmp_trans : forall a b c, cmpLe cmp a b -> cmpLe cmp b c -> cmpLe cmp a c.

Lemma insertSorted_sorted (x : A) (l : list A) :
  StronglySorted (cmpLe cmp) l -> StronglySorted (cmpLe cmp) (Js.insertSorted cmp x l).
Proof.
  induction 1 as [|z l Hl IH Hz]; simpl.
  - repeat constructor.
  - destruct (0 <? cmp x z)%Z eqn:Hc.
    + apply Z.ltb_lt in Hc. constructor; [exact IH|].
      apply List.Forall_forall. intros y Hy. apply insertSorted_In in Hy as [->|Hy].
      * now apply cmp_flip.
      * rewrite List.Forall_forall in Hz. now apply Hz.
    + apply Z.ltb_ge in Hc. constructor; [now constructor|].
      constructor; [exact Hc|].
      eapply List.Forall_impl; [|exact Hz]. intros y Hy. now apply (cmp_trans x z y).
Qed.

Lemma sort_sorted (l : list A) : StronglySorted (cmpLe cmp) (Js.sort cmp l).
Proof.
  induction l as [|x l IH]; [constructor|].
  unfold Js.sort in *. simpl. now apply insertSorted_sorted.
Qed.

End SortFacts.

Section SlugCodec.

Lemma validSegment_plain (s : string) : validSegment s = true -> plainSegment s.
Proof.
  unfold validSegment. rewrite !andb_true_iff, !negb_true_iff.
  intros [[[Ht Hs] _] _]. split; [now apply truthy_true|].
  intros Hin. apply includes_char in Hin. congruence.
Qed.

Lemma validSlug_plain (slug : list string) : validSlug slug -> Forall plainSegment slug.
Proof. apply List.Forall_impl. exact validSegment_plain. Qed.

Lemma slugToHref_join (slug : list string) :
  slug <> ["home"] -> slugToHref slug = "/" +:+ Js.join "/" slug.
Proof.
  intros Hne. unfold slugToHref. destruct slug as [|x [|y l]]; try reflexivity.
  destruct (String.eqb_spec x "home") as [->|]; [congruence | reflexivity].
Qed.

(** [deriveActiveSlug] undoes [slugToHref], except on the root slug. *)
Lemma deriveActiveSlug_slugToHref (slug : list string) :
  Forall plainSegment slug ->
  deriveActiveSlug (slugToHref slug) = match slug with [] => ["home"] | _ => slug end.
Proof.
  intros Hs. destruct (decide (slug = ["home"])) as [->|Hne]; [reflexivity|].
  rewrite slugToHref_join by assumption. unfold deriveActiveSlug.
  change (filter _ (Js.split "/" ("/" +:+ Js.join "/" slug)))
    with (segmentsOf (String "/"%char (Js.join "/" slug))).
  rewrite segmentsOf_slash, segmentsOf_join by assumption.
  destruct slug; reflexivity.
Qed.

End SlugCodec.

Section Whitespace.

Lemma replaceRuns_chars (cls : ascii -> bool) (s : string) (c : ascii) :
  In c (chars (Js.replaceRuns cls s)) ->
  c = " "%char \/ (In c (chars s) /\ cls c = false).
Proof.
  induction s as [|a s IH]; simpl; [tauto|].
  destruct (cls a) eqn:Ha.
  - destruct s as [|b s']; [simpl; intros [<-|[]]; auto|].
    destruct (cls b) eqn:Hb.
    + intros Hin. destruct (IH Hin) as [?|[? ?]]; auto.
    + simpl. intros [<-|Hin]; [auto|].
      destruct (IH Hin) as [?|[? ?]]; auto.
  - simpl. intros [<-|Hin]; [auto|]. destruct (IH Hin) as [?|[? ?]]; auto.
Qed.

Lemma replaceRuns_head (s : string) :
  match Js.replaceRuns Js.isSpace s with
  | String b _ => Js.isSpace b = true ->
                  match s with String a _ => Js.isSpace a = true | _ => False end
  | EmptyString => True
  end.
Proof.
  destruct s as [|a s]; simpl; [exact I|].
  destruct (Js.isSpace a) eqn:Ha.
  - destruct s as [|b s']; [reflexivity|].
    destruct (Js.isSpace b); [|reflexivity].
    destruct (Js.replaceRuns Js.isSpace (String b s')); auto.
  - congruence.
Qed.

Lemma replaceRuns_singleSpaced (s : string) :
  singleSpaced (Js.replaceRuns Js.isSpace s).
Proof.
  induction s as [|a s IH]; simpl; [exact I|].
  destruct (Js.isSpace a) eqn:Ha.
  - destruct s as [|b s']; [simpl; intuition|].
    destruct (Js.isSpace b) eqn:Hb; [exact IH|].
    split; [|exact IH]. intros _. split; [reflexivity|].
    pose proof (replaceRuns_head (String b s')) as Hh.
    destruct (Js.replaceRuns Js.isSpace (String b s')) as [|x r]; [exact I|].
    destruct (Js.isSpace x) eqn:Hx; [|reflexivity].
    specialize (Hh eq_refl). congruence.
  - split; [congruence | exact IH].
Qed.

Lemma singleSpaced_tail (a : ascii) (s : string) :
  singleSpaced (String a s) -> singleSpaced s.
Proof. simpl. tauto. Qed.

Lemma trimStart_chars (s : string) (c : ascii) :
  In c (chars (Js.trimStart s)) -> In c (chars s).
Proof.
  induction s as [|a s IH]; simpl; [tauto|].
  destruct (Js.isSpace a); simpl; auto.
Qed.

Lemma trimStart_singleSpaced (s : string) :
  singleSpaced s -> singleSpaced (Js.trimStart s).
Proof.
  induction s as [|a s IH]; [easy|]. intros Hs. simpl Js.trimStart.
  destruct (Js.isSpace a); [apply IH; now apply (singleSpaced_tail a) | exact Hs].
Qed.

Lemma trimStart_noLeadingSpace (s : string) : noLeadingSpace (Js.trimStart s).
Proof.
  induction s as [|a s IH]; simpl; [intros c rest; discriminate|].
  destruct (Js.isSpace a) eqn:Ha; [exact IH|].
  intros c rest [= <- <-]. exact Ha.
Qed.

Lemma trimEnd_cons (a : ascii) (s : string) :
  Js.trimEnd (String a s) =
  match Js.trimEnd s with
  | EmptyString => if Js.isSpace a then EmptyString else String a EmptyString
  | r => String a r
  end.
Proof. reflexivity. Qed.

Lemma trimEnd_chars (s : string) (c : ascii) :
  In c (chars (Js.trimEnd s)) -> In c (chars s).
Proof.
  induction s as [|a s IH]; [easy|]. rewrite trimEnd_cons.
  destruct (Js.trimEnd s) as [|b r].
  - destruct (Js.isSpace a); simpl; tauto.
  - simpl in *. tauto.
Qed.

Lemma trimEnd_singleSpaced (s : string) :
  singleSpaced s -> singleSpaced (Js.trimEnd s).
Proof.
  induction s as [|a s IH]; [easy|]. intros [Ha Hs]. rewrite trimEnd_cons.
  specialize (IH Hs). destruct (Js.trimEnd s) as [|b r] eqn:Ht.
  - destruct (Js.isSpace a) eqn:Ea; simpl; [exact I|]. split; [congruence | exact I].
  - split; [|exact IH]. intros Ea. destruct (Ha Ea) as [-> Hn]. split; [reflexivity|].
    destruct s as [|b' s']; [discriminate|].
    rewrite trimEnd_cons in Ht.
    destruct (Js.trimEnd s'); [destruct (Js.isSpace b') eqn:Eb|];
      try discriminate; injection Ht as <- _; assumption.
Qed.

Lemma trimEnd_noLeadingSpace (s : string) :
  noLeadingSpace s -> noLeadingSpace (Js.trimEnd s).
Proof.
  destruct s as [|a s]; [easy|]. intros Hs c rest. rewrite trimEnd_cons.
  specialize (Hs a s eq_refl).
  destruct (Js.trimEnd s); [rewrite Hs|]; intros [= <- <-]; exact Hs.
Qed.

Lemma trimEnd_noTrailingSpace (s : string) : noTrailingSpace (Js.trimEnd s).
Proof.
  induction s as [|a s IH]; intros pre c.
  - destruct pre; discriminate.
  - rewrite trimEnd_cons. destruct (Js.trimEnd s) as [|b r] eqn:Ht.
    + destruct (Js.isSpace a) eqn:Ha.
      * destruct pre; discriminate.
      * destruct pre as [|x [|y pre]]; simpl; try discriminate. now intros [= <-].
    + destruct pre as [|x pre]; simpl; [discriminate|].
      intros [= <- Hr]. now apply (IH pre c).
Qed.

Lemma isMarker_space : isMarker " "%char = false.
Proof. reflexivity. Qed.

End Whitespace.

Section DiskFacts.
Context `{Platform}.

Lemma logCall_inv (c : fscall) (w w' : world) (u : unit) :
  logCall c w = (Return u, w') -> sets w' = sets w /\ trace w' = trace w ++ [c].
Proof. unfold logCall. now intros [= _ <-]. Qed.

Lemma fs_readdir_inv (p : string) (w w' : world) (entries : list Dirent) :
  fs_readdir p w = (Return entries, w') ->
  exists raw, resolve disk p = inr (FDir raw) /\ entries = map direntOf raw.
Proof.
  unfold fs_readdir. intros Hr. apply bind_Return_inv in Hr as (u & w1 & _ & Hr).
  destruct (resolve disk p) as [code|[c|raw|]]; try discriminate.
  injection Hr as <- _. eauto.
Qed.

Lemma fs_readFile_inv (p : string) (w w' : world) (content : string) :
  fs_readFile p w = (Return content, w') -> resolve disk p = inr (FFile content).
Proof.
  unfold fs_readFile. intros Hr. apply bind_Return_inv in Hr as (u & w1 & _ & Hr).
  destruct (resolve disk p) as [code|[c|raw|]]; try discriminate.
  now injection Hr as <- _.
Qed.

Lemma fs_stat_inv (p : string) (w w' : world) (k : fskind) :
  fs_stat p w = (Return k, w') -> exists node, resolve disk p = inr node /\ k = kindOf node.
Proof.
  unfold fs_stat. intros Hr. apply bind_Return_inv in Hr as (u & w1 & _ & Hr).
  destruct (resolve disk p) as [code|node]; try discriminate.
  injection Hr as <- _. eauto.
Qed.

Lemma Forall2_In_l {A B} (R : A -> B -> Prop) (xs : list A) (ys : list B) (x : A) :
  Forall2 R xs ys -> In x xs -> exists y, In y ys /\ R x y.
Proof.
  induction 1 as [|x' y' xs ys Hxy _ IH]; simpl; [tauto|].
  intros [->|Hin]; [eauto|]. destruct (IH Hin) as [y [? ?]]. eauto.
Qed.

Lemma Forall2_In_r {A B} (R : A -> B -> Prop) (xs : list A) (ys : list B) (y : B) :
  Forall2 R xs ys -> In y ys -> exists x, In x xs /\ R x y.
Proof.
  induction 1 as [|x' y' xs ys Hxy _ IH]; simpl; [tauto|].
  intros [->|Hin]; [eauto|]. destruct (IH Hin) as [x [? ?]]. eauto.
Qed.

(** The directory under [getChildNodes]'s target and what the callback
    produced for each of its entries. *)
Lemma getChildNodes_inv (slug : list string) (w w' : world) (items : list DocListItem) :
  getChildNodes slug w = (Return items, w') ->
  exists raw produced,
    resolve disk (Path.join (CONTENT_ROOT :: slug)) = inr (FDir raw) /\
    Forall2 (fun entry item =>
               exists w1 w2,
                 listEntry slug (Path.join (CONTENT_ROOT :: slug)) entry w1
                 = (Return item, w2))
            (map direntOf raw) produced /\
    items = Js.sort listingOrder (compact produced).
Proof.
  unfold getChildNodes. intros Hg.
  apply bind_Return_inv in Hg as (stat & w1 & _ & Hg).
  destruct (negb (isDirectory stat)); [discriminate|].
  apply bind_Return_inv in Hg as (entries & w2 & Hrd & Hg).
  apply bind_Return_inv in Hg as (produced & w3 & Hmap & Hg).
  apply ret_Return_inv in Hg as [<- _].
  apply fs_readdir_inv in Hrd as (raw & Hraw & ->).
  apply mapM_Return_inv in Hmap. eauto.
Qed.

Lemma listEntry_directory (slug : list string) (target : string) (entry : Dirent)
      (w w' : world) (item : option DocListItem) :
  listEntry slug target entry w = (Return item, w') ->
  Js.startsWith (d_name entry) "." = false ->
  isDirectory (d_kind entry) = true ->
  exists raw,
    resolve disk (Path.join [target; d_name entry]) = inr (FDir raw) /\
    item = Some (mkDocListItem TDirectory (d_name entry) (slug ++ [d_name entry])
                   (Some (hasChildrenOf (map direntOf raw))) None).
Proof.
  unfold listEntry. intros Hl Hdot Hdir. rewrite Hdot, Hdir in Hl.
  apply bind_Return_inv in Hl as (childEntries & w1 & Hrd & Hl).
  apply ret_Return_inv in Hl as [<- _].
  apply fs_readdir_inv in Hrd as (raw & Hraw & ->). eauto.
Qed.

Lemma listEntry_Some (slug : list string) (target : string) (entry : Dirent)
      (w w' : world) (item : DocListItem) :
  listEntry slug target entry w = (Return (Some item), w') ->
  Js.startsWith (d_name entry) "." = false /\
  ((isDirectory (d_kind entry) = true /\ item_type item = TDirectory /\
    item_name item = d_name entry) \/
   (isDocumentEntry entry = true /\ item_type item = TFile /\
    item_name item = baseNameOf entry /\ item_hasChildren item = None)).
Proof.
  unfold listEntry. destruct (Js.startsWith (d_name entry) "."); [discriminate|].
  intros Hl. split; [reflexivity|].
  destruct (isDirectory (d_kind entry)).
  - apply bind_Return_inv in Hl as (childEntries & w1 & _ & Hl).
    apply ret_Return_inv in Hl as [[= <-] _]. left. auto.
  - destruct (isDocumentEntry entry); [|discriminate]. simpl in Hl.
    apply bind_Return_inv in Hl as (source & w1 & _ & Hl).
    destruct (matter source) as [[data content]|]; [|discriminate].
    apply ret_Return_inv in Hl as [[= <-] _]. right. auto.
Qed.

End DiskFacts.

Section OrderFacts.
Context `{Platform}.
Hypothesis Hcmp : consistentCompare localeCompare.

Lemma listingOrder_listedBefore (a b : DocListItem) :
  cmpLe listingOrder a b <-> listedBefore a b.
Proof.
  unfold cmpLe, listingOrder, listedBefore.
  destruct (item_type a), (item_type b); simpl; split; intros Hab;
    try lia; try tauto; try (destruct Hab as [[? ?]|[? ?]]; (congruence || lia)).
Qed.

Lemma listingOrder_flip (a b : DocListItem) :
  (0 < listingOrder a b)%Z -> (listingOrder b a <= 0)%Z.
Proof.
  destruct Hcmp as [Hflip _]. unfold listingOrder.
  destruct (item_type a), (item_type b); simpl; try lia; apply Hflip.
Qed.

Lemma listingOrder_trans (a b c : DocListItem) :
  cmpLe listingOrder a b -> cmpLe listingOrder b c -> cmpLe listingOrder a c.
Proof.
  destruct Hcmp as [_ Htrans]. unfold cmpLe, listingOrder.
  destruct (item_type a), (item_type b), (item_type c); simpl; try lia; apply Htrans.
Qed.

Lemma byName_flip (a b : DocNode) : (0 < byName a b)%Z -> (byName b a <= 0)%Z.
Proof. destruct Hcmp as [Hflip _]. apply Hflip. Qed.

Lemma byName_trans (a b c : DocNode) :
  cmpLe byName a b -> cmpLe byName b c -> cmpLe byName a c.
Proof. destruct Hcmp as [_ Htrans]. apply Htrans. Qed.

Lemma collectEntry_children (recurse : string -> list string -> M (list DocNode))
      (dirPath : string) (ancestorSlug : list string) (entry : Dirent)
      (w w' : world) (node : DocNode) (ch : list DocNode) :
  collectEntry recurse dirPath ancestorSlug entry w = (Return (Some node), w') ->
  node_children node = Some ch ->
  ch <> [] /\ node_type node = TDirectory /\
  exists p s w1 w2, recurse p s w1 = (Return ch, w2).
Proof.
  unfold collectEntry. destruct (isDirectory (d_kind entry)).
  - intros Hc. apply bind_Return_inv in Hc as (children & w1 & Hrec & Hc).
    destruct children as [|c children]; simpl in Hc.
    + apply ret_Return_inv in Hc as [[=] _].
    + apply ret_Return_inv in Hc as [[= <-] _]. simpl. intros [= <-].
      split; [discriminate|]. split; [reflexivity|]. eauto.
  - destruct (negb (isDocumentEntry entry)); intros Hc.
    + apply ret_Return_inv in Hc as [[=] _].
    + apply ret_Return_inv in Hc as [[= <-] _]. discriminate.
Qed.

Lemma collectDocs_inv (fuel : nat) (dirPath : string) (ancestorSlug : list string)
      (w w' : world) (nodes : list DocNode) :
  collectDocs (S fuel) dirPath ancestorSlug w = (Return nodes, w') ->
  exists raw produced,
    resolve disk dirPath = inr (FDir raw) /\
    Forall2 (fun entry node =>
               exists w1 w2,
                 collectEntry (collectDocs fuel) dirPath ancestorSlug entry w1
                 = (Return node, w2))
            (map direntOf raw) produced /\
    nodes = Js.sort byName (compact produced).
Proof.
  simpl. intros Hc.
  apply bind_Return_inv in Hc as (entries & w1 & Hrd & Hc).
  apply bind_Return_inv in Hc as (produced & w2 & Hmap & Hc).
  apply ret_Return_inv in Hc as [<- _].
  apply fs_readdir_inv in Hrd as (raw & Hraw & ->).
  apply mapM_Return_inv in Hmap. eauto.
Qed.

Lemma collectDocs_sortedLevels (fuel : nat) :
  forall dirPath ancestorSlug w w' nodes,
    collectDocs fuel dirPath ancestorSlug w = (Return nodes, w') -> sortedLevels nodes.
Proof.
  induction fuel as [|fuel IH]; intros dirPath ancestorSlug w w' nodes Hc; [discriminate|].
  apply collectDocs_inv in Hc as (raw & produced & _ & Hall & ->).
  constructor.
  - apply sort_sorted; [apply byName_flip | apply byName_trans].
  - apply List.Forall_forall. intros node Hin ch Hch.
    apply sort_In, In_compact in Hin.
    destruct (Forall2_In_r _ _ _ _ Hall Hin) as (entry & _ & w1 & w2 & Hrun).
    destruct (collectEntry_children _ _ _ _ _ _ _ _ Hrun Hch)
      as (_ & _ & p & s & w3 & w4 & Hrec).
    eapply IH; eassumption.
Qed.

Lemma getChildNodes_sorted (slug : list string) (w w' : world) (items : list DocListItem) :
  getChildNodes slug w = (Return items, w') -> StronglySorted listedBefore items.
Proof.
  intros Hg. apply getChildNodes_inv in Hg as (raw & produced & _ & _ & ->).
  pose proof (sort_sorted listingOrder listingOrder_flip listingOrder_trans
                          (compact produced)) as Hs.
  induction Hs as [|x l _ IH Hx]; constructor; [exact IH|].
  eapply List.Forall_impl; [|exact Hx]. intros y. apply listingOrder_listedBefore.
Qed.

End OrderFacts.

Section FixtureFacts.
Import Fixture.

Lemma codeUnitCompare_consistent : consistentCompare codeUnitCompare.
Proof.
  unfold codeUnitCompare. split.
  - intros a b. rewrite (String.compare_antisym b a).
    destruct (String.compare a b); simpl; lia.
  - intros a b c.
    destruct (String.compare a b) eqn:Hab; try lia;
      destruct (String.compare b c) eqn:Hbc; try lia; intros _ _.
    + apply String.compare_eq_iff in Hab, Hbc. subst.
      destruct (String.compare c c) eqn:Hcc; try lia.
      pose proof (String.compare_antisym c c) as Ha. rewrite Hcc in Ha. discriminate.
    + apply String.compare_eq_iff in Hab. subst. rewrite Hbc. lia.
    + apply String.compare_eq_iff in Hbc. subst. rewrite Hab. lia.
    + assert (Hac : String_as_OT.lt a c).
      { pose proof String_as_OT.lt_strorder as [_ Ht]. exact (Ht a b c Hab Hbc). }
      change (String.compare a c = Lt) in Hac. rewrite Hac. lia.
Qed.

End FixtureFacts.


Section TraceFacts.
Context `{Platform}.

Lemma appendsOnly_ret {A} (a : A) : appendsOnly (ret a).
Proof. intros w. exists []. simpl. now rewrite app_nil_r. Qed.

Lemma appendsOnly_throw {A} (e : exn) : appendsOnly (throw (A := A) e).
Proof. intros w. exists []. simpl. now rewrite app_nil_r. Qed.

Lemma appendsOnly_bind {A B} (m : M A) (k : A -> M B) :
  appendsOnly m -> (forall a, appendsOnly (k a)) -> appendsOnly (bind m k).
Proof.
  intros Hm Hk w. unfold bind. destruct (Hm w) as [t Ht].
  destruct (m w) as [[a|e|] w1]; simpl in *; eauto.
  destruct (Hk a w1) as [t' Ht']. exists (t ++ t'). now rewrite Ht', Ht, app_assoc.
Qed.

Lemma appendsOnly_tryCatch {A} (m : M A) (h : exn -> M A) :
  appendsOnly m -> (forall e, appendsOnly (h e)) -> appendsOnly (tryCatch m h).
Proof.
  intros Hm Hh w. unfold tryCatch. destruct (Hm w) as [t Ht].
  destruct (m w) as [[a|e|] w1]; simpl in *; eauto.
  destruct (Hh e w1) as [t' Ht']. exists (t ++ t'). now rewrite Ht', Ht, app_assoc.
Qed.

Lemma appendsOnly_logCall (c : fscall) : appendsOnly (logCall c).
Proof. intros w. now exists [c]. Qed.

Lemma appendsOnly_fromDisk {A} (r : errno + A) : appendsOnly (fromDisk r).
Proof. destruct r; [apply appendsOnly_throw | apply appendsOnly_ret]. Qed.

Lemma appendsOnly_fs_readdir (p : string) : appendsOnly (fs_readdir p).
Proof.
  apply appendsOnly_bind; [apply appendsOnly_logCall | intros _; apply appendsOnly_fromDisk].
Qed.

Lemma appendsOnly_fs_readFile (p : string) : appendsOnly (fs_readFile p).
Proof.
  apply appendsOnly_bind; [apply appendsOnly_logCall | intros _; apply appendsOnly_fromDisk].
Qed.

Lemma appendsOnly_mapM {A B} (f : A -> M B) (xs : list A) :
  (forall x, appendsOnly (f x)) -> appendsOnly (mapM f xs).
Proof.
  intros Hf. induction xs as [|x xs IH]; [apply appendsOnly_ret|].
  rewrite mapM_cons. apply appendsOnly_bind; [apply Hf|]. intros y.
  apply appendsOnly_bind; [exact IH|]. intros ys. apply appendsOnly_ret.
Qed.

Lemma appendsOnly_listEntry (slug : list string) (target : string) (entry : Dirent) :
  appendsOnly (listEntry slug target entry).
Proof.
  unfold listEntry. destruct (Js.startsWith _ _); [apply appendsOnly_ret|].
  destruct (isDirectory _).
  - apply appendsOnly_bind; [apply appendsOnly_fs_readdir | intros; apply appendsOnly_ret].
  - destruct (negb _); [apply appendsOnly_ret|].
    apply appendsOnly_bind; [apply appendsOnly_fs_readFile|]. intros source.
    destruct (matter source) as [[data content]|];
      [apply appendsOnly_ret | apply appendsOnly_throw].
Qed.

Lemma logCall_first {A B} (c : fscall) (k1 : unit -> M A) (h : exn -> M A)
      (k2 : A -> M B) (w : world) :
  (forall u, appendsOnly (k1 u)) -> (forall e, appendsOnly (h e)) ->
  (forall a, appendsOnly (k2 a)) ->
  exists t, trace (snd (bind (tryCatch (bind (logCall c) k1) h) k2 w)) = trace w ++ c :: t.
Proof.
  intros H1 Hh H2.
  assert (Hstep : bind (tryCatch (bind (logCall c) k1) h) k2 w
                  = bind (tryCatch (k1 tt) h) k2 (World (sets w) (trace w ++ [c])))
    by reflexivity.
  rewrite Hstep.
  destruct (appendsOnly_bind _ _ (appendsOnly_tryCatch _ _ (H1 tt) Hh) H2
                             (World (sets w) (trace w ++ [c]))) as [t Ht].
  exists t. rewrite Ht. simpl. now rewrite <- app_assoc.
Qed.

(** Whatever the slug, the first thing [getChildNodes] does is to ask the
    disk about the joined path. *)
Lemma getChildNodes_stats_first (slug : list string) (w : world) :
  exists t,
    trace (snd (getChildNodes slug w))
    = trace w ++ Stat (Path.join (CONTENT_ROOT :: slug)) :: t.
Proof.
  unfold getChildNodes, fs_stat. apply logCall_first.
  - intros _. apply appendsOnly_fromDisk.
  - intros e. apply appendsOnly_throw.
  - intros stat. destruct (negb _); [apply appendsOnly_throw|].
    apply appendsOnly_bind; [apply appendsOnly_fs_readdir|]. intros entries.
    apply appendsOnly_bind; [apply appendsOnly_mapM, appendsOnly_listEntry|].
    intros items. apply appendsOnly_ret.
Qed.

(** [assertSafeSlug] looks at its argument only. *)
Lemma assertSafeSlug_pure (slug : list string) (w : world) :
  assertSafeSlug slug w = (fst (assertSafeSlug slug emptyWorld), w).
Proof.
  unfold assertSafeSlug. destruct (negb _); [reflexivity|].
  induction slug as [|segment slug IH]; [reflexivity|].
  simpl. unfold bind. destruct (unsafeSegment segment); [reflexivity|].
  simpl. exact IH.
Qed.

Lemma readMdxFile_outcome (slug : list string) (w : world) :
  fst (readMdxFile slug w) = fst (readMdxFile slug emptyWorld).
Proof.
  unfold readMdxFile, bind. rewrite (assertSafeSlug_pure slug w).
  rewrite (assertSafeSlug_pure slug emptyWorld). simpl.
  destruct (fst (assertSafeSlug slug emptyWorld)) as [[]|e|]; try reflexivity.
  unfold fs_readFile, bind, logCall, fromDisk.
  destruct (resolve disk _) as [code|[content|raw|]]; reflexivity.
Qed.

Lemma readMdxFile_source (slug : list string) (w w' : world) (r : string * string) :
  readMdxFile slug w = (Return r, w') -> documentSource slug = Some (fst r).
Proof.
  intros Hr. unfold documentSource. rewrite <- (readMdxFile_outcome slug w), Hr.
  reflexivity.
Qed.

End TraceFacts.

Section IndexFacts.
Context `{Platform}.

Lemma DocNode_induction (P : DocNode -> Prop) :
  (forall t n s p, P (mkDocNode t n s p None)) ->
  (forall t n s p ch, Forall P ch -> P (mkDocNode t n s p (Some ch))) ->
  forall node, P node.
Proof.
  intros Hleaf Hnode. fix IH 1. intros [t n s p [ch|]]; [apply Hnode | apply Hleaf].
  induction ch as [|c ch IHch]; constructor; [apply IH | exact IHch].
Qed.

Lemma visit_indexedFrom (node : DocNode) :
  forall w w' es, visit node w = (Return es, w') -> Forall indexedFrom es.
Proof.
  induction node as [t n s p|t n s p ch IH] using DocNode_induction; intros w w' es Hv.
  - destruct t; simpl in Hv.
    + apply bind_Return_inv in Hv as (r & w1 & Hr & Hv).
      destruct (matter (fst r)) as [[data content]|] eqn:Hm; [|discriminate].
      apply ret_Return_inv in Hv as [<- _]. constructor; [|constructor].
      exists (fst r), data, content. simpl.
      split; [eapply readMdxFile_source; eassumption|]. auto.
    + apply ret_Return_inv in Hv as [<- _]. constructor.
  - destruct t; simpl in Hv.
    + apply bind_Return_inv in Hv as (r & w1 & Hr & Hv).
      destruct (matter (fst r)) as [[data content]|] eqn:Hm; [|discriminate].
      apply ret_Return_inv in Hv as [<- _]. constructor; [|constructor].
      exists (fst r), data, content. simpl.
      split; [eapply readMdxFile_source; eassumption|]. auto.
    + revert w w' es Hv. induction IH as [|c ch Hc _ IHch]; intros w w' es Hv.
      * apply ret_Return_inv in Hv as [<- _]. constructor.
      * apply bind_Return_inv in Hv as (es1 & w1 & H1 & Hv).
        apply bind_Return_inv in Hv as (es2 & w2 & H2 & Hv).
        apply ret_Return_inv in Hv as [<- _].
        apply List.Forall_app. split; [eapply Hc; eassumption | eapply IHch; eassumption].
Qed.

Lemma getDocsIndex_indexedFrom (fuel : nat) (w w' : world) (entries : list DocIndexEntry) :
  getDocsIndex fuel w = (Return entries, w') -> Forall indexedFrom entries.
Proof.
  unfold getDocsIndex. intros Hg.
  apply bind_Return_inv in Hg as (tree & w1 & _ & Hg).
  apply bind_Return_inv in Hg as (ess & w2 & Hmap & Hg).
  apply ret_Return_inv in Hg as [<- _].
  apply mapM_Return_inv in Hmap.
  apply List.Forall_forall. intros e He. apply sort_In in He.
  apply in_concat in He as (es & Hes & He).
  destruct (Forall2_In_r _ _ _ _ Hmap Hes) as (node & _ & w3 & w4 & Hv).
  apply visit_indexedFrom in Hv. rewrite List.Forall_forall in Hv. now apply Hv.
Qed.

End IndexFacts.

Section PathFacts.

Lemma length_append (a b : string) :
  String.length (a +:+ b) = String.length a + String.length b.
Proof. induction a as [|c a IH]; simpl; [reflexivity | now rewrite IH]. Qed.

Lemma drop_append (a b : string) (k : nat) :
  Js.drop (String.length a + k) (a +:+ b) = Js.drop k b.
Proof. induction a as [|c a IH]; simpl; [reflexivity | exact IH]. Qed.

Lemma drop_last (s : string) :
  s <> "" ->
  exists c, Js.drop (String.length s - 1) s = String c "" /\ In c (chars s).
Proof.
  induction s as [|a s IH]; [congruence|]. intros _.
  destruct s as [|b s'].
  - exists a. simpl. auto.
  - destruct IH as [c [Hd Hc]]; [discriminate|]. exists c. split.
    + simpl in *. rewrite Nat.sub_0_r in Hd. exact Hd.
    + simpl in *. tauto.
Qed.

Lemma endsWith_plain (pre name : string) :
  plainSegment name -> Js.endsWith (pre +:+ name) "/" = false.
Proof.
  intros [Hne Hsep]. unfold Js.endsWith. apply andb_false_iff. right.
  rewrite length_append. simpl String.length.
  destruct (drop_last name Hne) as [c [Hd Hc]].
  assert (Hlen : String.length name <> 0) by (destruct name; simpl; congruence).
  replace (String.length pre + String.length name - 1)
    with (String.length pre + (String.length name - 1)) by lia.
  rewrite drop_append, Hd. apply String.eqb_neq. intros [= ->]. contradiction.
Qed.

Lemma normalizeStep_entry (res : list string) (name : string) :
  entryName name -> Path.normalizeStep false res name = res ++ [name].
Proof.
  intros [[Hne _] [Hdot Hdots]]. unfold Path.normalizeStep.
  apply String.eqb_neq in Hne, Hdot, Hdots. now rewrite Hne, Hdot, Hdots.
Qed.

Lemma normalizeString_entries (l acc : list string) :
  Forall (fun s => s = "" \/ entryName s) l ->
  fold_left (Path.normalizeStep false) l acc
  = acc ++ filter (fun s => Js.truthy s = true) l.
Proof.
  intros Hl. revert acc. induction Hl as [|s l Hs _ IH]; intros acc; simpl.
  - now rewrite app_nil_r.
  - rewrite IH, filter_cons. destruct Hs as [->|Hs].
    + reflexivity.
    + rewrite (normalizeStep_entry acc s Hs).
      destruct (decide (Js.truthy s = true)) as [|Hn].
      * now rewrite <- app_assoc.
      * exfalso. apply Hn. apply truthy_true. apply Hs.
Qed.

Lemma entryName_plain (l : list string) : Forall entryName l -> Forall plainSegment l.
Proof. apply List.Forall_impl. intros s Hs. apply Hs. Qed.

Lemma split_entries (l : list string) :
  Forall entryName l -> Forall (fun s => s = "" \/ entryName s) (Js.split "/" (Js.join "/" l)).
Proof.
  intros Hl. destruct l as [|x l]; [repeat constructor|].
  rewrite split_join; [|discriminate|now apply entryName_plain].
  eapply List.Forall_impl; [|exact Hl]. auto.
Qed.

Lemma join_nonempty (l : list string) :
  l <> [] -> Forall plainSegment l -> Js.join "/" l <> "".
Proof.
  destruct l as [|x [|y l]]; [congruence| |]; intros _ Hl; inversion Hl as [|? ? [Hx _] _]; subst.
  - exact Hx.
  - rewrite join_cons by discriminate. destruct x; simpl; discriminate.
Qed.

Lemma join_snoc (l : list string) (name : string) :
  l <> [] -> Js.join "/" (l ++ [name]) = Js.join "/" l +:+ String "/"%char name.
Proof.
  induction l as [|x l IH]; [congruence|]. intros _. destruct l as [|y l].
  - reflexivity.
  - change ((x :: y :: l) ++ [name]) with (x :: ((y :: l) ++ [name])).
    rewrite (join_cons x ((y :: l) ++ [name])) by discriminate.
    rewrite IH by discriminate. rewrite (join_cons x (y :: l)) by discriminate.
    simpl. now rewrite append_assoc.
Qed.

(** Joining a directory in normal form with the name of one of its entries
    gives the path of that entry, in normal form. *)
Lemma join_child (segs : list string) (name : string) :
  Forall entryName segs -> entryName name ->
  Path.join [absolutePath segs; name] = absolutePath (segs ++ [name]).
Proof.
  intros Hsegs Hname. pose proof Hname as [[Hne Hsep] _].
  assert (Hall : Forall entryName (segs ++ [name])).
  { apply List.Forall_app. split; [exact Hsegs | now constructor]. }
  unfold Path.join, absolutePath.
  rewrite !filter_cons, filter_nil.
  destruct (decide (Js.truthy ("/" +:+ Js.join "/" segs) = true)) as [_|Hn];
    [|exfalso; apply Hn; reflexivity].
  destruct (decide (Js.truthy name = true)) as [_|Hn];
    [|exfalso; apply Hn; now apply truthy_true].
  set (joined := Js.join "/" ["/" +:+ Js.join "/" segs; name]).
  assert (Hjoined : joined = String "/"%char (Js.join "/" segs +:+ String "/"%char name)).
  { unfold joined. rewrite join_cons by discriminate. reflexivity. }
  rewrite Hjoined. clear Hjoined joined.
  set (p := String "/"%char (Js.join "/" segs +:+ String "/"%char name)).
  assert (Hp : p = String "/"%char (Js.join "/" segs +:+ "/") +:+ name).
  { unfold p. simpl. now rewrite append_assoc. }
  assert (Hend : Js.endsWith p "/" = false).
  { rewrite Hp. apply endsWith_plain. split; assumption. }
  assert (Hsegments : Path.normalizeString (Js.split "/" p) false = segs ++ [name]).
  { unfold Path.normalizeString, p. rewrite normalizeString_entries.
    - rewrite app_nil_l.
      change (segmentsOf (String "/"%char (Js.join "/" segs +:+ String "/"%char name))
              = segs ++ [name]).
      rewrite segmentsOf_slash, segmentsOf_app_sep, segmentsOf_join
        by now apply entryName_plain.
      unfold segmentsOf. rewrite split_no_sep by exact Hsep.
      rewrite filter_cons, filter_nil.
      destruct (decide (Js.truthy name = true)) as [_|Hn];
        [reflexivity | exfalso; apply Hn; now apply truthy_true].
    - change (String "/"%char (Js.join "/" segs +:+ String "/"%char name))
        with ("" +:+ String "/"%char (Js.join "/" segs +:+ String "/"%char name)).
      rewrite split_app_sep, split_app_sep. apply List.Forall_app. split.
      + repeat constructor.
      + apply List.Forall_app. split; [now apply split_entries|].
        rewrite split_no_sep by exact Hsep. constructor; [now right | constructor]. }
  assert (Hstart : Js.startsWith p "/" = true).
  { apply startsWith_spec. eexists. reflexivity. }
  assert (Hnonempty : String.eqb p "" = false) by reflexivity.
  rewrite Hnonempty. unfold Path.normalize. rewrite Hnonempty, Hstart, Hend.
  cbv zeta. simpl negb. rewrite Hsegments.
  destruct (String.eqb_spec (Js.join "/" (segs ++ [name])) "") as [He|_].
  - exfalso. revert He. apply join_nonempty; [destruct segs; discriminate|].
    now apply entryName_plain.
  - simpl. now rewrite append_nil_r.
Qed.

Lemma segmentsOf_absolutePath (segs : list string) :
  Forall entryName segs -> segmentsOf (absolutePath segs) = segs.
Proof.
  intros Hs. unfold absolutePath. simpl. rewrite segmentsOf_slash.
  apply segmentsOf_join. now apply entryName_plain.
Qed.

End PathFacts.

Section DiskTreeFacts.

Lemma fsnode_induction (P : fsnode -> Prop) :
  (forall content, P (FFile content)) ->
  P FOther ->
  (forall entries, Forall (fun e => P (snd e)) entries -> P (FDir entries)) ->
  forall node, P node.
Proof.
  intros Hfile Hother Hdir. fix IH 1.
  intros [content|entries|]; [apply Hfile | | apply Hother].
  apply Hdir. induction entries as [|[name sub] entries IHe]; constructor; [apply IH | exact IHe].
Qed.

Lemma wellFormed_dir (entries : list (string * fsnode)) :
  wellFormed (FDir entries) <->
  NoDup (map fst entries) /\
  Forall (fun e => entryName (fst e) /\ wellFormed (snd e)) entries.
Proof.
  simpl. apply and_iff_compat_l. induction entries as [|[name sub] entries IH].
  - split; [constructor | exact (fun _ => I)].
  - rewrite IH. split.
    + intros (Hn & Hs & Hr). constructor; auto.
    + intros Hall. inversion Hall as [|? ? [Hn Hs] Hr]; subst. auto.
Qed.

Lemma height_dir (entries : list (string * fsnode)) (name : string) (sub : fsnode) :
  In (name, sub) entries -> height sub < height (FDir entries).
Proof.
  simpl. induction entries as [|[n s] entries IH]; simpl; [tauto|].
  intros [[= -> ->]|Hin]; [lia|]. specialize (IH Hin). lia.
Qed.

Lemma lookupEntry_NoDup (entries : list (string * fsnode)) (name : string) (sub : fsnode) :
  NoDup (map fst entries) -> In (name, sub) entries -> lookupEntry name entries = Some sub.
Proof.
  induction entries as [|[n s] entries IH]; simpl; [tauto|].
  intros Hnd Hin. apply NoDup_cons in Hnd as [Hn Hnd].
  destruct Hin as [[= -> ->]|Hin].
  - now rewrite String.eqb_refl.
  - destruct (String.eqb_spec n name) as [->|_]; [|now apply IH].
    exfalso. apply Hn. apply list_elem_of_In. apply in_map_iff. now exists (name, sub).
Qed.

Lemma lookupEntry_In (entries : list (string * fsnode)) (name : string) (sub : fsnode) :
  lookupEntry name entries = Some sub -> In (name, sub) entries.
Proof.
  induction entries as [|[n s] entries IH]; simpl; [discriminate|].
  destruct (String.eqb_spec n name) as [->|_]; [intros [= ->]; now left | auto].
Qed.

Lemma walk_app (node : fsnode) (a b : list string) :
  walk node (a ++ b) = match walk node a with
                       | inr reached => walk reached b
                       | inl code => inl code
                       end.
Proof.
  revert node. induction a as [|seg a IH]; intros node; simpl; [reflexivity|].
  destruct node as [content|entries|]; try reflexivity.
  destruct (lookupEntry seg entries); [apply IH | reflexivity].
Qed.

Lemma walk_wellFormed (segs : list string) :
  forall node reached,
    wellFormed node -> walk node segs = inr reached -> wellFormed reached.
Proof.
  induction segs as [|seg segs IH]; intros node reached Hw; simpl.
  - now intros [= <-].
  - destruct node as [content|entries|]; try discriminate.
    destruct (lookupEntry seg entries) as [child|] eqn:Hl; [|discriminate].
    apply IH. apply lookupEntry_In in Hl. apply wellFormed_dir in Hw as [_ Hall].
    rewrite List.Forall_forall in Hall. apply (Hall _ Hl).
Qed.

Lemma walk_child (node : fsnode) (segs : list string) (entries : list (string * fsnode))
      (name : string) (sub : fsnode) :
  walk node segs = inr (FDir entries) -> NoDup (map fst entries) ->
  In (name, sub) entries -> walk node (segs ++ [name]) = inr sub.
Proof.
  intros Hw Hnd Hin. rewrite walk_app, Hw. simpl.
  now rewrite (lookupEntry_NoDup entries name sub Hnd Hin).
Qed.

End DiskTreeFacts.

Section ReturnsFacts.

Lemma returns_ret {A} (a : A) : returns (ret a) a.
Proof. intros w. reflexivity. Qed.

Lemma returns_bind {A B} (m : M A) (k : A -> M B) (a : A) (b : B) :
  returns m a -> returns (k a) b -> returns (bind m k) b.
Proof.
  intros Hm Hk w. unfold bind. specialize (Hm w).
  destruct (m w) as [[a'|e|] w1]; simpl in Hm; try discriminate.
  injection Hm as ->. apply Hk.
Qed.

Lemma returns_mapM {A B C} (f : A -> M B) (h : C -> A) (g : C -> B) (xs : list C) :
  (forall x, In x xs -> returns (f (h x)) (g x)) ->
  returns (mapM f (map h xs)) (map g xs).
Proof.
  induction xs as [|x xs IH]; intros Hf; [apply returns_ret|].
  simpl map. rewrite mapM_cons.
  eapply returns_bind; [apply Hf; now left|].
  eapply returns_bind; [apply IH; intros y Hy; apply Hf; now right|].
  apply returns_ret.
Qed.

Lemma returns_inv {A} (m : M A) (a : A) (w : world) :
  returns m a -> exists w', m w = (Return a, w').
Proof. intros Hm. specialize (Hm w). destruct (m w) as [r w']. simpl in Hm. subst. eauto. Qed.

End ReturnsFacts.

Section CollectFacts.
Context `{Platform}.

Lemma collectEntry_Some_inv (recurse : string -> list string -> M (list DocNode))
      (dirPath : string) (ancestorSlug : list string) (entry : Dirent)
      (w w' : world) (node : DocNode) :
  collectEntry recurse dirPath ancestorSlug entry w = (Return (Some node), w') ->
  (exists name slug filePath, node = mkDocNode TFile name slug filePath None) \/
  (exists p s w1 w2 children,
      recurse p s w1 = (Return children, w2) /\ children <> [] /\
      node = mkDocNode TDirectory (d_name entry) s p (Some children)).
Proof.
  unfold collectEntry. destruct (isDirectory (d_kind entry)).
  - intros Hc. apply bind_Return_inv in Hc as (children & w1 & Hrec & Hc).
    destruct children as [|c children]; simpl in Hc.
    + apply ret_Return_inv in Hc as [[=] _].
    + apply ret_Return_inv in Hc as [[= <-] _]. right.
      eexists _, _, _, _, _. split; [exact Hrec|]. split; [discriminate | reflexivity].
  - destruct (negb (isDocumentEntry entry)); intros Hc.
    + apply ret_Return_inv in Hc as [[=] _].
    + apply ret_Return_inv in Hc as [[= <-] _]. left. eauto.
Qed.

(** Without any assumption on the disk: what [collectDocs] returns has no
    empty directory. *)
Lemma collectDocs_populated (fuel : nat) :
  forall dirPath ancestorSlug w w' nodes,
    collectDocs fuel dirPath ancestorSlug w = (Return nodes, w') ->
    Forall populated nodes.
Proof.
  induction fuel as [|fuel IH]; intros dirPath ancestorSlug w w' nodes Hc; [discriminate|].
  apply collectDocs_inv in Hc as (raw & produced & _ & Hall & ->).
  apply List.Forall_forall. intros node Hin. apply sort_In, In_compact in Hin.
  destruct (Forall2_In_r _ _ _ _ Hall Hin) as (entry & _ & w1 & w2 & Hrun).
  apply collectEntry_Some_inv in Hrun
    as [(name & slug & filePath & ->)|(p & s & w3 & w4 & children & Hrec & Hne & ->)].
  - constructor.
  - constructor; [exact Hne | eapply IH; exact Hrec].
Qed.

Lemma populated_countFiles (node : DocNode) : populated node -> 0 < countFiles node.
Proof.
  induction node as [t n s p|t n s p ch IH] using DocNode_induction; intros Hp.
  - inversion Hp; subst. simpl. lia.
  - inversion Hp as [|? ? ? ? Hne Hall]; subst; simpl.
    destruct ch as [|c ch]; [congruence|].
    apply Forall_inv in IH. apply Forall_inv in Hall. specialize (IH Hall).
    simpl. lia.
Qed.

Lemma populated_subtree (node : DocNode) :
  populated node -> Forall populated (subtree node).
Proof.
  induction node as [t n s p|t n s p ch IH] using DocNode_induction; intros Hp.
  - simpl. repeat constructor. exact Hp.
  - simpl. constructor; [exact Hp|].
    inversion Hp as [|? ? ? ? Hne Hall]; subst. clear Hp Hne.
    induction IH as [|c ch Hc _ IHch]; simpl; [constructor|].
    inversion Hall; subst. apply List.Forall_app. split; [now apply Hc | now apply IHch].
Qed.

Lemma populated_forest (nodes : list DocNode) :
  Forall populated nodes ->
  Forall (fun node => node_type node = TDirectory -> 0 < countFiles node)
         (flat_map subtree nodes).
Proof.
  induction 1 as [|node nodes Hn _ IH]; simpl; [constructor|].
  apply List.Forall_app. split; [|exact IH].
  eapply List.Forall_impl; [|apply populated_subtree; exact Hn].
  intros sub Hsub _. now apply populated_countFiles.
Qed.

Lemma treeOf_dir (entries : list (string * fsnode)) (dirPath : string)
      (ancestorSlug : list string) :
  treeOf (FDir entries) dirPath ancestorSlug
  = Js.sort byName (compact (map (entryTree dirPath ancestorSlug) entries)).
Proof. reflexivity. Qed.

Lemma returns_fs_readdir (p : string) (entries : list (string * fsnode)) :
  resolve disk p = inr (FDir entries) ->
  returns (fs_readdir p) (map direntOf entries).
Proof.
  intros Hr w. unfold fs_readdir, bind, logCall, fromDisk. now rewrite Hr.
Qed.

(** On a well-formed disk, [collectDocs] returns the tree of the directory
    it is started on, once its fuel covers the height of that directory. *)
Lemma collectDocs_treeOf (fuel : nat) :
  forall segs entries ancestorSlug,
    wellFormed disk -> Forall entryName segs ->
    walk disk segs = inr (FDir entries) -> height (FDir entries) <= fuel ->
    returns (collectDocs fuel (absolutePath segs) ancestorSlug)
            (treeOf (FDir entries) (absolutePath segs) ancestorSlug).
Proof.
  induction fuel as [|fuel IH]; intros segs entries ancestorSlug Hwf Hsegs Hwalk Hfuel.
  { simpl in Hfuel. lia. }
  assert (Hdir : wellFormed (FDir entries)) by (eapply walk_wellFormed; eassumption).
  apply wellFormed_dir in Hdir as [Hnd Hall]. rewrite List.Forall_forall in Hall.
  rewrite treeOf_dir. simpl collectDocs.
  eapply returns_bind.
  { apply returns_fs_readdir. unfold resolve.
    rewrite segmentsOf_absolutePath by assumption. exact Hwalk. }
  eapply returns_bind; [|apply returns_ret].
  apply returns_mapM. intros [name sub] Hin.
  destruct (Hall _ Hin) as [Hname _]. simpl in Hname.
  assert (Hchild : walk disk (segs ++ [name]) = inr sub) by (eapply walk_child; eassumption).
  assert (Hjoin : Path.join [absolutePath segs; name] = absolutePath (segs ++ [name]))
    by now apply join_child.
  unfold collectEntry, entryTree, direntOf. simpl fst. simpl snd. simpl d_kind. simpl d_name.
  destruct sub as [content|subEntries|]; simpl isDirectory; cbv iota.
  - unfold isDocumentEntry, baseNameOf. simpl.
    destruct (Js.endsWith name CONTENT_EXTENSION); simpl; apply returns_ret.
  - rewrite !Hjoin. eapply returns_bind.
    + apply (IH (segs ++ [name]) subEntries); try assumption.
      * apply List.Forall_app. split; [assumption | now constructor].
      * pose proof (height_dir entries name (FDir subEntries) Hin). lia.
    + cbv zeta. destruct (negb _); apply returns_ret.
  - unfold isDocumentEntry. simpl. apply returns_ret.
Qed.

Lemma sort_nil {A} (cmp : A -> A -> Z) (l : list A) : Js.sort cmp l = [] <-> l = [].
Proof.
  split; [|now intros ->]. intros Hs. destruct l as [|x l]; [reflexivity|].
  exfalso. assert (Hin : In x (Js.sort cmp (x :: l))) by (apply sort_In; now left).
  now rewrite Hs in Hin.
Qed.

Lemma containsDocument_dir (entries : list (string * fsnode)) :
  containsDocument (FDir entries)
  = existsb (fun e => match snd e with
                      | FFile _ => Js.endsWith (fst e) CONTENT_EXTENSION
                      | sub => containsDocument sub
                      end) entries.
Proof.
  simpl. induction entries as [|[name sub] entries IH]; [reflexivity|].
  simpl existsb. rewrite <- IH. destruct sub; reflexivity.
Qed.

(** A directory keeps a place in the tree exactly when a document lies
    somewhere below it. *)
Lemma treeOf_nonempty (node : fsnode) :
  forall dirPath ancestorSlug,
    treeOf node dirPath ancestorSlug <> [] <-> containsDocument node = true.
Proof.
  induction node as [content| |entries IH] using fsnode_induction;
    intros dirPath ancestorSlug; [simpl; split; congruence | simpl; split; congruence |].
  rewrite treeOf_dir, containsDocument_dir, sort_nil, existsb_exists. split.
  - intros Hne. destruct (compact _) as [|node rest] eqn:Hc; [congruence|].
    assert (Hin : In node (compact (map (entryTree dirPath ancestorSlug) entries)))
      by (rewrite Hc; now left).
    apply In_compact, in_map_iff in Hin as ([name sub] & He & Hin).
    exists (name, sub). split; [exact Hin|]. simpl.
    rewrite List.Forall_forall in IH. specialize (IH _ Hin). simpl in IH, He.
    destruct sub as [content|subEntries|]; [| |discriminate].
    + destruct (Js.endsWith name CONTENT_EXTENSION); [reflexivity | discriminate].
    + apply (IH (Path.join [dirPath; name]) (ancestorSlug ++ [name])).
      destruct (treeOf _ _ _); [discriminate | discriminate].
  - intros ([name sub] & Hin & He). simpl in He.
    rewrite List.Forall_forall in IH. specialize (IH _ Hin). simpl in IH.
    assert (Hsome : exists node, entryTree dirPath ancestorSlug (name, sub) = Some node).
    { simpl. destruct sub as [content|subEntries|]; [| |discriminate].
      - rewrite He. eauto.
      - apply (IH (Path.join [dirPath; name]) (ancestorSlug ++ [name])) in He.
        destruct (treeOf _ _ _); [congruence | simpl; eauto]. }
    destruct Hsome as [node Hnode]. intros Hc.
    assert (Hin' : In node (compact (map (entryTree dirPath ancestorSlug) entries))).
    { apply In_compact, in_map_iff. eauto. }
    now rewrite Hc in Hin'.
Qed.

(** Every directory of [treeOf] stands for a directory of the disk below
    which a document lies. *)
Lemma treeOf_directories (node : fsnode) :
  forall segs ancestorSlug,
    wellFormed disk -> Forall entryName segs -> walk disk segs = inr node ->
    Forall (fun n => node_type n = TDirectory ->
                     exists sub, resolve disk (node_filePath n) = inr sub /\
                                 containsDocument sub = true)
           (flat_map subtree (treeOf node (absolutePath segs) ancestorSlug)).
Proof.
  induction node as [content| |entries IH] using fsnode_induction;
    intros segs ancestorSlug Hwf Hsegs Hwalk; [constructor | constructor |].
  assert (Hdir : wellFormed (FDir entries)) by (eapply walk_wellFormed; eassumption).
  apply wellFormed_dir in Hdir as [Hnd Hall]. rewrite List.Forall_forall in Hall, IH.
  apply List.Forall_forall. intros n Hn. apply in_flat_map in Hn as (top & Htop & Hn).
  rewrite treeOf_dir in Htop. apply sort_In, In_compact, in_map_iff in Htop
    as ([name sub] & He & Hin).
  destruct (Hall _ Hin) as [Hname _]. simpl in Hname.
  assert (Hchild : walk disk (segs ++ [name]) = inr sub) by (eapply walk_child; eassumption).
  assert (Hjoin : Path.join [absolutePath segs; name] = absolutePath (segs ++ [name]))
    by now apply join_child.
  assert (Hsegs' : Forall entryName (segs ++ [name])).
  { apply List.Forall_app. split; [assumption | now constructor]. }
  simpl in He. destruct sub as [content|subEntries|]; [| |discriminate].
  - destruct (Js.endsWith name CONTENT_EXTENSION); [|discriminate].
    injection He as <-. simpl in Hn. destruct Hn as [<-|[]]. discriminate.
  - destruct (treeOf (FDir subEntries) _ _) as [|c children] eqn:Hch; [discriminate|].
    simpl in He. injection He as <-. simpl in Hn. destruct Hn as [<-|Hn].
    + intros _. simpl. exists (FDir subEntries). split.
      * rewrite Hjoin. unfold resolve. now rewrite segmentsOf_absolutePath.
      * apply (treeOf_nonempty (FDir subEntries) (Path.join [absolutePath segs; name])
                               (ancestorSlug ++ [name])). now rewrite Hch.
    + specialize (IH _ Hin (segs ++ [name]) (ancestorSlug ++ [name]) Hwf Hsegs' Hchild).
      cbn [snd] in IH. rewrite <- Hjoin, Hch in IH. rewrite List.Forall_forall in IH.
      apply IH. exact Hn.
Qed.

End CollectFacts.

Section HeapFacts.
Context `{Platform}.

Lemma readMdxFile_sets (slug : list string) (w : world) :
  sets (snd (readMdxFile slug w)) = sets w.
Proof.
  unfold readMdxFile, bind. rewrite (assertSafeSlug_pure slug w).
  destruct (fst (assertSafeSlug slug emptyWorld)) as [[]|e|]; try reflexivity.
  unfold fs_readFile, bind, logCall, fromDisk.
  destruct (resolve disk _) as [code|[content|raw|]]; reflexivity.
Qed.

Lemma readMdxFile_terminates (slug : list string) (w : world) :
  fst (readMdxFile slug w) <> OutOfFuel.
Proof.
  rewrite readMdxFile_outcome. unfold readMdxFile, bind.
  assert (Hsafe : fst (assertSafeSlug slug emptyWorld) <> OutOfFuel).
  { unfold assertSafeSlug. destruct (negb _); [discriminate|].
    induction slug as [|segment slug IH]; [discriminate|].
    simpl. unfold bind. destruct (unsafeSegment segment); [discriminate|]. exact IH. }
  rewrite (assertSafeSlug_pure slug emptyWorld).
  destruct (fst (assertSafeSlug slug emptyWorld)) as [[]|e|]; try discriminate; [|congruence].
  unfold fs_readFile, bind, logCall, fromDisk.
  destruct (resolve disk _) as [code|[content|raw|]]; discriminate.
Qed.

Lemma insert_fresh (cells : list (gset string)) (old new : gset string) :
  <[length cells := new]> (cells ++ [old]) = cells ++ [new].
Proof.
  rewrite insert_app_r_alt by lia. now rewrite Nat.sub_diag.
Qed.

Lemma lookup_fresh (cells : list (gset string)) (v : gset string) :
  (cells ++ [v]) !! length cells = Some v.
Proof. now rewrite list_lookup_middle. Qed.

(** [compileMdx], step by step. *)
Lemma compileMdx_unfold (slug : list string) (l : loc) (w : world) :
  let key := Js.join "/" slug in
  compileMdx slug l w =
  if bool_decide (key ∈ valueAt w l) then (Throw (CircularInclude key), w)
  else
    let w1 := World (<[l := {[key]} ∪ valueAt w l]> (sets w)) (trace w) in
    match readMdxFile slug w1 with
    | (Return r, w2) =>
        let w3 := World (sets w2 ++ [valueAt w2 l]) (trace w2) in
        match compileMDX (fst r) with
        | Some (nodes, fm) =>
            (Return (mkRenderedMdx (map (bindComponents (length (sets w2))) nodes) fm), w3)
        | None => (Throw MdxCompileError, w3)
        end
    | (Throw (Errno ENOENT), w2) => (Throw NextNotFound, w2)
    | (Throw e, w2) => (Throw e, w2)
    | (OutOfFuel, w2) => (OutOfFuel, w2)
    end.
Proof.
  intros key. unfold compileMdx, valueAt. fold key.
  unfold bind, setHas, bind, readSet, ret, setAdd, tryCatch, copySet, bind, readSet, newSet.
  destruct (bool_decide _); [reflexivity|]. simpl.
  destruct (readMdxFile slug _) as [[r|e|] w2]; simpl; [| |reflexivity].
  - destruct (compileMDX (fst r)) as [[nodes fm]|]; reflexivity.
  - destruct e as [| | | | | |[]| | |]; reflexivity.
Qed.

(** [compileMdx] on a set object that was just allocated: the objects that
    existed before the allocation are left as they were. *)
Lemma compileMdx_fresh (slug : list string) (cells : list (gset string))
      (V : gset string) (t : list fscall) :
  let w := World (cells ++ [V]) t in
  let l := length cells in
  let key := Js.join "/" slug in
  exists w',
    cells `prefix_of` sets w' /\
    if bool_decide (key ∈ V) then compileMdx slug l w = (Throw (CircularInclude key), w')
    else match loadDocument slug with
         | inl e => compileMdx slug l w = (Throw e, w')
         | inr (nodes, fm) =>
             compileMdx slug l w
             = (Return (mkRenderedMdx (map (bindComponents (S l)) nodes) fm), w') /\
             sets w' = cells ++ [{[key]} ∪ V; {[key]} ∪ V]
         end.
Proof.
  intros w l key. subst w l. rewrite compileMdx_unfold. fold key.
  assert (Hv : valueAt (World (cells ++ [V]) t) (length cells) = V).
  { unfold valueAt. simpl. now rewrite lookup_fresh. }
  rewrite Hv. destruct (bool_decide (key ∈ V)) eqn:Hseen.
  { eexists. split; [|reflexivity]. now apply prefix_app_r. }
  cbv zeta. simpl sets. simpl trace. rewrite insert_fresh.
  set (w1 := World (cells ++ [{[key]} ∪ V]) t).
  pose proof (readMdxFile_outcome slug w1) as Hout.
  pose proof (readMdxFile_sets slug w1) as Hsets.
  pose proof (readMdxFile_terminates slug w1) as Hterm.
  unfold loadDocument. rewrite <- Hout.
  destruct (readMdxFile slug w1) as [[r|e|] w2]; simpl in Hsets, Hterm |- *;
    [| |congruence].
  - assert (Hv2 : valueAt w2 (length cells) = {[key]} ∪ V).
    { unfold valueAt. rewrite Hsets. simpl. now rewrite lookup_fresh. }
    rewrite Hv2, Hsets. rewrite length_app. simpl length.
    replace (length cells + 1) with (S (length cells)) by lia.
    destruct (compileMDX (fst r)) as [[nodes fm]|].
    + eexists. split; [|split; [reflexivity|]]; simpl.
      * rewrite <- app_assoc. now apply prefix_app_r.
      * now rewrite <- app_assoc.
    + eexists. split; [|reflexivity]. simpl. rewrite <- app_assoc. now apply prefix_app_r.
  - assert (Hw2 : cells `prefix_of` sets w2) by (rewrite Hsets; now apply prefix_app_r).
    destruct e as [| | | | | |[]| | |]; (eexists; split; [|reflexivity]; exact Hw2).
Qed.

End HeapFacts.

Section RenderFacts.
Context `{Platform}.

Lemma Include_spec (l : loc) (slugAttr : string) (w : world) :
  let slug := parseSlug slugAttr in
  let key := Js.join "/" slug in
  let V := valueAt w l in
  exists w',
    sets w `prefix_of` sets w' /\
    match slug with
    | [] => Include l slugAttr w = (Throw EmptyInclude, w')
    | _ :: _ =>
        if bool_decide (key ∈ V)
        then Include l slugAttr w = (Throw (CircularInclude key), w')
        else match loadDocument slug with
             | inl e => Include l slugAttr w = (Throw e, w')
             | inr (nodes, fm) =>
                 Include l slugAttr w
                 = (Return (map (bindComponents (S (length (sets w)))) nodes), w') /\
                 sets w' = sets w ++ [{[key]} ∪ V; {[key]} ∪ V]
             end
    end.
Proof.
  intros slug key V. subst key. unfold Include. fold slug.
  destruct (compileMdx_fresh slug (sets w) V (trace w)) as [w' [Hprefix Hrun]].
  cbv zeta in Hrun. clearbody slug.
  destruct slug as [|segment segments].
  { exists w. split; reflexivity. }
  set (slug := segment :: segments) in *.
  exists w'. split; [exact Hprefix|].
  assert (Hinclude :
            (if negb (0 <? length slug)%nat then throw EmptyInclude
             else fresh <- copySet l ;; r <- compileMdx slug fresh ;; ret (rm_content r)) w
            = match compileMdx slug (length (sets w)) (World (sets w ++ [V]) (trace w)) with
              | (Return r, w0) => (Return (rm_content r), w0)
              | (Throw e, w0) => (Throw e, w0)
              | (OutOfFuel, w0) => (OutOfFuel, w0)
              end).
  { change (negb (0 <? length slug)%nat) with false. cbv iota.
    unfold bind at 1, copySet, bind at 1, readSet, ret, newSet.
    change (default ∅ (sets w !! l)) with V. unfold bind.
    destruct (compileMdx _ _ _) as [[r|e|] w0]; reflexivity. }
  rewrite Hinclude.
  destruct (bool_decide (Js.join "/" slug ∈ V)); cbv iota in Hrun.
  - now rewrite Hrun.
  - destruct (loadDocument slug) as [e|[nodes fm]]; cbv iota beta in Hrun.
    + now rewrite Hrun.
    + destruct Hrun as [Hrun Hsets]. split; [|exact Hsets]. now rewrite Hrun.
Qed.

Lemma renderMdx_spec (slug : list string) (w : world) :
  let key := Js.join "/" slug in
  exists w',
    sets w `prefix_of` sets w' /\
    match loadDocument slug with
    | inl e => renderMdx slug w = (Throw e, w')
    | inr (nodes, fm) =>
        renderMdx slug w
        = (Return (mkRenderedMdx (map (bindComponents (S (length (sets w)))) nodes) fm), w') /\
        sets w' = sets w ++ [{[key]}; {[key]}]
    end.
Proof.
  intros key.
  assert (Hstep : renderMdx slug w
                  = compileMdx slug (length (sets w)) (World (sets w ++ [∅]) (trace w)))
    by reflexivity.
  rewrite Hstep.
  destruct (compileMdx_fresh slug (sets w) ∅ (trace w)) as [w' [Hprefix Hrun]].
  cbv zeta in Hrun. fold key in Hrun. exists w'. split; [exact Hprefix|].
  revert Hrun. case_bool_decide as Hk; [set_solver|]. intros Hrun.
  assert (Hunion : {[key]} ∪ (∅ : gset string) = {[key]}) by set_solver.
  rewrite Hunion in Hrun. exact Hrun.
Qed.

Lemma render_nil (fuel : nat) : render (S fuel) [] = ret (mkRendered [] []).
Proof. reflexivity. Qed.

Lemma render_text (fuel : nat) (text : string) (rest : list element) :
  render (S fuel) (ElText text :: rest)
  = (r <- render (S fuel) rest ;; ret (mkRendered (text :: r_text r) (r_errors r))).
Proof. reflexivity. Qed.

Lemma render_include (fuel : nat) (l : loc) (slugAttr : string) (rest : list element) :
  render (S fuel) (ElInclude l slugAttr :: rest)
  = (c <- attempt (Include l slugAttr) ;;
     here <- match c with
             | inl e => ret (mkRendered [] [e])
             | inr content => render fuel content
             end ;;
     r <- render (S fuel) rest ;;
     ret (mkRendered (r_text here ++ r_text r) (r_errors here ++ r_errors r))).
Proof. reflexivity. Qed.

Lemma render_text_run (fuel : nat) (text : string) (rest : list element)
      (w w' : world) (r : rendered) :
  render (S fuel) rest w = (Return r, w') ->
  render (S fuel) (ElText text :: rest) w
  = (Return (mkRendered (text :: r_text r) (r_errors r)), w').
Proof. intros Hr. rewrite render_text. unfold bind. now rewrite Hr. Qed.

Lemma render_include_throw (fuel : nat) (l : loc) (slugAttr : string) (rest : list element)
      (w w1 w2 : world) (e : exn) (r : rendered) :
  Include l slugAttr w = (Throw e, w1) ->
  render (S fuel) rest w1 = (Return r, w2) ->
  render (S fuel) (ElInclude l slugAttr :: rest) w
  = (Return (mkRendered (r_text r) (e :: r_errors r)), w2).
Proof.
  intros Hi Hr. rewrite render_include. unfold bind, attempt. rewrite Hi.
  cbv beta iota. unfold ret. now rewrite Hr.
Qed.

Lemma render_include_return (fuel : nat) (l : loc) (slugAttr : string) (rest : list element)
      (w w1 w2 w3 : world) (content : list element) (here r : rendered) :
  Include l slugAttr w = (Return content, w1) ->
  render fuel content w1 = (Return here, w2) ->
  render (S fuel) rest w2 = (Return r, w3) ->
  render (S fuel) (ElInclude l slugAttr :: rest) w
  = (Return (mkRendered (r_text here ++ r_text r) (r_errors here ++ r_errors r)), w3).
Proof.
  intros Hi Hh Hr. rewrite render_include. unfold bind, attempt. rewrite Hi.
  cbv beta iota. rewrite Hh. now rewrite Hr.
Qed.

Lemma render_include_inv (fuel : nat) (l : loc) (slugAttr : string) (rest : list element)
      (w w' : world) (out : rendered) :
  render (S fuel) (ElInclude l slugAttr :: rest) w = (Return out, w') ->
  (exists e w1 r,
      Include l slugAttr w = (Throw e, w1) /\
      render (S fuel) rest w1 = (Return r, w') /\
      out = mkRendered (r_text r) (e :: r_errors r)) \/
  (exists content w1 here w2 r,
      Include l slugAttr w = (Return content, w1) /\
      render fuel content w1 = (Return here, w2) /\
      render (S fuel) rest w2 = (Return r, w') /\
      out = mkRendered (r_text here ++ r_text r) (r_errors here ++ r_errors r)).
Proof.
  rewrite render_include. intros Hr.
  apply bind_Return_inv in Hr as (c & w1 & Hc & Hr).
  apply bind_Return_inv in Hr as (here & w2 & Hh & Hr).
  apply bind_Return_inv in Hr as (r & w3 & Hrest & Hr).
  apply ret_Return_inv in Hr as [<- <-].
  unfold attempt in Hc. destruct (Include l slugAttr w) as [[content|e|] w0]; try discriminate;
    injection Hc as <- <-.
  - right. eexists _, _, _, _, _. eauto.
  - left. apply ret_Return_inv in Hh as [<- <-]. eexists _, _, _. eauto.
Qed.

Lemma render_text_inv (fuel : nat) (text : string) (rest : list element)
      (w w' : world) (out : rendered) :
  render (S fuel) (ElText text :: rest) w = (Return out, w') ->
  exists r, render (S fuel) rest w = (Return r, w') /\
            out = mkRendered (text :: r_text r) (r_errors r).
Proof.
  rewrite render_text. intros Hr.
  apply bind_Return_inv in Hr as (r & w1 & Hrest & Hr).
  apply ret_Return_inv in Hr as [<- <-]. eauto.
Qed.

(** An include only allocates: the set objects that exist are never
    written to. *)
Lemma Include_prefix (l : loc) (slugAttr : string) (w w1 : world)
      (r : outcome (list element)) :
  Include l slugAttr w = (r, w1) -> sets w `prefix_of` sets w1.
Proof.
  intros Hrun. destruct (Include_spec l slugAttr w) as [w' [Hp Hi]].
  assert (Hw : snd (Include l slugAttr w) = w').
  { destruct (parseSlug slugAttr); [now rewrite Hi|].
    destruct (bool_decide _); [now rewrite Hi|].
    destruct (loadDocument _) as [e|[nodes fm]]; [now rewrite Hi|].
    destruct Hi as [Hi _]. now rewrite Hi. }
  rewrite Hrun in Hw. simpl in Hw. now subst.
Qed.

Lemma render_prefix (fuel : nat) :
  forall els w out w',
    render fuel els w = (Return out, w') -> sets w `prefix_of` sets w'.
Proof.
  induction fuel as [|fuel IH]; intros els; [discriminate|].
  induction els as [|[text|l slugAttr] rest IHrest]; intros w out w' Hr.
  - rewrite render_nil in Hr. apply ret_Return_inv in Hr as [_ <-]. reflexivity.
  - apply render_text_inv in Hr as (r & Hrest & _). eapply IHrest; eassumption.
  - apply render_include_inv in Hr
      as [(e & w1 & r & Hi & Hrest & _)|(content & w1 & here & w2 & r & Hi & Hh & Hrest & _)].
    + etrans; [eapply Include_prefix; eassumption|]. eapply IHrest; eassumption.
    + etrans; [eapply Include_prefix; eassumption|].
      etrans; [eapply IH; eassumption|]. eapply IHrest; eassumption.
Qed.

End RenderFacts.

Section ComposeFacts.
Context `{Platform}.

Lemma allContents_dir (entries : list (string * fsnode)) :
  allContents (FDir entries) = flat_map (fun e => allContents (snd e)) entries.
Proof.
  simpl. induction entries as [|[name sub] entries IH]; [reflexivity|].
  simpl. now rewrite IH.
Qed.

Lemma walk_contents (segs : list string) :
  forall node content, walk node segs = inr (FFile content) -> In content (allContents node).
Proof.
  induction segs as [|seg segs IH]; intros node content; simpl.
  - intros [= ->]. now left.
  - destruct node as [c|entries|]; try discriminate.
    destruct (lookupEntry seg entries) as [child|] eqn:Hl; [|discriminate].
    intros Hw. rewrite allContents_dir. apply in_flat_map.
    exists (seg, child). split; [now apply lookupEntry_In | now apply IH].
Qed.

Lemma readMdxFile_contents (slug : list string) (w w' : world) (r : string * string) :
  readMdxFile slug w = (Return r, w') -> In (fst r) (allContents disk).
Proof.
  unfold readMdxFile. intros Hr.
  apply bind_Return_inv in Hr as (u & w1 & _ & Hr).
  apply bind_Return_inv in Hr as (source & w2 & Hread & Hr).
  apply ret_Return_inv in Hr as [<- _]. simpl.
  apply fs_readFile_inv in Hread. eapply walk_contents. exact Hread.
Qed.

(** The documents [compileMdx] can load name their includes within
    [allKeys]. *)
Lemma loadDocument_keys (slug : list string) (nodes : list mdxnode)
      (fm : gmap string fmvalue) (slugAttr : string) :
  loadDocument slug = inr (nodes, fm) -> In (MdxInclude slugAttr) nodes ->
  slugKey (parseSlug slugAttr) ∈ allKeys.
Proof.
  unfold loadDocument. intros Hl Hin.
  destruct (readMdxFile slug emptyWorld) as [[r|e|] w'] eqn:Hr; simpl in Hl;
    [| destruct e as [| | | | | |[]| | |]; discriminate | discriminate].
  destruct (compileMDX (fst r)) as [compiled|] eqn:Hc; [|discriminate].
  injection Hl as ->. apply readMdxFile_contents in Hr.
  unfold allKeys. apply elem_of_list_to_set, list_elem_of_In, in_flat_map.
  exists (fst r). split; [exact Hr|]. rewrite Hc.
  unfold includeKeys. apply in_flat_map. exists (MdxInclude slugAttr). split; [exact Hin|].
  now left.
Qed.

Lemma allKeys_shrinks (key : string) (V : gset string) :
  key ∈ allKeys -> key ∉ V ->
  size (allKeys ∖ ({[key]} ∪ V)) < size (allKeys ∖ V).
Proof. intros Hk Hv. apply subset_size. set_solver. Qed.

Lemma boundedBy_prefix (m : nat) (w w' : world) (els : list element) :
  sets w `prefix_of` sets w' -> boundedBy m w els -> boundedBy m w' els.
Proof.
  intros Hp Hb l slugAttr Hin. destruct (Hb l slugAttr Hin) as (V & Hl & Hk & Hs).
  exists V. split; [|auto]. eapply prefix_lookup_Some; eassumption.
Qed.

Lemma boundedBy_cons (m : nat) (w : world) (el : element) (els : list element) :
  boundedBy m w (el :: els) -> boundedBy m w els.
Proof. intros Hb l slugAttr Hin. apply Hb. now right. Qed.

Lemma In_bindComponents (l l' : loc) (slugAttr : string) (nodes : list mdxnode) :
  In (ElInclude l slugAttr) (map (bindComponents l') nodes) ->
  l = l' /\ In (MdxInclude slugAttr) nodes.
Proof.
  intros Hin. apply in_map_iff in Hin as ([text|attr] & Hb & Hn); simpl in Hb;
    [discriminate|]. injection Hb as <- <-. auto.
Qed.

(** Rendering returns as soon as the fuel exceeds the number of keys the
    closures have not met yet. *)
Lemma render_terminates (fuel : nat) :
  forall m els w,
    m < fuel -> boundedBy m w els ->
    exists out w', render fuel els w = (Return out, w').
Proof.
  induction fuel as [|fuel IH]; intros m els w Hm; [lia|].
  revert w. induction els as [|[text|l slugAttr] rest IHrest]; intros w Hb.
  - eexists _, _. reflexivity.
  - destruct (IHrest w (boundedBy_cons _ _ _ _ Hb)) as (r & w' & Hr).
    eexists _, _. eapply render_text_run. exact Hr.
  - destruct (Hb l slugAttr (or_introl eq_refl)) as (V & Hl & Hk & Hs).
    assert (Hv : valueAt w l = V) by (unfold valueAt; now rewrite Hl).
    destruct (Include_spec l slugAttr w) as [w1 [Hp Hi]]. rewrite Hv in Hi.
    assert (Hrest : forall w2, sets w1 `prefix_of` sets w2 ->
                               exists r w3, render (S fuel) rest w2 = (Return r, w3)).
    { intros w2 Hp2. apply IHrest. eapply boundedBy_prefix; [|eapply boundedBy_cons; exact Hb].
      etrans; eassumption. }
    assert (Hthrow : forall e, Include l slugAttr w = (Throw e, w1) ->
              exists out w', render (S fuel) (ElInclude l slugAttr :: rest) w = (Return out, w')).
    { intros e He. destruct (Hrest w1) as (r & w3 & Hr); [reflexivity|].
      eexists _, _. eapply render_include_throw; eassumption. }
    destruct (parseSlug slugAttr) as [|segment segments] eqn:Hslug; [eapply Hthrow; exact Hi|].
    rewrite <- Hslug in *. clear Hslug segment segments.
    revert Hi. case_bool_decide as Hseen; intros Hi; [eapply Hthrow; exact Hi|].
    destruct (loadDocument (parseSlug slugAttr)) as [e|[nodes fm]] eqn:Hload;
      [eapply Hthrow; exact Hi|].
    destruct Hi as [Hi Hsets].
    pose proof (allKeys_shrinks _ _ Hk Hseen) as Hshrink.
    assert (Hcontent : boundedBy (m - 1) w1 (map (bindComponents (S (length (sets w)))) nodes)).
    { intros l' attr' Hin. apply In_bindComponents in Hin as [-> Hin].
      exists ({[Js.join "/" (parseSlug slugAttr)]} ∪ V). split; [|split].
      - rewrite Hsets. rewrite lookup_app_r by lia.
        replace (S (length (sets w)) - length (sets w)) with 1 by lia. reflexivity.
      - eapply loadDocument_keys; eassumption.
      - unfold slugKey in Hshrink. lia. }
    destruct (IH (m - 1) _ w1 ltac:(lia) Hcontent) as (here & w2 & Hhere).
    destruct (Hrest w2) as (r & w3 & Hr); [eapply render_prefix; exact Hhere|].
    eexists _, _. eapply render_include_return; eassumption.
Qed.

(** The errors thrown below an include element are among the errors of the
    whole rendering. *)
Lemma render_In (fuel : nat) (els : list element) :
  forall w out w' l slugAttr,
    render fuel els w = (Return out, w') ->
    In (ElInclude l slugAttr) els ->
    exists w1 w2,
      sets w `prefix_of` sets w1 /\
      ((exists e, Include l slugAttr w1 = (Throw e, w2) /\ In e (r_errors out)) \/
       (exists content fuel' here w3,
           fuel = S fuel' /\
           Include l slugAttr w1 = (Return content, w2) /\
           render fuel' content w2 = (Return here, w3) /\
           incl (r_errors here) (r_errors out))).
Proof.
  destruct fuel as [|fuel]; [discriminate|].
  induction els as [|[text|l0 attr0] rest IHrest]; intros w out w' l slugAttr Hr Hin.
  - destruct Hin.
  - destruct Hin as [Hin|Hin]; [discriminate|].
    apply render_text_inv in Hr as (r & Hrest & ->). simpl r_errors.
    eapply IHrest; eassumption.
  - apply render_include_inv in Hr
      as [(e & w1 & r & Hi & Hrest & ->)|(content & w1 & here & w2 & r & Hi & Hh & Hrest & ->)];
      simpl r_errors.
    + destruct Hin as [[= <- <-]|Hin].
      * exists w, w1. split; [reflexivity|]. left. exists e. split; [exact Hi | now left].
      * destruct (IHrest _ _ _ _ _ Hrest Hin) as (wa & wb & Hp & Hcase).
        exists wa, wb. split; [etrans; [eapply Include_prefix; exact Hi | exact Hp]|].
        destruct Hcase as [(e' & He' & Hin')|(c & f' & h & w3 & Hf & Hc & Hrc & Hincl)].
        -- left. exists e'. split; [exact He' | now right].
        -- right. exists c, f', h, w3. repeat split; try assumption.
           intros x Hx. right. now apply Hincl.
    + destruct Hin as [[= <- <-]|Hin].
      * exists w, w1. split; [reflexivity|]. right. exists content, fuel, here, w2.
        repeat split; try assumption. intros x Hx. apply in_or_app. now left.
      * destruct (IHrest _ _ _ _ _ Hrest Hin) as (wa & wb & Hp & Hcase).
        exists wa, wb. split.
        { etrans; [eapply Include_prefix; exact Hi|].
          etrans; [eapply render_prefix; exact Hh | exact Hp]. }
        destruct Hcase as [(e' & He' & Hin')|(c & f' & h & w3 & Hf & Hc & Hrc & Hincl)].
        -- left. exists e'. split; [exact He'|]. apply in_or_app. now right.
        -- right. exists c, f', h, w3. repeat split; try assumption.
           intros x Hx. apply in_or_app. right. now apply Hincl.
Qed.

Lemma loadDocument_nonempty (slug : list string) (compiled : list mdxnode * gmap string fmvalue) :
  loadDocument slug = inr compiled -> slug <> [].
Proof. intros Hl ->. discriminate. Qed.

Lemma loadDocument_source (slug : list string) (nodes : list mdxnode)
      (fm : gmap string fmvalue) :
  loadDocument slug = inr (nodes, fm) ->
  exists source, documentSource slug = Some source /\ compileMDX source = Some (nodes, fm).
Proof.
  unfold loadDocument, documentSource.
  destruct (fst (readMdxFile slug emptyWorld)) as [r|e|];
    [| destruct e as [| | | | | |[]| | |]; discriminate | discriminate].
  destruct (compileMDX (fst r)) as [compiled|] eqn:Hc; [|discriminate].
  intros [= ->]. eauto.
Qed.

(** [composeDocument], once the root document is known. *)
Lemma composeDocument_failed (fuel : nat) (slug : list string) (w : world) (e : exn) :
  loadDocument slug = inl e ->
  exists w', composeDocument fuel slug w = (Return (Failed [e]), w').
Proof.
  intros Hl. destruct (renderMdx_spec slug w) as [w' [_ Hrun]]. rewrite Hl in Hrun.
  exists w'. unfold composeDocument, bind, attempt. now rewrite Hrun.
Qed.

Lemma composeDocument_loaded (fuel : nat) (slug : list string) (w : world)
      (nodes : list mdxnode) (fm : gmap string fmvalue) :
  loadDocument slug = inr (nodes, fm) ->
  exists w1,
    sets w1 = sets w ++ [{[slugKey slug]}; {[slugKey slug]}] /\
    composeDocument fuel slug w
    = match render fuel (map (bindComponents (S (length (sets w)))) nodes) w1 with
      | (Return out, w2) =>
          (Return match r_errors out with
                  | [] => Composed (mkComposed slug (r_text out) fm)
                  | errors => Failed errors
                  end, w2)
      | (Throw e, w2) => (Throw e, w2)
      | (OutOfFuel, w2) => (OutOfFuel, w2)
      end.
Proof.
  intros Hl. destruct (renderMdx_spec slug w) as [w1 [_ Hrun]]. rewrite Hl in Hrun.
  destruct Hrun as [Hrun Hsets]. exists w1. split; [exact Hsets|].
  unfold composeDocument, bind, attempt. rewrite Hrun. simpl rm_content. simpl rm_frontmatter.
  destruct (render fuel _ w1) as [[out|e|] w2]; [|reflexivity|reflexivity].
  destruct (r_errors out); reflexivity.
Qed.

Lemma lookup_closure (cells : list (gset string)) (a b : gset string) :
  (cells ++ [a; b]) !! S (length cells) = Some b.
Proof.
  rewrite lookup_app_r by lia.
  replace (S (length cells) - length cells) with 1 by lia. reflexivity.
Qed.

(** Composition returns, on every disk, once the fuel exceeds the number of
    keys the includes of the disk can name. *)
Lemma composeDocument_terminates (fuel : nat) (slug : list string) (w : world) :
  size allKeys < fuel ->
  exists c w', composeDocument fuel slug w = (Return c, w').
Proof.
  intros Hfuel. destruct (loadDocument slug) as [e|[nodes fm]] eqn:Hl.
  - destruct (composeDocument_failed fuel slug w e Hl) as [w' Hrun]. eauto.
  - destruct (composeDocument_loaded fuel slug w nodes fm Hl) as (w1 & Hsets & Hrun).
    assert (Hb : boundedBy (size allKeys) w1
                   (map (bindComponents (S (length (sets w)))) nodes)).
    { intros l attr Hin. apply In_bindComponents in Hin as [-> Hin].
      exists {[slugKey slug]}. split; [rewrite Hsets; apply lookup_closure|].
      split; [eapply loadDocument_keys; eassumption|].
      apply subseteq_size. set_solver. }
    destruct (render_terminates fuel _ _ w1 Hfuel Hb) as (out & w2 & Hr).
    rewrite Hr in Hrun. eauto.
Qed.

(** A document with an include that meets an ancestor fails to compose,
    and the error of the cycle is among the errors reported. *)
Lemma composeDocument_reports (fuel : nat) (slug : list string) (w : world)
      (nodes : list mdxnode) (fm : gmap string fmvalue) (e : exn) :
  size allKeys < fuel ->
  loadDocument slug = inr (nodes, fm) ->
  (forall l w1 out w2,
      sets w1 !! l = Some {[slugKey slug]} ->
      render fuel (map (bindComponents l) nodes) w1 = (Return out, w2) ->
      In e (r_errors out)) ->
  exists errors w', composeDocument fuel slug w = (Return (Failed errors), w') /\
                    In e errors.
Proof.
  intros Hfuel Hl Herr.
  destruct (composeDocument_terminates fuel slug w Hfuel) as (c & w' & Hc).
  destruct (composeDocument_loaded fuel slug w nodes fm Hl) as (w1 & Hsets & Hrun).
  rewrite Hc in Hrun.
  destruct (render fuel _ w1) as [[out|e'|] w2] eqn:Hr; try discriminate.
  injection Hrun as -> ->.
  assert (Hin : In e (r_errors out)).
  { eapply Herr; [|exact Hr]. rewrite Hsets. apply lookup_closure. }
  exists (r_errors out), w2. split; [|exact Hin].
  rewrite Hc. destruct (r_errors out); [destruct Hin | reflexivity].
Qed.

(** An include whose slug is among the ancestors throws the error of the
    cycle, in every world where the closure's set is unchanged. *)
Lemma Include_circular (l : loc) (slugAttr : string) (w w' : world) (V : gset string)
      (r : outcome (list element)) :
  sets w !! l = Some V -> parseSlug slugAttr <> [] ->
  slugKey (parseSlug slugAttr) ∈ V ->
  Include l slugAttr w = (r, w') ->
  r = Throw (CircularInclude (slugKey (parseSlug slugAttr))).
Proof.
  intros Hl Hne Hin Hrun. destruct (Include_spec l slugAttr w) as [w1 [_ Hi]].
  assert (Hv : valueAt w l = V) by (unfold valueAt; now rewrite Hl).
  rewrite Hv in Hi. destruct (parseSlug slugAttr) as [|segment segments] eqn:Hs; [congruence|].
  revert Hi. unfold slugKey in Hin. case_bool_decide; [|contradiction].
  intros Hi. rewrite Hi in Hrun. now injection Hrun as <- _.
Qed.

Lemma Include_loaded (l : loc) (slugAttr : string) (w w' : world) (V : gset string)
      (nodes : list mdxnode) (fm : gmap string fmvalue) (r : outcome (list element)) :
  sets w !! l = Some V -> parseSlug slugAttr <> [] ->
  slugKey (parseSlug slugAttr) ∉ V ->
  loadDocument (parseSlug slugAttr) = inr (nodes, fm) ->
  Include l slugAttr w = (r, w') ->
  r = Return (map (bindComponents (S (length (sets w)))) nodes) /\
  sets w' !! S (length (sets w)) = Some ({[slugKey (parseSlug slugAttr)]} ∪ V).
Proof.
  intros Hl Hne Hin Hload Hrun. destruct (Include_spec l slugAttr w) as [w1 [_ Hi]].
  assert (Hv : valueAt w l = V) by (unfold valueAt; now rewrite Hl).
  rewrite Hv in Hi. rewrite Hload in Hi.
  destruct (parseSlug slugAttr) as [|segment segments] eqn:Hs; [congruence|].
  revert Hi. unfold slugKey in *. case_bool_decide; [contradiction|].
  intros [Hi Hsets]. rewrite Hi in Hrun. injection Hrun as <- <-.
  split; [reflexivity|]. rewrite Hsets. apply lookup_closure.
Qed.

(** When every include resolves, the rendering is the expected text and no
    error is reported. *)
Lemma render_expands (V : gset string) (nodes : list mdxnode) (body : list string) :
  expands V nodes body ->
  forall fuel l w out w',
    sets w !! l = Some V ->
    render fuel (map (bindComponents l) nodes) w = (Return out, w') ->
    out = mkRendered body [].
Proof.
  induction 1 as [V|V text rest body _ IH|V slugAttr rest nodes fm inner body
                    Hne Hfresh Hload _ IHinner _ IHrest];
    intros fuel l w out w' Hl Hr; (destruct fuel as [|fuel]; [discriminate|]).
  - rewrite render_nil in Hr. now apply ret_Return_inv in Hr as [<- _].
  - simpl map in Hr. apply render_text_inv in Hr as (r & Hrest & ->).
    now rewrite (IH _ _ _ _ _ Hl Hrest).
  - simpl map in Hr. apply render_include_inv in Hr
      as [(e & w1 & r & Hi & Hrest & ->)|(content & w1 & here & w2 & r & Hi & Hh & Hrest & ->)].
    + destruct (Include_loaded _ _ _ _ _ _ _ _ Hl Hne Hfresh Hload Hi) as [Hbad _].
      discriminate.
    + destruct (Include_loaded _ _ _ _ _ _ _ _ Hl Hne Hfresh Hload Hi) as [[= ->] Hl'].
      rewrite (IHinner _ _ _ _ _ Hl' Hh).
      assert (Hl2 : sets w2 !! l = Some V).
      { eapply prefix_lookup_Some; [exact Hl|].
        etrans; [eapply Include_prefix; exact Hi | eapply render_prefix; exact Hh]. }
      rewrite (IHrest _ _ _ _ _ Hl2 Hrest). reflexivity.
Qed.

Lemma composeDocument_expands (fuel : nat) (slug : list string) (w : world)
      (nodes : list mdxnode) (fm : gmap string fmvalue) (body : list string) :
  size allKeys < fuel ->
  loadDocument slug = inr (nodes, fm) ->
  expands {[slugKey slug]} nodes body ->
  exists w', composeDocument fuel slug w = (Return (Composed (mkComposed slug body fm)), w').
Proof.
  intros Hfuel Hl Hexp.
  destruct (composeDocument_terminates fuel slug w Hfuel) as (c & w' & Hc).
  destruct (composeDocument_loaded fuel slug w nodes fm Hl) as (w1 & Hsets & Hrun).
  rewrite Hc in Hrun.
  destruct (render fuel _ w1) as [[out|e'|] w2] eqn:Hr; try discriminate.
  injection Hrun as -> ->.
  assert (Hout : out = mkRendered body []).
  { eapply render_expands; [exact Hexp| |exact Hr]. rewrite Hsets. apply lookup_closure. }
  subst out. exists w2. exact Hc.
Qed.

Lemma expands_app (V : gset string) (a b : list mdxnode) (bodyA bodyB : list string) :
  expands V a bodyA -> expands V b bodyB -> expands V (a ++ b) (bodyA ++ bodyB).
Proof.
  induction 1 as [V|V text rest body _ IH|V slugAttr rest nodes fm inner body
                    Hne Hfresh Hload Hinner _ _ IHrest]; intros Hb; simpl.
  - exact Hb.
  - constructor. now apply IH.
  - rewrite <- app_assoc. econstructor; eauto.
Qed.

Lemma expands_same_slug (V : gset string) (b1 b2 : string) (body : list string) :
  parseSlug b2 = parseSlug b1 ->
  expands V [MdxInclude b1] body -> expands V [MdxInclude b2] body.
Proof.
  intros Hs He. inversion He as [| |? ? ? nodes fm inner rest Hne Hfresh Hload Hinner Hrest];
    subst. rewrite <- Hs in *. econstructor; eassumption.
Qed.

End ComposeFacts.

(** * Further facts

    Strings: segments, trimming, capitalisation. *)

Section MoreStringFacts.

Lemma split_parts (sep : ascii) (s : string) :
  Forall (fun part => ~ In sep (chars part)) (Js.split sep s).
Proof.
  induction s as [|c rest IH]; simpl.
  - constructor; [intros []|constructor].
  - destruct (Ascii.eqb_spec c sep) as [->|Hne].
    + constructor; [intros []|exact IH].
    + destruct (Js.split sep rest) as [|hd tl]; inversion IH; subst.
      * constructor; [|constructor]. simpl. intros [?|[]]. congruence.
      * constructor; [|assumption]. simpl. intros [?|?]; [congruence|contradiction].
Qed.

Lemma trim_chars (s : string) (c : ascii) :
  In c (chars (Js.trim s)) -> In c (chars s).
Proof. unfold Js.trim. intros Hin. apply trimStart_chars, trimEnd_chars, Hin. Qed.

Lemma trim_noLeadingSpace (s : string) : noLeadingSpace (Js.trim s).
Proof. apply trimEnd_noLeadingSpace, trimStart_noLeadingSpace. Qed.

Lemma trim_noTrailingSpace (s : string) : noTrailingSpace (Js.trim s).
Proof. apply trimEnd_noTrailingSpace. Qed.

Ltac each_char c := destruct c as [[] [] [] [] [] [] [] []].

Lemma capitalizeChar_facts (b : bool) (c : ascii) :
  Js.isWord (capitalizeChar b c) = Js.isWord c /\
  Js.isSpace (capitalizeChar b c) = Js.isSpace c /\
  (Js.isSpace c = true -> capitalizeChar b c = c /\ Js.isWord c = false) /\
  (b = false -> Js.isLower (capitalizeChar b c) = false) /\
  (capitalizeChar b c = "-"%char -> c = "-"%char) /\
  (capitalizeChar b c = "_"%char -> c = "_"%char).
Proof.
  each_char c; destruct b; vm_compute; repeat split; intros; congruence.
Qed.

Lemma capitalizeWords_cons (b : bool) (c : ascii) (s : string) :
  capitalizeWords b (String c s)
  = String (capitalizeChar b c) (capitalizeWords (Js.isWord c) s).
Proof. reflexivity. Qed.

Lemma capitalizeWords_chars (s : string) :
  forall b d, In d (chars (capitalizeWords b s)) ->
              exists b' c, In c (chars s) /\ d = capitalizeChar b' c.
Proof.
  induction s as [|c s IH]; intros b d; [intros []|].
  rewrite capitalizeWords_cons. intros [<-|Hin].
  - exists b, c. split; [now left|reflexivity].
  - destruct (IH _ _ Hin) as (b' & c' & Hc & ->). exists b', c'. split; [now right|reflexivity].
Qed.

Lemma capitalizeWords_singleSpaced (s : string) :
  forall b, singleSpaced s -> singleSpaced (capitalizeWords b s).
Proof.
  induction s as [|a s IH]; intros b Hs; [exact I|].
  rewrite capitalizeWords_cons. destruct Hs as [Ha Hs]. split; [|now apply IH].
  destruct (capitalizeChar_facts b a) as (_ & Hsp & Hid & _).
  rewrite Hsp. intros Hspace. destruct (Ha Hspace) as [-> Hnext].
  destruct (Hid Hspace) as [-> _]. split; [reflexivity|].
  destruct s as [|d s']; [exact I|]. rewrite capitalizeWords_cons.
  destruct (capitalizeChar_facts (Js.isWord " ") d) as (_ & -> & _). exact Hnext.
Qed.

Lemma capitalizeWords_capitalized (s : string) :
  forall b, wordsCapitalized b (capitalizeWords b s).
Proof.
  induction s as [|a s IH]; intros b; [exact I|].
  rewrite capitalizeWords_cons. 
  destruct (capitalizeChar_facts b a) as (Hw & _ & _ & Hlow & _).
  split; [exact Hlow|]. rewrite Hw. apply IH.
Qed.

Lemma capitalizeWords_id (s : string) :
  forall b, wordsCapitalized b s -> capitalizeWords b s = s.
Proof.
  induction s as [|a s IH]; intros b Hs; [reflexivity|].
  rewrite capitalizeWords_cons. destruct Hs as [Ha Hs]. rewrite (IH _ Hs). f_equal.
  unfold capitalizeChar, Js.upperChar. destruct b; [now rewrite andb_false_r|].
  rewrite (Ha eq_refl). now destruct (Js.isWord a).
Qed.

Lemma trimStart_capitalized (s : string) :
  wordsCapitalized false s -> wordsCapitalized false (Js.trimStart s).
Proof.
  induction s as [|a s IH]; intros Hs; [exact I|]. simpl.
  destruct (Js.isSpace a) eqn:Hsp; [|exact Hs].
  destruct Hs as [_ Hs]. apply IH.
  destruct (capitalizeChar_facts false a) as (_ & _ & Hid & _).
  destruct (Hid Hsp) as [_ Hw]. now rewrite Hw in Hs.
Qed.

Lemma trimEnd_capitalized (s : string) :
  forall b, wordsCapitalized b s -> wordsCapitalized b (Js.trimEnd s).
Proof.
  induction s as [|a s IH]; intros b Hs; [exact I|].
  rewrite trimEnd_cons. destruct Hs as [Ha Hs]. specialize (IH _ Hs).
  destruct (Js.trimEnd s) as [|c r].
  - destruct (Js.isSpace a); [exact I|]. split; [exact Ha|exact I].
  - split; [exact Ha|exact IH].
Qed.

Lemma mapChars_chars (f : ascii -> ascii) (s : string) (d : ascii) :
  In d (chars (Js.mapChars f s)) -> exists c, In c (chars s) /\ d = f c.
Proof.
  induction s as [|c s IH]; [intros []|]. simpl. intros [<-|Hin].
  - exists c. split; [now left|reflexivity].
  - destruct (IH Hin) as (c' & Hc & ->). exists c'. split; [now right|reflexivity].
Qed.

Lemma mapChars_id (f : ascii -> ascii) (s : string) :
  (forall c, In c (chars s) -> f c = c) -> Js.mapChars f s = s.
Proof.
  induction s as [|c s IH]; intros Hf; [reflexivity|]. simpl.
  rewrite (Hf c) by now left. rewrite IH; [reflexivity|]. intros d Hd. apply Hf. now right.
Qed.

Lemma replaceRuns_id (s : string) :
  singleSpaced s -> Js.replaceRuns Js.isSpace s = s.
Proof.
  induction s as [|c s IH]; intros Hs; [reflexivity|].
  destruct Hs as [Hc Hs]. specialize (IH Hs). simpl.
  destruct (Js.isSpace c) eqn:Hsp.
  - destruct (Hc eq_refl) as [-> Hnext]. destruct s as [|d s']; [reflexivity|].
    rewrite Hnext. now rewrite IH.
  - now rewrite IH.
Qed.

Lemma trimStart_id (s : string) : noLeadingSpace s -> Js.trimStart s = s.
Proof.
  intros Hs. destruct s as [|c s]; [reflexivity|]. simpl.
  now rewrite (Hs c s eq_refl).
Qed.

Lemma trimEnd_id (s : string) : noTrailingSpace s -> Js.trimEnd s = s.
Proof.
  induction s as [|a s IH]; intros Hs; [reflexivity|].
  rewrite trimEnd_cons.
  assert (Hs' : noTrailingSpace s).
  { intros pre c ->. apply (Hs (String a pre) c). reflexivity. }
  rewrite (IH Hs'). destruct s as [|c r]; [|reflexivity].
  now rewrite (Hs "" a eq_refl).
Qed.

Lemma trim_id (s : string) : noLeadingSpace s -> noTrailingSpace s -> Js.trim s = s.
Proof. intros Hl Ht. unfold Js.trim. rewrite (trimStart_id _ Hl). now apply trimEnd_id. Qed.

Lemma trim_singleSpaced (s : string) : singleSpaced s -> singleSpaced (Js.trim s).
Proof. intros Hs. apply trimEnd_singleSpaced, trimStart_singleSpaced, Hs. Qed.

Lemma trim_capitalized (s : string) :
  wordsCapitalized false s -> wordsCapitalized false (Js.trim s).
Proof. intros Hs. apply trimEnd_capitalized, trimStart_capitalized, Hs. Qed.

Lemma segments_plain (p : string) :
  Forall plainSegment (filter (fun s => Js.truthy s = true) (Js.split "/" p)).
Proof.
  apply List.Forall_forall. intros segment Hin.
  apply list_elem_of_In, list_elem_of_filter in Hin as [Htruthy Hin].
  apply list_elem_of_In in Hin.
  pose proof (split_parts "/" p) as Hparts.
  rewrite List.Forall_forall in Hparts. split; [now apply truthy_true|now apply Hparts].
Qed.

Lemma removelast_length {A} (l : list A) : length (removelast l) = length l - 1.
Proof.
  induction l as [|x l IH]; [reflexivity|]. destruct l as [|y l]; [reflexivity|].
  change (removelast (x :: y :: l)) with (x :: removelast (y :: l)).
  simpl length in *. lia.
Qed.

Lemma activeDirectories_seq (activeSlug : list string) :
  activeDirectories activeSlug
  = map (fun k => firstn k activeSlug) (seq 1 (length activeSlug - 1)).
Proof.
  unfold activeDirectories.
  rewrite (imap_seq_0 (removelast activeSlug) (fun j => firstn (j + 1) activeSlug)).
  rewrite removelast_length, <- seq_shift, map_map.
  apply map_ext. intros k. f_equal. lia.
Qed.

Lemma join_app (a k : list string) :
  a <> [] -> k <> [] ->
  Js.join "/" (a ++ k) = Js.join "/" a +:+ String "/"%char (Js.join "/" k).
Proof.
  intros Ha Hk. induction a as [|x a IH]; [contradiction|].
  destruct a as [|y a].
  - simpl app. now rewrite join_cons.
  - change ((x :: y :: a) ++ k) with (x :: (y :: a) ++ k).
    rewrite join_cons by discriminate. rewrite IH by discriminate.
    rewrite (join_cons x (y :: a)) by discriminate.
    now rewrite append_assoc.
Qed.

Lemma append_inj_l (a b c : string) : a +:+ b = a +:+ c -> b = c.
Proof. induction a; simpl; [auto|]. intros Heq. injection Heq. auto. Qed.

Lemma join_inj (a b : list string) :
  Forall plainSegment a -> Forall plainSegment b ->
  Js.join "/" a = Js.join "/" b -> a = b.
Proof.
  intros Ha Hb Heq. apply (f_equal segmentsOf) in Heq.
  now rewrite !segmentsOf_join in Heq.
Qed.

Lemma length_take_le (n : nat) (s : string) : String.length (Js.take n s) <= n.
Proof.
  revert s. induction n as [|n IH]; intros [|c s]; simpl; try lia.
  specialize (IH s). lia.
Qed.

Lemma length_trimStart (s : string) : String.length (Js.trimStart s) <= String.length s.
Proof. induction s as [|c s IH]; simpl; [lia|]. destruct (Js.isSpace c); simpl; lia. Qed.

Lemma length_trimEnd (s : string) : String.length (Js.trimEnd s) <= String.length s.
Proof.
  induction s as [|c s IH]; [simpl; lia|]. rewrite trimEnd_cons.
  destruct (Js.trimEnd s); [destruct (Js.isSpace c)|]; simpl in *; lia.
Qed.

Lemma length_trim (s : string) : String.length (Js.trim s) <= String.length s.
Proof.
  unfold Js.trim. pose proof (length_trimEnd (Js.trimStart s)).
  pose proof (length_trimStart s). lia.
Qed.

Lemma length_replaceRuns (cls : ascii -> bool) (s : string) :
  String.length (Js.replaceRuns cls s) <= String.length s.
Proof.
  induction s as [|c s IH]; [simpl; lia|]. simpl.
  destruct (cls c); [|simpl; lia].
  destruct s as [|d s']; [simpl; lia|]. destruct (cls d); simpl in *; lia.
Qed.

Lemma length_slice (s : string) (i j : nat) : String.length (Js.slice s i j) <= j - i.
Proof. apply length_take_le. Qed.

Lemma humanizeName_shape (value : string) :
  let label := humanizeName value in
  (forall c, In c (chars label) -> c <> "-"%char /\ c <> "_"%char) /\
  singleSpaced label /\ noLeadingSpace label /\ noTrailingSpace label /\
  wordsCapitalized false label.
Proof.
  unfold humanizeName. repeat split.
  - intros ->. apply trim_chars, capitalizeWords_chars in H as (b & c & Hc & Heq).
    symmetry in Heq. apply capitalizeChar_facts in Heq as ->.
    apply replaceRuns_chars in Hc as [Hc|[Hc _]]; [discriminate|].
    apply mapChars_chars in Hc as (c' & _ & Hc'). revert Hc'.
    destruct (Ascii.eqb_spec c' "-") as [->|Hne]; [discriminate|].
    simpl. destruct (Ascii.eqb c' "_"); [discriminate|congruence].
  - intros ->. apply trim_chars, capitalizeWords_chars in H as (b & c & Hc & Heq).
    symmetry in Heq. apply capitalizeChar_facts in Heq as ->.
    apply replaceRuns_chars in Hc as [Hc|[Hc _]]; [discriminate|].
    apply mapChars_chars in Hc as (c' & _ & Hc'). revert Hc'.
    destruct (Ascii.eqb_spec c' "_") as [->|Hne]; [rewrite orb_true_r; discriminate|].
    destruct (Ascii.eqb c' "-"); [discriminate|simpl; congruence].
  - apply trim_singleSpaced, capitalizeWords_singleSpaced, replaceRuns_singleSpaced.
  - apply trim_noLeadingSpace.
  - apply trim_noTrailingSpace.
  - apply trim_capitalized, capitalizeWords_capitalized.
Qed.

End MoreStringFacts.

(** Paths of documents. *)

Section DocumentPathFacts.
Context `{Platform}.

Lemma safe_plain (s : string) :
  unsafeSegment s = false -> plainSegment s /\ s <> "..".
Proof.
  unfold unsafeSegment. rewrite !orb_false_iff, negb_false_iff.
  intros [[[Ht Hdots] Hsep] _]. split; [split|].
  - now apply truthy_true.
  - intros Hin. apply includes_char in Hin. congruence.
  - intros ->. discriminate.
Qed.

Lemma safe_entry (s : string) :
  unsafeSegment s = false -> isDot s = false -> entryName s.
Proof.
  intros Hs Hd. destruct (safe_plain s Hs) as [Hp Hn]. split; [exact Hp|split; [|exact Hn]].
  now apply String.eqb_neq.
Qed.

Lemma normalizeStep_safe (b : bool) (res : list string) (s : string) :
  unsafeSegment s = false ->
  Path.normalizeStep b res s = if isDot s then res else res ++ [s].
Proof.
  intros Hs. destruct (safe_plain s Hs) as [[Hne _] Hn]. unfold Path.normalizeStep, isDot.
  apply String.eqb_neq in Hne, Hn. rewrite Hne, Hn. simpl.
  now destruct (String.eqb s ".").
Qed.

Lemma normalizeString_safe (b : bool) (l acc : list string) :
  Forall (fun s => unsafeSegment s = false) l ->
  fold_left (Path.normalizeStep b) l acc
  = acc ++ List.filter (fun s => negb (isDot s)) l.
Proof.
  intros Hl. revert acc. induction Hl as [|s l Hs _ IH]; intros acc; simpl.
  - now rewrite app_nil_r.
  - rewrite IH, (normalizeStep_safe b acc s Hs).
    destruct (isDot s); simpl; [reflexivity|now rewrite <- app_assoc].
Qed.

Lemma join_last (l : list string) :
  l <> [] -> exists pre, Js.join "/" l = pre +:+ List.last l "".
Proof.
  induction l as [|x l IH]; [congruence|]. intros _. destruct l as [|y l].
  - exists "". reflexivity.
  - destruct IH as [pre Hpre]; [discriminate|].
    exists (x +:+ String "/"%char pre). rewrite join_cons by discriminate.
    rewrite Hpre. change (List.last (x :: y :: l) "") with (List.last (y :: l) "").
    now rewrite append_assoc.
Qed.

Lemma last_Forall {A} (P : A -> Prop) (l : list A) (d : A) :
  l <> [] -> Forall P l -> P (List.last l d).
Proof.
  induction l as [|x l IH]; [congruence|]. intros _ Hl. inversion Hl; subst.
  destruct l as [|y l]; [assumption|]. apply IH; [discriminate|assumption].
Qed.

Lemma startsWith_plain (l : list string) :
  l <> [] -> Forall plainSegment l -> Js.startsWith (Js.join "/" l) "/" = false.
Proof.
  intros Hne Hl. destruct l as [|x l]; [congruence|].
  inversion Hl as [|? ? [Hx Hsep] _]; subst.
  assert (Hhead : exists c rest tail, x = String c rest /\ c <> "/"%char /\
                                  Js.join "/" (x :: l) = String c tail).
  { destruct x as [|c rest]; [congruence|]. exists c, rest.
    destruct l as [|y l].
    - exists rest. split; [reflexivity|]. split; [|reflexivity].
      intros ->. apply Hsep. now left.
    - rewrite join_cons by discriminate. eexists. split; [reflexivity|].
      split; [|reflexivity]. intros ->. apply Hsep. now left. }
  destruct Hhead as (c & rest & tail & _ & Hc & ->). simpl.
  apply Ascii.eqb_neq in Hc. now rewrite Hc.
Qed.

(** [path.join] of the segments of a slug that passed [assertSafeSlug]. *)
Lemma join_safe (slug : list string) :
  slug <> [] -> Forall (fun s => unsafeSegment s = false) slug ->
  Path.join slug
  = match List.filter (fun s => negb (isDot s)) slug with
    | [] => "."
    | kept => Js.join "/" kept
    end.
Proof.
  intros Hne Hsafe.
  assert (Hplain : Forall plainSegment slug).
  { eapply List.Forall_impl; [|exact Hsafe]. intros s Hs. now apply safe_plain. }
  unfold Path.join. rewrite filter_truthy_plain by exact Hplain.
  pose proof (join_nonempty slug Hne Hplain) as Hjoined.
  apply String.eqb_neq in Hjoined. rewrite Hjoined.
  unfold Path.normalize. rewrite Hjoined, (startsWith_plain slug Hne Hplain).
  assert (Hend : Js.endsWith (Js.join "/" slug) "/" = false).
  { destruct (join_last slug Hne) as [pre ->]. apply endsWith_plain.
    now apply last_Forall. }
  rewrite Hend. cbv zeta. simpl negb. unfold Path.normalizeString.
  rewrite split_join by assumption. rewrite normalizeString_safe by exact Hsafe.
  rewrite app_nil_l.
  assert (Hkept : Forall plainSegment (List.filter (fun s => negb (isDot s)) slug)).
  { apply List.Forall_forall. intros s Hs. apply filter_In in Hs as [Hs _].
    rewrite List.Forall_forall in Hplain. now apply Hplain. }
  destruct (List.filter _ slug) as [|x kept] eqn:Hk; [reflexivity|].
  pose proof (join_nonempty (x :: kept) ltac:(discriminate) Hkept) as Hbody.
  apply String.eqb_neq in Hbody. rewrite Hbody. simpl. now rewrite append_nil_r.
Qed.

Lemma normalize_absolute (p : string) (all : list string) :
  Js.startsWith p "/" = true ->
  Forall (fun s => s = "" \/ entryName s) (Js.split "/" p) ->
  segmentsOf p = all ->
  (all <> [] -> Js.endsWith p "/" = false) ->
  Path.normalize p = absolutePath all.
Proof.
  intros Hstart Hsplit Hsegs Hend. unfold Path.normalize.
  assert (Hp : String.eqb p "" = false) by (destruct p; [discriminate|reflexivity]).
  rewrite Hp, Hstart. cbv zeta. simpl negb. unfold Path.normalizeString.
  rewrite normalizeString_entries by exact Hsplit. rewrite app_nil_l.
  fold (segmentsOf p). rewrite Hsegs.
  assert (Hall : Forall plainSegment all).
  { subst all. unfold segmentsOf. apply List.Forall_forall. intros s Hs.
    apply list_elem_of_In, list_elem_of_filter in Hs as [Ht Hs].
    apply list_elem_of_In in Hs. rewrite List.Forall_forall in Hsplit.
    destruct (Hsplit s Hs) as [->|Hentry]; [discriminate|apply Hentry]. }
  destruct all as [|x all]; [reflexivity|].
  pose proof (join_nonempty (x :: all) ltac:(discriminate) Hall) as Hbody.
  apply String.eqb_neq in Hbody. rewrite Hbody, Hend by discriminate.
  unfold absolutePath. simpl. now rewrite append_nil_r.
Qed.

(** Joining a directory in normal form with a relative path made of entry
    names descends through these entries. *)
Lemma join_descend (segs names : list string) :
  Forall entryName segs -> Forall entryName names -> names <> [] ->
  Path.join [absolutePath segs; Js.join "/" names] = absolutePath (segs ++ names).
Proof.
  intros Hsegs Hnames Hne.
  pose proof (entryName_plain _ Hsegs) as Psegs. pose proof (entryName_plain _ Hnames) as Pnames.
  pose proof (join_nonempty names Hne Pnames) as Hrel.
  unfold Path.join. rewrite !filter_cons, filter_nil.
  destruct (decide (Js.truthy (absolutePath segs) = true)) as [_|Hn];
    [|exfalso; apply Hn; reflexivity].
  destruct (decide (Js.truthy (Js.join "/" names) = true)) as [_|Hn];
    [|exfalso; apply Hn; now apply truthy_true].
  rewrite join_cons by discriminate.
  change (Js.join "/" [Js.join "/" names]) with (Js.join "/" names).
  set (p := absolutePath segs +:+ String "/"%char (Js.join "/" names)).
  assert (Hp : String.eqb p "" = false) by reflexivity. rewrite Hp.
  apply normalize_absolute.
  - apply startsWith_spec. unfold p, absolutePath. rewrite append_assoc.
    eexists. reflexivity.
  - unfold p. rewrite split_app_sep. apply List.Forall_app. split.
    + unfold absolutePath. change ("/" +:+ Js.join "/" segs)
        with ("" +:+ String "/"%char (Js.join "/" segs)).
      rewrite split_app_sep. apply List.Forall_app. split; [repeat constructor|].
      now apply split_entries.
    + now apply split_entries.
  - unfold p. rewrite segmentsOf_app_sep, segmentsOf_absolutePath, segmentsOf_join
      by assumption. reflexivity.
  - intros _. unfold p. destruct (join_last names Hne) as [pre ->].
    change (absolutePath segs +:+ String "/"%char (pre +:+ List.last names ""))
      with (absolutePath segs +:+ (String "/"%char pre +:+ List.last names "")).
    rewrite <- append_assoc. apply endsWith_plain. now apply last_Forall.
Qed.

Lemma append_plain (s ext : string) :
  ~ In "/"%char (chars s) -> ~ In "/"%char (chars ext) -> ext <> "" -> plainSegment (s +:+ ext).
Proof.
  intros Hs Hext Hne. split.
  - destruct s; simpl; [exact Hne|discriminate].
  - rewrite chars_append, in_app_iff. tauto.
Qed.

Lemma length_neq (a b : string) : String.length a <> String.length b -> a <> b.
Proof. congruence. Qed.

Lemma documentEntries_entries (slug : list string) :
  Forall (fun s => unsafeSegment s = false) slug ->
  documentEntries slug <> [] /\ Forall entryName (documentEntries slug).
Proof.
  intros Hsafe. unfold documentEntries.
  assert (Hkept : Forall entryName (List.filter (fun s => negb (isDot s)) slug)).
  { apply List.Forall_forall. intros s Hs. apply filter_In in Hs as [Hs Hd].
    rewrite List.Forall_forall in Hsafe. apply safe_entry; [now apply Hsafe|].
    now apply negb_true_iff. }
  destruct (List.filter _ slug) as [|x kept].
  - split; [discriminate|]. constructor; [|constructor].
    split; [split; [discriminate|]|split; discriminate].
    simpl. intuition discriminate.
  - split; [destruct (removelast (x :: kept)); discriminate|].
    apply List.Forall_app. split.
    + apply List.Forall_forall. intros s Hs. rewrite List.Forall_forall in Hkept.
      apply Hkept. revert Hs. generalize (x :: kept). intros l.
      induction l as [|a l IH]; [intros []|]. destruct l as [|b l]; [intros []|].
      change (removelast (a :: b :: l)) with (a :: removelast (b :: l)).
      intros [<-|Hs]; [now left|right; now apply IH].
    + constructor; [|constructor].
      pose proof (last_Forall entryName (x :: kept) "" ltac:(discriminate) Hkept)
        as [[Hne Hsep] _].
      set (name := List.last (x :: kept) "") in *.
      assert (Hlen : 5 <= String.length (name +:+ ".mdx")).
      { rewrite length_append. destruct name; [congruence|simpl; lia]. }
      split; [|split].
      * apply append_plain; [exact Hsep| |discriminate]. simpl. intuition discriminate.
      * apply length_neq. simpl String.length at 2. lia.
      * apply length_neq. simpl String.length at 2. lia.
Qed.

Lemma join_extension (kept : list string) :
  kept <> [] ->
  Js.join "/" kept +:+ ".mdx"
  = Js.join "/" (removelast kept ++ [List.last kept "" +:+ ".mdx"]).
Proof.
  induction kept as [|x l IH]; [congruence|]. intros _. destruct l as [|y l]; [reflexivity|].
  change (removelast (x :: y :: l)) with (x :: removelast (y :: l)).
  change (List.last (x :: y :: l) "") with (List.last (y :: l) "").
  rewrite join_cons by discriminate.
  change ((x :: removelast (y :: l)) ++ [List.last (y :: l) "" +:+ ".mdx"])
    with (x :: (removelast (y :: l) ++ [List.last (y :: l) "" +:+ ".mdx"])).
  rewrite (join_cons x (removelast (y :: l) ++ [List.last (y :: l) "" +:+ ".mdx"]))
    by (intros Heq; apply app_eq_nil in Heq as [_ ?]; discriminate).
  rewrite <- IH by discriminate. now rewrite append_assoc.
Qed.

Lemma CONTENT_ROOT_absolute (root : list string) :
  cwd = absolutePath root -> Forall entryName root ->
  CONTENT_ROOT = absolutePath (root ++ ["content"]).
Proof.
  intros Hcwd Hroot. unfold CONTENT_ROOT. rewrite Hcwd. apply join_child; [exact Hroot|].
  split; [split; [discriminate|]|split; discriminate]. simpl. intuition discriminate.
Qed.

(** The path [readMdxFile] reads. *)
Lemma readMdxFile_path (root slug : list string) :
  cwd = absolutePath root -> Forall entryName root ->
  slug <> [] -> Forall (fun s => unsafeSegment s = false) slug ->
  Path.join [CONTENT_ROOT; Path.join slug +:+ CONTENT_EXTENSION]
  = absolutePath (root ++ "content" :: documentEntries slug).
Proof.
  intros Hcwd Hroot Hne Hsafe.
  rewrite (CONTENT_ROOT_absolute root Hcwd Hroot), (join_safe slug Hne Hsafe).
  destruct (documentEntries_entries slug Hsafe) as [Hnames Hentries].
  assert (Hrel : match List.filter (fun s => negb (isDot s)) slug with
                 | [] => "."
                 | kept => Js.join "/" kept
                 end +:+ CONTENT_EXTENSION = Js.join "/" (documentEntries slug)).
  { unfold documentEntries. destruct (List.filter _ slug) as [|x kept]; [reflexivity|].
    apply join_extension. discriminate. }
  rewrite Hrel, join_descend; [|apply List.Forall_app; split; [exact Hroot|]|exact Hentries|exact Hnames].
  - now rewrite <- app_assoc.
  - constructor; [|constructor].
    split; [split; [discriminate|]|split; discriminate]. simpl. intuition discriminate.
Qed.

Lemma forEachM_safe (l : list string) (w : world) :
  Forall (fun s => unsafeSegment s = false) l ->
  forEachM (fun segment =>
              if unsafeSegment segment then throw (InvalidSlugSegment segment)
              else ret tt) l w = (Return tt, w).
Proof.
  induction 1 as [|s l Hs _ IH]; [reflexivity|].
  simpl. unfold bind. rewrite Hs. simpl. exact IH.
Qed.

Lemma assertSafeSlug_safe (slug : list string) (w : world) :
  slug <> [] -> Forall (fun s => unsafeSegment s = false) slug ->
  assertSafeSlug slug w = (Return tt, w).
Proof.
  intros Hne Hsafe. unfold assertSafeSlug.
  destruct slug as [|x rest]; [congruence|]. simpl negb. cbv iota.
  now apply forEachM_safe.
Qed.

Lemma assertSafeSlug_unsafe (safe : list string) (segment : string) (rest : list string)
      (w : world) :
  Forall (fun s => unsafeSegment s = false) safe -> unsafeSegment segment = true ->
  assertSafeSlug (safe ++ segment :: rest) w = (Throw (InvalidSlugSegment segment), w).
Proof.
  intros Hsafe Hbad. unfold assertSafeSlug.
  assert (Hlen : negb (0 <? length (safe ++ segment :: rest))%nat = false).
  { rewrite length_app. simpl. apply negb_false_iff, Nat.ltb_lt. lia. }
  rewrite Hlen. clear Hlen. induction Hsafe as [|s l Hs _ IH].
  - simpl. unfold bind. rewrite Hbad. reflexivity.
  - simpl. unfold bind. rewrite Hs. simpl. exact IH.
Qed.

Lemma readMdxFile_unsafe (safe : list string) (segment : string) (rest : list string)
      (w : world) :
  Forall (fun s => unsafeSegment s = false) safe -> unsafeSegment segment = true ->
  readMdxFile (safe ++ segment :: rest) w = (Throw (InvalidSlugSegment segment), w).
Proof.
  intros Hsafe Hbad. unfold readMdxFile, bind. now rewrite assertSafeSlug_unsafe.
Qed.

(** What [readMdxFile] does with a slug that passed [assertSafeSlug]. *)
Lemma readMdxFile_safe (root slug : list string) (w : world) :
  cwd = absolutePath root -> Forall entryName root ->
  slug <> [] -> Forall (fun s => unsafeSegment s = false) slug ->
  trace (snd (readMdxFile slug w))
  = trace w ++ [ReadFile (absolutePath (root ++ "content" :: documentEntries slug))] /\
  fst (readMdxFile slug w)
  = match walk disk (root ++ "content" :: documentEntries slug) with
    | inr (FFile source) =>
        Return (source, absolutePath (root ++ "content" :: documentEntries slug))
    | inr (FDir _) => Throw (Errno EISDIR)
    | inr FOther => Throw (Errno ENOENT)
    | inl code => Throw (Errno code)
    end.
Proof.
  intros Hcwd Hroot Hne Hsafe.
  destruct (documentEntries_entries slug Hsafe) as [_ Hentries].
  unfold readMdxFile, bind. rewrite (assertSafeSlug_safe slug w Hne Hsafe).
  rewrite (readMdxFile_path root slug Hcwd Hroot Hne Hsafe).
  unfold fs_readFile, bind, logCall, resolve.
  rewrite segmentsOf_absolutePath.
  2:{ apply List.Forall_app. split; [exact Hroot|]. constructor; [|exact Hentries].
      split; [split; [discriminate|]|split; discriminate]. simpl. intuition discriminate. }
  destruct (walk disk _) as [code|[content|entries|]]; simpl; split; reflexivity.
Qed.

Lemma find_unsafe_none (slug : list string) :
  List.find unsafeSegment slug = None -> Forall (fun s => unsafeSegment s = false) slug.
Proof.
  intros Hfind. apply List.Forall_forall. intros s Hs.
  exact (find_none unsafeSegment slug Hfind s Hs).
Qed.

Lemma find_unsafe_some (slug : list string) (segment : string) :
  List.find unsafeSegment slug = Some segment ->
  exists safe rest,
    slug = safe ++ segment :: rest /\
    Forall (fun s => unsafeSegment s = false) safe /\ unsafeSegment segment = true.
Proof.
  induction slug as [|x l IH]; [discriminate|]. simpl.
  destruct (unsafeSegment x) eqn:Hx.
  - intros [= <-]. exists [], l. auto.
  - intros Hfind. destruct (IH Hfind) as (safe & rest & -> & Hsafe & Hbad).
    exists (x :: safe), rest. auto.
Qed.

End DocumentPathFacts.

(** The tree and the index. *)

Section TreeIndexFacts.
Context `{Platform}.

Lemma take_drop (n : nat) (s : string) : Js.take n s +:+ Js.drop n s = s.
Proof.
  revert s. induction n as [|n IH]; intros [|c s]; simpl; try reflexivity.
  now rewrite IH.
Qed.

Lemma endsWith_dropEnd (name ext : string) :
  Js.endsWith name ext = true -> Js.dropEnd name (String.length ext) +:+ ext = name.
Proof.
  unfold Js.endsWith, Js.dropEnd. intros Hend.
  apply andb_true_iff in Hend as [_ Heq]. apply String.eqb_eq in Heq.
  rewrite <- Heq at 2. apply take_drop.
Qed.

Lemma collectDocs_located (fuel : nat) :
  forall dirPath ancestorSlug w w' nodes,
    collectDocs fuel dirPath ancestorSlug w = (Return nodes, w') ->
    Forall (located dirPath ancestorSlug) nodes.
Proof.
  induction fuel as [|fuel IH]; intros dirPath ancestorSlug w w' nodes Hrun;
    [discriminate|].
  apply collectDocs_inv in Hrun as (raw & produced & _ & Hall & ->).
  apply List.Forall_forall. intros node Hin. apply sort_In, In_compact in Hin.
  destruct (Forall2_In_r _ _ _ _ Hall Hin) as (entry & _ & w1 & w2 & Hentry).
  unfold collectEntry in Hentry. destruct (isDirectory (d_kind entry)).
  - apply bind_Return_inv in Hentry as (children & w3 & Hch & Hentry).
    destruct (negb _); apply ret_Return_inv in Hentry as [Heq _]; [discriminate|].
    injection Heq as <-. constructor. eapply IH. exact Hch.
  - destruct (isDocumentEntry entry) eqn:Hdoc; simpl in Hentry;
      apply ret_Return_inv in Hentry as [Heq _]; [|discriminate].
    injection Heq as <-. unfold isDocumentEntry in Hdoc.
    apply andb_true_iff in Hdoc as [_ Hend].
    assert (Hname : d_name entry = baseNameOf entry +:+ ".mdx")
      by (symmetry; exact (endsWith_dropEnd _ _ Hend)).
    set (base := baseNameOf entry) in *. rewrite Hname. constructor.
Qed.

Lemma located_slugs (node : DocNode) :
  forall dirPath ancestorSlug,
    located dirPath ancestorSlug node ->
    Forall (fun slug => exists rest, rest <> [] /\ slug = ancestorSlug ++ rest)
           (walkSlugs node).
Proof.
  induction node as [t n s p|t n s p ch IH] using DocNode_induction;
    intros dirPath ancestorSlug Hloc;
    inversion Hloc as [| ? ? ? ? Hch]; subst; simpl.
  - constructor; [|constructor]. exists [n]. split; [discriminate|reflexivity].
  - apply List.Forall_forall. intros slug Hin. apply in_flat_map in Hin as (c & Hc & Hin).
    rewrite List.Forall_forall in IH. rewrite List.Forall_forall in Hch.
    specialize (IH c Hc _ _ (Hch c Hc)). rewrite List.Forall_forall in IH.
    destruct (IH slug Hin) as (rest & Hrest & ->). exists (n :: rest).
    split; [discriminate|]. now rewrite <- app_assoc.
Qed.

Lemma walkSlugs_count (node : DocNode) : length (walkSlugs node) = countFiles node.
Proof.
  induction node as [t n s p|t n s p ch IH] using DocNode_induction;
    destruct t; simpl; try reflexivity.
  induction IH as [|c ch Hc _ IHch]; [reflexivity|].
  simpl. rewrite length_app. now rewrite Hc, IHch.
Qed.

(** sorting permutes *)
Lemma insertSorted_Permutation {A} (cmp : A -> A -> Z) (x : A) (l : list A) :
  Permutation (Js.insertSorted cmp x l) (x :: l).
Proof.
  induction l as [|y l IH]; [reflexivity|]. simpl.
  destruct (0 <? cmp x y)%Z; [|reflexivity].
  rewrite IH. apply perm_swap.
Qed.

Lemma sort_Permutation {A} (cmp : A -> A -> Z) (l : list A) :
  Permutation (Js.sort cmp l) l.
Proof.
  induction l as [|x l IH]; [reflexivity|]. unfold Js.sort in *. simpl.
  rewrite insertSorted_Permutation. now constructor.
Qed.

Lemma visit_slugs (node : DocNode) :
  forall w w' es, visit node w = (Return es, w') -> map entry_slug es = walkSlugs node.
Proof.
  induction node as [t n s p|t n s p ch IH] using DocNode_induction; intros w w' es Hv.
  - destruct t; simpl in Hv.
    + apply bind_Return_inv in Hv as (r & w1 & Hr & Hv).
      destruct (matter (fst r)) as [[data content]|] eqn:Hm; [|discriminate].
      apply ret_Return_inv in Hv as [<- _]. reflexivity.
    + apply ret_Return_inv in Hv as [<- _]. reflexivity.
  - destruct t; simpl in Hv.
    + apply bind_Return_inv in Hv as (r & w1 & Hr & Hv).
      destruct (matter (fst r)) as [[data content]|] eqn:Hm; [|discriminate].
      apply ret_Return_inv in Hv as [<- _]. reflexivity.
    + simpl walkSlugs. revert w w' es Hv.
      induction IH as [|c ch Hc _ IHch]; intros w w' es Hv.
      * apply ret_Return_inv in Hv as [<- _]. reflexivity.
      * apply bind_Return_inv in Hv as (es1 & w1 & H1 & Hv).
        apply bind_Return_inv in Hv as (es2 & w2 & H2 & Hv).
        apply ret_Return_inv in Hv as [<- _].
        rewrite map_app. simpl. f_equal; [eapply Hc; eassumption | eapply IHch; eassumption].
Qed.

Lemma mapM_visit_slugs (tree : list DocNode) :
  forall w w' ess, mapM visit tree w = (Return ess, w') ->
                   map entry_slug (concat ess) = flat_map walkSlugs tree.
Proof.
  induction tree as [|node tree IH]; intros w w' ess Hrun.
  - apply ret_Return_inv in Hrun as [<- _]. reflexivity.
  - rewrite mapM_cons in Hrun.
    apply bind_Return_inv in Hrun as (es & w1 & Hv & Hrun).
    apply bind_Return_inv in Hrun as (rest & w2 & Hrest & Hrun).
    apply ret_Return_inv in Hrun as [<- _]. simpl. rewrite map_app. f_equal.
    + eapply visit_slugs. exact Hv.
    + eapply IH. exact Hrest.
Qed.

Lemma byTitle_consistent :
  consistentCompare localeCompare ->
  (forall a b, (0 < byTitle a b)%Z -> (byTitle b a <= 0)%Z) /\
  (forall a b c, cmpLe byTitle a b -> cmpLe byTitle b c -> cmpLe byTitle a c).
Proof.
  intros [Hflip Htrans]. unfold byTitle, cmpLe. split; intros; eauto.
Qed.

Lemma getAllDocSlugs_nonempty (fuel : nat) (w w' : world) (slugs : list (list string)) :
  getAllDocSlugs fuel w = (Return slugs, w') -> Forall (fun slug => slug <> []) slugs.
Proof.
  unfold getAllDocSlugs. intros Hrun.
  apply bind_Return_inv in Hrun as (tree & w1 & Htree & Hrun).
  apply ret_Return_inv in Hrun as [<- <-].
  apply collectDocs_located in Htree. apply List.Forall_forall. intros slug Hin.
  apply in_flat_map in Hin as (node & Hnode & Hin).
  rewrite List.Forall_forall in Htree. specialize (Htree node Hnode).
  apply located_slugs in Htree.
  rewrite List.Forall_forall in Htree. destruct (Htree slug Hin) as (rest & Hrest & Heq).
  rewrite Heq. destruct rest; [contradiction|].
  intros Hnil. apply app_eq_nil in Hnil as [_ ?]. discriminate.
Qed.

(** The walk of [getAllDocSlugs] meets the document nodes of the tree. *)
Lemma located_documents (node : DocNode) :
  forall dirPath ancestorSlug,
    located dirPath ancestorSlug node ->
    walkSlugs node
    = map node_slug
          (List.filter (fun n => NodeType_eqb (node_type n) TFile) (subtree node)).
Proof.
  induction node as [t n s p|t n s p ch IH] using DocNode_induction;
    intros dirPath ancestorSlug Hloc;
    inversion Hloc as [| ? ? ? ? Hch]; subst; [reflexivity|].
  simpl. clear Hloc.
  induction IH as [|c ch Hc _ IHch]; [reflexivity|].
  inversion Hch as [|? ? Hhead Htail]; subst. simpl.
  rewrite List.filter_app, map_app, <- (Hc _ _ Hhead). f_equal. now apply IHch.
Qed.

Lemma forest_documents (dirPath : string) (ancestorSlug : list string) (tree : list DocNode) :
  Forall (located dirPath ancestorSlug) tree ->
  flat_map walkSlugs tree = map node_slug (documentNodes tree).
Proof.
  unfold documentNodes. induction 1 as [|node tree Hnode _ IH]; [reflexivity|].
  simpl. rewrite List.filter_app, map_app, <- IH. f_equal.
  eapply located_documents. exact Hnode.
Qed.

End TreeIndexFacts.

(** Listings and the route. *)

Section ListingFacts.
Context `{Platform}.

Lemma terminates_ret {A} (a : A) : terminates (ret a).
Proof. intros w. discriminate. Qed.

Lemma terminates_throw {A} (e : exn) : terminates (throw (A := A) e).
Proof. intros w. discriminate. Qed.

Lemma terminates_bind {A B} (m : M A) (k : A -> M B) :
  terminates m -> (forall a, terminates (k a)) -> terminates (bind m k).
Proof.
  intros Hm Hk w. unfold bind. specialize (Hm w).
  destruct (m w) as [[a|e|] w1]; simpl in *; [apply Hk|discriminate|congruence].
Qed.

Lemma terminates_tryCatch {A} (m : M A) (h : exn -> M A) :
  terminates m -> (forall e, terminates (h e)) -> terminates (tryCatch m h).
Proof.
  intros Hm Hh w. unfold tryCatch. specialize (Hm w).
  destruct (m w) as [[a|e|] w1]; simpl in *; [discriminate|apply Hh|congruence].
Qed.

Lemma terminates_mapM {A B} (f : A -> M B) (xs : list A) :
  (forall x, terminates (f x)) -> terminates (mapM f xs).
Proof.
  intros Hf. induction xs as [|x xs IH]; [apply terminates_ret|].
  rewrite mapM_cons. apply terminates_bind; [apply Hf|]. intros y.
  apply terminates_bind; [exact IH|]. intros ys. apply terminates_ret.
Qed.

Lemma terminates_fromDisk {A} (r : errno + A) : terminates (fromDisk r).
Proof. destruct r; [apply terminates_throw|apply terminates_ret]. Qed.

Lemma terminates_logCall (c : fscall) : terminates (logCall c).
Proof. intros w. discriminate. Qed.

Lemma terminates_fs_stat (p : string) : terminates (fs_stat p).
Proof. apply terminates_bind; [apply terminates_logCall|]. intros _. apply terminates_fromDisk. Qed.

Lemma terminates_fs_readdir (p : string) : terminates (fs_readdir p).
Proof. apply terminates_bind; [apply terminates_logCall|]. intros _. apply terminates_fromDisk. Qed.

Lemma terminates_fs_readFile (p : string) : terminates (fs_readFile p).
Proof. apply terminates_bind; [apply terminates_logCall|]. intros _. apply terminates_fromDisk. Qed.

Lemma terminates_listEntry (slug : list string) (target : string) (entry : Dirent) :
  terminates (listEntry slug target entry).
Proof.
  unfold listEntry. destruct (Js.startsWith _ _); [apply terminates_ret|].
  destruct (isDirectory _).
  - apply terminates_bind; [apply terminates_fs_readdir|]. intros ?. apply terminates_ret.
  - destruct (negb _); [apply terminates_ret|].
    apply terminates_bind; [apply terminates_fs_readFile|]. intros source.
    destruct (matter source) as [[data content]|]; [apply terminates_ret|apply terminates_throw].
Qed.

Lemma terminates_getChildNodes (slug : list string) : terminates (getChildNodes slug).
Proof.
  unfold getChildNodes. apply terminates_bind.
  - apply terminates_tryCatch; [apply terminates_fs_stat|]. intros e. apply terminates_throw.
  - intros stat. destruct (negb _); [apply terminates_throw|].
    apply terminates_bind; [apply terminates_fs_readdir|]. intros entries.
    apply terminates_bind; [apply terminates_mapM, terminates_listEntry|].
    intros items. apply terminates_ret.
Qed.

Lemma listEntry_document (slug : list string) (target : string) (entry : Dirent)
      (w w' : world) (item : option DocListItem) :
  listEntry slug target entry w = (Return item, w') ->
  Js.startsWith (d_name entry) "." = false ->
  isDocumentEntry entry = true ->
  exists source data content,
    resolve disk (Path.join [target; d_name entry]) = inr (FFile source) /\
    matter source = Some (data, content) /\
    item = Some (mkDocListItem TFile (baseNameOf entry) (slug ++ [baseNameOf entry])
                   None (stringField data "title")).
Proof.
  unfold listEntry. intros Hl Hdot Hdoc. rewrite Hdot, Hdoc in Hl.
  assert (Hdir : isDirectory (d_kind entry) = false).
  { unfold isDocumentEntry in Hdoc. apply andb_true_iff in Hdoc as [Hf _].
    destruct (d_kind entry); [reflexivity|discriminate|reflexivity]. }
  rewrite Hdir in Hl. simpl in Hl.
  apply bind_Return_inv in Hl as (source & w1 & Hrd & Hl).
  destruct (matter source) as [[data content]|] eqn:Hm; [|discriminate].
  apply ret_Return_inv in Hl as [<- _].
  apply fs_readFile_inv in Hrd. eauto 6.
Qed.

End ListingFacts.

(** The SEO lookup. *)

Section SeoFacts.
Context `{Platform} {Json : Type} (JSON_parse : string -> option Json) (truthy : Json -> bool).

Lemma firstSeo_absent (p : string) (rest : list string) (w : world) :
  seoAbsent JSON_parse truthy p ->
  firstSeo JSON_parse truthy (p :: rest) w
  = firstSeo JSON_parse truthy rest (World (sets w) (trace w ++ [ReadFile p])).
Proof.
  unfold seoAbsent. intros Habs. simpl firstSeo.
  unfold bind at 1, readSeoMetadataFile, tryCatch, bind at 1, fs_readFile, bind at 1, logCall,
    fromDisk.
  destruct (resolve disk p) as [[]|[raw|entries|]]; try contradiction; simpl; try reflexivity.
  destruct Habs as (seo & -> & Hfalsy). simpl. now rewrite Hfalsy.
Qed.

Lemma firstSeo_skip (before rest : list string) :
  forall w,
    Forall (seoAbsent JSON_parse truthy) before ->
    firstSeo JSON_parse truthy (before ++ rest) w
    = firstSeo JSON_parse truthy rest (World (sets w) (trace w ++ map ReadFile before)).
Proof.
  induction before as [|p before IH]; intros w Hall.
  - simpl. rewrite app_nil_r. now destruct w.
  - inversion Hall as [|? ? Hp Hrest]; subst.
    change ((p :: before) ++ rest) with (p :: (before ++ rest)).
    rewrite (firstSeo_absent p _ w Hp), IH by exact Hrest.
    simpl. now rewrite <- app_assoc.
Qed.

Lemma firstSeo_hit (p raw : string) (seo : Json) (rest : list string) (w : world) :
  resolve disk p = inr (FFile raw) -> JSON_parse raw = Some seo -> truthy seo = true ->
  firstSeo JSON_parse truthy (p :: rest) w
  = (Return (inr (Some seo)), World (sets w) (trace w ++ [ReadFile p])).
Proof.
  intros Hres Hparse Htruthy. simpl firstSeo.
  unfold bind at 1, readSeoMetadataFile, tryCatch, bind at 1, fs_readFile, bind at 1, logCall,
    fromDisk.
  rewrite Hres. simpl. rewrite Hparse. simpl. now rewrite Htruthy.
Qed.

Lemma candidates_split (slug : list string) (k : nat) :
  k <= length slug ->
  seoCandidates slug
  = map (seoCandidate slug) (rev (seq (S k) (length slug - k)))
    ++ seoCandidate slug k
    :: map (seoCandidate slug) (rev (seq 0 k)) ++ [Path.join [CONTENT_ROOT; "seo.json"]].
Proof.
  intros Hk. unfold seoCandidates.
  replace (S (length slug)) with (k + S (length slug - k)) by lia.
  rewrite seq_app. simpl seq. rewrite rev_app_distr. simpl rev.
  rewrite <- !app_assoc, !map_app. simpl. now rewrite <- !app_assoc.
Qed.

End SeoFacts.

(** Sets in insertion order, and the sitemap. *)

Section SetFacts.

Lemma has_In (elements : list string) (key : string) :
  JsSet.has elements key = true <-> In key elements.
Proof.
  unfold JsSet.has. rewrite existsb_exists. split.
  - intros (x & Hx & Heq). apply String.eqb_eq in Heq. now subst.
  - intros Hin. exists key. split; [exact Hin|apply String.eqb_refl].
Qed.

Lemma add_In (elements : list string) (key x : string) :
  In x (JsSet.add elements key) <-> In x elements \/ x = key.
Proof.
  unfold JsSet.add. destruct (JsSet.has elements key) eqn:Hhas.
  - apply has_In in Hhas. split; [auto|]. intros [?| ->]; assumption.
  - rewrite in_app_iff. simpl. intuition.
Qed.

Lemma add_NoDup (elements : list string) (key : string) :
  NoDup elements -> NoDup (JsSet.add elements key).
Proof.
  intros Hnd. unfold JsSet.add. destruct (JsSet.has elements key) eqn:Hhas; [exact Hnd|].
  apply NoDup_app. split; [exact Hnd|]. split.
  - intros x Hx Hin. apply list_elem_of_In in Hx. apply list_elem_of_In in Hin.
    destruct Hin as [<-|[]].
    apply has_In in Hx. congruence.
  - apply NoDup_singleton.
Qed.

Lemma fold_add_In (keys acc : list string) (x : string) :
  In x (fold_left JsSet.add keys acc) <-> In x acc \/ In x keys.
Proof.
  revert acc. induction keys as [|k keys IH]; intros acc; simpl; [tauto|].
  rewrite IH, add_In. intuition.
Qed.

Lemma fold_add_NoDup (keys acc : list string) :
  NoDup acc -> NoDup (fold_left JsSet.add keys acc).
Proof.
  revert acc. induction keys as [|k keys IH]; intros acc Hnd; simpl; [exact Hnd|].
  apply IH, add_NoDup, Hnd.
Qed.

Lemma ofArray_In (keys : list string) (x : string) :
  In x (JsSet.ofArray keys) <-> In x keys.
Proof. unfold JsSet.ofArray. rewrite fold_add_In. simpl. tauto. Qed.

Lemma ofArray_NoDup (keys : list string) : NoDup (JsSet.ofArray keys).
Proof. apply fold_add_NoDup. constructor. Qed.

End SetFacts.

Section SitemapFacts.
Import PrimFloat.
Context `{Platform} (BASE_URL : string) {Date : Type} (newDate : nat -> Date).

Lemma sitemap_inv (fuel : nat) (w w' : world) (entries : list SitemapEntry) :
  sitemap BASE_URL newDate fuel w = (Return entries, w') ->
  exists slugs,
    getAllDocSlugs fuel w = (Return slugs, w') /\
    entries = imap (sitemapEntryOf BASE_URL newDate) (sitemapKeys slugs).
Proof.
  unfold sitemap. intros Hrun.
  apply bind_Return_inv in Hrun as (slugs & w1 & Hslugs & Hrun).
  apply ret_Return_inv in Hrun as [<- <-]. exists slugs. split; [exact Hslugs|reflexivity].
Qed.

Lemma In_imap {A B} (f : nat -> A -> B) (l : list A) (y : B) :
  In y (imap f l) <-> exists i x, l !! i = Some x /\ y = f i x.
Proof.
  rewrite <- list_elem_of_In. split.
  - intros Hin. apply elem_of_lookup_imap_1 in Hin as (i & x & -> & Hx). eauto.
  - intros (i & x & Hx & ->). now apply elem_of_lookup_imap_2.
Qed.

Lemma In_lookup {A} (l : list A) (x : A) : In x l <-> exists i, l !! i = Some x.
Proof. rewrite <- list_elem_of_In. apply list_elem_of_lookup. Qed.

Lemma join_home (slug : list string) : Js.join "/" slug = "home" <-> slug = ["home"].
Proof.
  split; [|now intros ->].
  destruct slug as [|x [|y l]]; [discriminate|simpl; now intros ->|].
  rewrite join_cons by discriminate. intros Heq.
  assert (Hin : In "/"%char (chars "home")).
  { rewrite <- Heq, chars_append, in_app_iff. right. now left. }
  simpl in Hin. intuition discriminate.
Qed.

Lemma key_entry (slug : list string) (index : nat) :
  slug <> [] -> Forall plainSegment slug ->
  sitemapEntryOf BASE_URL newDate index (Js.join "/" slug)
  = mkSitemapEntry (buildUrl BASE_URL slug) (newDate index) "monthly"
                   (getPriorityForSlug slug).
Proof. intros Hne Hplain. unfold sitemapEntryOf. now rewrite segmentsOf_join. Qed.

Lemma append_neq_self (a b : string) : b <> "" -> a +:+ b <> a.
Proof.
  intros Hb Heq. apply (f_equal String.length) in Heq. rewrite length_append in Heq.
  destruct b; [congruence|simpl in Heq; lia].
Qed.

Lemma buildUrl_key (slug : list string) :
  Forall plainSegment slug -> slug <> [] ->
  buildUrl BASE_URL slug
  = if String.eqb (Js.join "/" slug) "home" then BASE_URL
    else BASE_URL +:+ "/" +:+ Js.join "/" slug.
Proof.
  intros Hplain Hne. destruct (String.eqb_spec (Js.join "/" slug) "home") as [Heq|Hneq].
  - apply join_home in Heq as ->. reflexivity.
  - unfold buildUrl. destruct slug as [|x [|y l]]; [congruence| |reflexivity].
    destruct (String.eqb_spec x "home") as [->|_]; [|reflexivity].
    exfalso. apply Hneq. reflexivity.
Qed.

Lemma buildUrl_inj (a b : list string) :
  Forall plainSegment a -> Forall plainSegment b -> a <> [] -> b <> [] ->
  buildUrl BASE_URL a = buildUrl BASE_URL b -> Js.join "/" a = Js.join "/" b.
Proof.
  intros Ha Hb Hna Hnb. rewrite !buildUrl_key by assumption.
  destruct (String.eqb_spec (Js.join "/" a) "home") as [Ea|Na],
           (String.eqb_spec (Js.join "/" b) "home") as [Eb|Nb].
  - congruence.
  - intros Heq. symmetry in Heq. apply append_neq_self in Heq; [contradiction|].
    discriminate.
  - intros Heq. apply append_neq_self in Heq; [contradiction|]. discriminate.
  - intros Heq. apply append_inj_l in Heq. simpl in Heq. now injection Heq.
Qed.

Lemma keys_slugs (slugs : list (list string)) (key : string) :
  In key (sitemapKeys slugs) <->
  exists slug, (slug = ["home"] \/ In slug slugs) /\ key = Js.join "/" slug.
Proof.
  unfold sitemapKeys. rewrite add_In, ofArray_In, in_map_iff. split.
  - intros [(slug & <- & Hin)| ->]; [exists slug; auto|exists ["home"]; auto].
  - intros (slug & [->|Hin] & ->); [now right|left; eauto].
Qed.

Lemma sitemap_run (fuel : nat) (w w' : world) (slugs : list (list string)) :
  getAllDocSlugs fuel w = (Return slugs, w') ->
  sitemap BASE_URL newDate fuel w
  = (Return (imap (sitemapEntryOf BASE_URL newDate) (sitemapKeys slugs)), w').
Proof. intros Hslugs. unfold sitemap, bind. rewrite Hslugs. reflexivity. Qed.

Lemma sitemap_keys_plain (slugs : list (list string)) (key : string) :
  Forall (fun slug => slug <> []) slugs -> Forall (Forall plainSegment) slugs ->
  In key (sitemapKeys slugs) ->
  exists slug, (slug = ["home"] \/ In slug slugs) /\ key = Js.join "/" slug /\
               slug <> [] /\ Forall plainSegment slug.
Proof.
  intros Hne Hplain Hin. apply keys_slugs in Hin as (slug & Hslug & ->).
  exists slug. split; [exact Hslug|]. split; [reflexivity|].
  destruct Hslug as [->|Hin].
  - split; [discriminate|]. constructor; [|constructor]. split; [discriminate|].
    simpl. intuition discriminate.
  - rewrite List.Forall_forall in Hne, Hplain. split; [now apply Hne|now apply Hplain].
Qed.

Lemma sitemap_urls (slugs : list (list string)) :
  map sm_url (imap (sitemapEntryOf BASE_URL newDate) (sitemapKeys slugs))
  = map (fun key => buildUrl BASE_URL (segmentsOf key)) (sitemapKeys slugs).
Proof.
  change (map sm_url (imap (sitemapEntryOf BASE_URL newDate) (sitemapKeys slugs)))
    with (sm_url <$> imap (sitemapEntryOf BASE_URL newDate) (sitemapKeys slugs)).
  rewrite fmap_imap.
  apply (imap_const (fun key => buildUrl BASE_URL (segmentsOf key))).
Qed.

End SitemapFacts.

(** Documents of the tree on the disk. *)

Section ReadableFacts.
Context `{Platform}.

Lemma treeOf_documents (node : fsnode) :
  forall segs ancestorSlug,
    wellFormed disk -> Forall entryName segs -> walk disk segs = inr node ->
    Forall (fun slug =>
              exists dirs base text,
                slug = ancestorSlug ++ dirs ++ [base] /\
                walk disk (segs ++ dirs ++ [base +:+ ".mdx"]) = inr (FFile text))
           (flat_map walkSlugs (treeOf node (absolutePath segs) ancestorSlug)).
Proof.
  induction node as [content| |entries IH] using fsnode_induction;
    intros segs ancestorSlug Hwf Hsegs Hwalk; [constructor | constructor |].
  assert (Hdir : wellFormed (FDir entries)) by (eapply walk_wellFormed; eassumption).
  apply wellFormed_dir in Hdir as [Hnd Hall]. rewrite List.Forall_forall in Hall, IH.
  apply List.Forall_forall. intros slug Hslug. apply in_flat_map in Hslug as (top & Htop & Hslug).
  rewrite treeOf_dir in Htop. apply sort_In, In_compact, in_map_iff in Htop
    as ([name sub] & He & Hin).
  destruct (Hall _ Hin) as [Hname _]. simpl in Hname.
  assert (Hchild : walk disk (segs ++ [name]) = inr sub) by (eapply walk_child; eassumption).
  assert (Hjoin : Path.join [absolutePath segs; name] = absolutePath (segs ++ [name]))
    by now apply join_child.
  assert (Hsegs' : Forall entryName (segs ++ [name])).
  { apply List.Forall_app. split; [assumption | now constructor]. }
  simpl in He. destruct sub as [content|subEntries|]; [| |discriminate].
  - destruct (Js.endsWith name CONTENT_EXTENSION) eqn:Hend; [|discriminate].
    injection He as <-. simpl in Hslug. destruct Hslug as [<-|[]].
    exists [], (Js.dropEnd name (String.length CONTENT_EXTENSION)), content.
    split; [reflexivity|].
    assert (Hn : Js.dropEnd name (String.length CONTENT_EXTENSION) +:+ ".mdx" = name)
      by exact (endsWith_dropEnd _ _ Hend).
    rewrite Hn. exact Hchild.
  - destruct (treeOf (FDir subEntries) _ _) as [|c children] eqn:Hch; [discriminate|].
    simpl in He. injection He as <-. simpl walkSlugs in Hslug.
    specialize (IH _ Hin (segs ++ [name]) (ancestorSlug ++ [name]) Hwf Hsegs' Hchild).
    cbn [snd] in IH. rewrite <- Hjoin, Hch in IH. rewrite List.Forall_forall in IH.
    destruct (IH slug Hslug) as (dirs & base & text & -> & Hfile).
    exists (name :: dirs), base, text. split.
    + now rewrite <- app_assoc.
    + rewrite <- app_assoc in Hfile. exact Hfile.
Qed.

Lemma removelast_snoc {A} (l : list A) (x : A) : removelast (l ++ [x]) = l.
Proof. apply removelast_last. Qed.

Lemma last_snoc {A} (l : list A) (x d : A) : List.last (l ++ [x]) d = x.
Proof. apply last_last. Qed.

Lemma documentEntries_dotless (dirs : list string) (base : string) :
  Forall (fun s => isDot s = false) (dirs ++ [base]) ->
  documentEntries (dirs ++ [base]) = dirs ++ [base +:+ ".mdx"].
Proof.
  intros Hdots. unfold documentEntries.
  assert (Hkeep : List.filter (fun s => negb (isDot s)) (dirs ++ [base]) = dirs ++ [base]).
  { apply forallb_filter_id, forallb_forall. intros s Hs.
    rewrite List.Forall_forall in Hdots. now rewrite (Hdots s Hs). }
  rewrite Hkeep. destruct (dirs ++ [base]) eqn:Heq.
  - destruct dirs; discriminate.
  - rewrite <- Heq. now rewrite removelast_snoc, last_snoc.
Qed.

End ReadableFacts.

(** The snippet of a search result. *)

Section SnippetFacts.















Lemma replaceRuns_cons (cls : ascii -> bool) (c : ascii) (s : string) :
  Js.replaceRuns cls (String c s)
  = if cls c then
      match s with
      | String d _ => if cls d then Js.replaceRuns cls s
                      else String " "%char (Js.replaceRuns cls s)
      | EmptyString => String " "%char EmptyString
      end
    else String c (Js.replaceRuns cls s).
Proof. reflexivity. Qed.







End SnippetFacts.

(** Queries, plain prose. *)

Section MiscFacts.
Context `{Platform}.






Lemma replaceAll_none (matchAt : string -> option string) (fuel : nat) (s : string) :
  (forall pre t, s = pre +:+ t -> matchAt t = None) ->
  replaceAll matchAt fuel s = s.
Proof.
  revert s. induction fuel as [|fuel IH]; intros s Hnone; [now destruct s|].
  destruct s as [|c s]; [reflexivity|]. simpl.
  rewrite (Hnone "" (String c s) eq_refl). f_equal. apply IH.
  intros pre t ->. apply (Hnone (String c pre) t). reflexivity.
Qed.

Lemma matchFence_head (t rest : string) :
  matchFence t = Some rest -> exists t', t = String backtick t'.
Proof.
  unfold matchFence. destruct (Js.startsWith t fence) eqn:Hs; [|discriminate].
  intros _. apply startsWith_spec in Hs as [x ->]. eexists. reflexivity.
Qed.

Lemma matchInlineCode_head (t rest : string) :
  matchInlineCode t = Some rest -> exists t', t = String backtick t'.
Proof.
  unfold matchInlineCode. destruct t as [|c t']; [discriminate|].
  destruct (Ascii.eqb_spec c backtick) as [->|]; [|discriminate]. eauto.
Qed.

Lemma matchLink_head (t rest : string) :
  matchLink t = Some rest -> exists t', t = String "["%char t'.
Proof.
  unfold matchLink. destruct t as [|c t']; [discriminate|].
  destruct (Ascii.eqb_spec c "[") as [->|Hne]; [eauto|].
  destruct c as [[] [] [] [] [] [] [] []]; try discriminate. congruence.
Qed.

Lemma matchImage_head (t rest : string) :
  matchImage t = Some rest -> exists t', t = String "!"%char (String "["%char t').
Proof.
  unfold matchImage. destruct t as [|c t']; [discriminate|].
  destruct c as [[] [] [] [] [] [] [] []]; try discriminate.
  intros Hm. apply matchLink_head in Hm as [t'' ->]. eauto.
Qed.

Lemma replaceRegex_none (matchAt : string -> option string) (s : string) (c : ascii) :
  (forall t rest, matchAt t = Some rest -> In c (chars t)) ->
  ~ In c (chars s) -> replaceRegex matchAt s = s.
Proof.
  intros Hhead Hc. apply replaceAll_none. intros pre t ->.
  destruct (matchAt t) as [rest|] eqn:Hm; [|reflexivity].
  exfalso. apply Hc. rewrite chars_append, in_app_iff. right. eapply Hhead. exact Hm.
Qed.

Lemma replaceRuns_none (cls : ascii -> bool) (s : string) :
  (forall c, In c (chars s) -> cls c = false) -> Js.replaceRuns cls s = s.
Proof.
  induction s as [|c s IH]; intros Hs; [reflexivity|].
  rewrite replaceRuns_cons, (Hs c) by now left. f_equal. apply IH.
  intros d Hd. apply Hs. now right.
Qed.

End MiscFacts.

(** * The claims *)

(** C7. [slugToHref] sends the reserved slug [["home"]] to ["/"] and every
    other slug to ["/"] followed by its segments joined with ["/"]; on valid
    slugs, the empty root slug included, two slugs share an href only when
    they are equal or are the root slug and [["home"]], so the mapping is
    injective on the slugs other than [["home"]]. *)
Theorem slugToHref_injective_except_home (s1 s2 : list string) :
  validSlug s1 -> validSlug s2 ->
  slugToHref ["home"] = "/" /\
  (s1 <> ["home"] -> slugToHref s1 = "/" +:+ Js.join "/" s1) /\
  (slugToHref s1 = slugToHref s2 ->
   s1 = s2 \/ (s1 = [] /\ s2 = ["home"]) \/ (s1 = ["home"] /\ s2 = [])) /\
  (s1 <> ["home"] -> s2 <> ["home"] -> slugToHref s1 = slugToHref s2 -> s1 = s2).
Proof.
  intros H1 H2. apply validSlug_plain in H1, H2.
  assert (Hcollapse : slugToHref s1 = slugToHref s2 ->
            s1 = s2 \/ (s1 = [] /\ s2 = ["home"]) \/ (s1 = ["home"] /\ s2 = [])).
  { intros Heq. apply (f_equal deriveActiveSlug) in Heq.
    rewrite !deriveActiveSlug_slugToHref in Heq by assumption.
    destruct s1 as [|x1 l1], s2 as [|x2 l2]; auto. }
  split; [reflexivity|]. split; [apply slugToHref_join|]. split; [exact Hcollapse|].
  intros Hn1 Hn2 Heq. destruct (Hcollapse Heq) as [?|[[_ ?]|[? _]]]; congruence.
Qed.

Lemma slugToHref_injective_except_home_witness :
  validSlug ["guide"; "intro"] /\ validSlug [] /\
  (slugToHref ["guide"; "intro"] = slugToHref [] -> ["guide"; "intro"] = @nil string).
Proof.
  assert (H1 : validSlug ["guide"; "intro"]) by (repeat constructor).
  assert (H2 : validSlug []) by constructor.
  split; [exact H1|]. split; [exact H2|].
  destruct (slugToHref_injective_except_home ["guide"; "intro"] [] H1 H2)
    as [_ [_ [_ Hinj]]].
  apply Hinj; discriminate.
Defined.

(** C8. [Search] trims and lower-cases the query; when nothing is left it
    returns no result; otherwise the documents of its results are exactly the
    records whose lower-cased title, href and content (joined by single
    spaces, as the component builds the text it searches) contain the
    normalized query as a substring, in the order of the input and cut to the
    first eight. *)
Theorem Search_returns_matching_records (docs : list DocLink) (query : string) :
  let q := Js.toLowerCase (Js.trim query) in
  let matches := fun doc : DocLink =>
    exists pre post,
      Js.toLowerCase (link_title doc +:+ " " +:+ link_href doc +:+ " " +:+ link_content doc)
      = pre +:+ q +:+ post in
  (q = "" -> Search docs query = []) /\
  (q <> "" ->
   map result_doc (Search docs query) =
   firstn 8 (filter (fun doc => Js.includes (haystack doc) q = true) docs)) /\
  (forall doc, Js.includes (haystack doc) q = true <-> matches doc) /\
  (forall r, In r (Search docs query) ->
             In (result_doc r) docs /\ matches (result_doc r)) /\
  length (Search docs query) <= 8.
Proof.
  intros q matches.
  assert (Hspec : forall doc, Js.includes (haystack doc) q = true <-> matches doc).
  { intros doc. apply includes_spec. }
  assert (Hdocs : Js.truthy q = true ->
            map result_doc (Search docs query) =
            firstn 8 (filter (fun doc => Js.includes (haystack doc) q = true) docs)).
  { intros Hq. unfold Search, normalizeQuery. fold q. rewrite Hq. simpl negb. cbv iota.
    unfold MAX_RESULTS. rewrite <- firstn_map. f_equal.
    apply compact_map_filter.
    - intros doc Hd. rewrite Hd. simpl. eauto.
    - intros doc Hd. apply not_true_is_false in Hd. now rewrite Hd. }
  split; [|split; [|split; [exact Hspec|split]]].
  - intros Hq. unfold Search, normalizeQuery. fold q. now rewrite Hq.
  - intros Hq. apply Hdocs. now apply truthy_true.
  - intros r Hr. destruct (Js.truthy q) eqn:Hq.
    + assert (Hin : In (result_doc r) (map result_doc (Search docs query)))
        by now apply in_map.
      rewrite (Hdocs eq_refl) in Hin.
      assert (Hin' : In (result_doc r)
                (filter (fun doc => Js.includes (haystack doc) q = true) docs)).
      { revert Hin. generalize (filter (fun doc => Js.includes (haystack doc) q = true) docs).
        intros l Hin. rewrite <- (firstn_skipn 8 l). apply in_or_app. now left. }
      apply list_elem_of_In, list_elem_of_filter in Hin'. destruct Hin' as [Hm Hd].
      split; [now apply list_elem_of_In | now apply Hspec].
    + unfold Search, normalizeQuery in Hr. fold q in Hr. rewrite Hq in Hr. destruct Hr.
  - unfold Search. destruct (negb _); [simpl; lia|]. unfold MAX_RESULTS.
    rewrite length_firstn. lia.
Qed.


(** C4 (as the code has it). When [getChildNodes] returns a listing, every
    immediate subdirectory whose name does not start with a dot appears in it
    as a directory entry, whatever the subdirectory holds: no pruning takes
    place.  What depends on its content is the [hasChildren] flag alone, set
    when the subdirectory has, one level down, a directory or a document.
    Conversely every directory entry of the listing is such a subdirectory. *)
Theorem getChildNodes_lists_every_directory `{Platform}
        (slug : list string) (w w' : world) (items : list DocListItem) :
  getChildNodes slug w = (Return items, w') ->
  let target := Path.join (CONTENT_ROOT :: slug) in
  exists entries,
    resolve disk target = inr (FDir entries) /\
    (forall name sub,
        In (name, FDir sub) entries -> Js.startsWith name "." = false ->
        exists childEntries,
          resolve disk (Path.join [target; name]) = inr (FDir childEntries) /\
          In (mkDocListItem TDirectory name (slug ++ [name])
                (Some (hasChildrenOf (map direntOf childEntries))) None) items) /\
    (forall item,
        In item items -> item_type item = TDirectory ->
        exists sub, In (item_name item, FDir sub) entries /\
                    Js.startsWith (item_name item) "." = false).
Proof.
  intros Hg target. apply getChildNodes_inv in Hg as (raw & produced & Hraw & Hall & ->).
  exists raw. split; [exact Hraw|]. split.
  - intros name sub Hin Hdot.
    assert (Hentry : In (direntOf (name, FDir sub)) (map direntOf raw)) by now apply in_map.
    destruct (Forall2_In_l _ _ _ _ Hall Hentry) as (item & Hitem & w1 & w2 & Hrun).
    apply listEntry_directory in Hrun as (childEntries & Hchild & ->); [|exact Hdot|reflexivity].
    exists childEntries. split; [exact Hchild|].
    apply sort_In, In_compact. exact Hitem.
  - intros item Hin Hdir. apply sort_In, In_compact in Hin.
    destruct (Forall2_In_r _ _ _ _ Hall Hin) as (entry & Hentry & w1 & w2 & Hrun).
    apply listEntry_Some in Hrun as [Hdot [(Hk & _ & Hname)|(_ & Hfile & _)]]; [|congruence].
    apply in_map_iff in Hentry as ([name node] & <- & Hraw').
    simpl in *. destruct node; try discriminate. rewrite Hname. eauto.
Qed.

Lemma getChildNodes_lists_every_directory_witness :
  let items := returned [] (getChildNodes (H := Fixture.site) [] emptyWorld) in
  exists entries,
    resolve (disk (Platform := Fixture.site)) (CONTENT_ROOT (H := Fixture.site))
    = inr (FDir entries) /\
    forall item, In item items -> item_type item = TDirectory ->
      exists sub, In (item_name item, FDir sub) entries /\
                  Js.startsWith (item_name item) "." = false.
Proof.
  intros items.
  assert (Hrun : getChildNodes (H := Fixture.site) [] emptyWorld
                 = (Return items, snd (getChildNodes (H := Fixture.site) [] emptyWorld)))
    by (vm_compute; reflexivity).
  destruct (getChildNodes_lists_every_directory [] _ _ _ Hrun) as (entries & Hres & _ & Hdirs).
  exists entries. split; [exact Hres | exact Hdirs].
Defined.

(** C4 fails: in the fixture the directories [empty] and [assets] hold no
    document at any depth, and both are directory entries of the listing of
    the content root. *)
Lemma listing_keeps_directories_without_documents :
  let items := returned [] (getChildNodes (H := Fixture.site) [] emptyWorld) in
  let root := CONTENT_ROOT (H := Fixture.site) in
  In (mkDocListItem TDirectory "empty" ["empty"] (Some false) None) items /\
  In (mkDocListItem TDirectory "assets" ["assets"] (Some false) None) items /\
  (exists node, resolve Fixture.siteDisk (Path.join [root; "empty"]) = inr node /\
                containsDocument node = false) /\
  (exists node, resolve Fixture.siteDisk (Path.join [root; "assets"]) = inr node /\
                containsDocument node = false).
Proof.
  split; [vm_compute; tauto|]. split; [vm_compute; tauto|].
  split; eexists; split; vm_compute; reflexivity.
Qed.

(** C6 (as the code has it). With a consistent [localeCompare], every level
    of the tree [collectDocs] returns is sorted by name alone, directories
    and files mixed; a listing [getChildNodes] returns has its directories
    first and its files after them, each kind sorted by name: there the kind
    of an entry is the first sort key. *)
Theorem tree_builder_orders `{Platform} :
  consistentCompare localeCompare ->
  (forall fuel dirPath ancestorSlug w w' nodes,
      collectDocs fuel dirPath ancestorSlug w = (Return nodes, w') ->
      sortedLevels nodes) /\
  (forall slug w w' items,
      getChildNodes slug w = (Return items, w') ->
      StronglySorted listedBefore items).
Proof.
  intros Hcmp. split.
  - intros fuel. now apply collectDocs_sortedLevels.
  - intros slug w w'. now apply getChildNodes_sorted.
Qed.

Lemma tree_builder_orders_witness :
  consistentCompare (localeCompare (Platform := Fixture.site)) /\
  StronglySorted (listedBefore (H := Fixture.site))
    (returned [] (getChildNodes (H := Fixture.site) ["mixed"] emptyWorld)).
Proof.
  split; [exact codeUnitCompare_consistent|].
  destruct (tree_builder_orders (H := Fixture.site) codeUnitCompare_consistent) as [_ Hl].
  apply (Hl ["mixed"] emptyWorld (snd (getChildNodes (H := Fixture.site) ["mixed"] emptyWorld))).
  vm_compute. reflexivity.
Defined.

(** C6 fails on the one-level listing: in the directory [mixed] of the
    fixture, the directory [b] is listed before the document [a], so the
    listing is not sorted by name. *)
Lemma listing_not_sorted_by_name :
  let items := returned [] (getChildNodes (H := Fixture.site) ["mixed"] emptyWorld) in
  map item_name items = ["b"; "a"] /\
  ~ StronglySorted
      (fun a b => (Fixture.codeUnitCompare (item_name a) (item_name b) <= 0)%Z) items.
Proof.
  split; [vm_compute; reflexivity|].
  intros Hs. apply StronglySorted_inv in Hs as [_ Hall].
  apply Forall_inv in Hall. vm_compute in Hall. apply Hall. reflexivity.
Qed.

(** C1 (the code departs from it). [getChildNodes] never validates its
    slug: whatever the slug, its first step is a call to the disk on the
    joined path.  On the fixture the slug [[".."]] is listed like any other:
    the directory above the content root is read, and so is a document under
    [secrets] when the request asks for [../secrets], while [readMdxFile]
    rejects the same slug before it touches the disk. *)
Theorem getChildNodes_follows_parent_segments :
  (forall (P : Platform) (slug : list string) (w : world),
      exists t, trace (snd (getChildNodes slug w))
                = trace w ++ Stat (Path.join (CONTENT_ROOT :: slug)) :: t) /\
  (let run := getChildNodes (H := Fixture.site) [".."] emptyWorld in
   (exists items, fst run = Return items /\ map item_name items = ["content"; "secrets"]) /\
   trace (snd run) = [Stat "/srv/site"; Readdir "/srv/site";
                      Readdir "/srv/site/secrets"; Readdir "/srv/site/content"]) /\
  GET (H := Fixture.site) (Some "../secrets") emptyWorld
  = (Return (Json200 [mkDocListItem TFile "notes" [".."; "secrets"; "notes"]
                        None (Some "Keys")]),
     World [] [Stat "/srv/site/secrets"; Readdir "/srv/site/secrets";
               ReadFile "/srv/site/secrets/notes.mdx"]) /\
  readMdxFile (H := Fixture.site) [".."] emptyWorld
  = (Throw (InvalidSlugSegment ".."), emptyWorld).
Proof.
  split; [intros P slug w; apply getChildNodes_stats_first|].
  split; [|split; vm_compute; reflexivity].
  split; [|vm_compute; reflexivity].
  eexists. split; vm_compute; reflexivity.
Qed.

(** C9 (as the code has it). Every entry [getDocsIndex] returns takes its
    title from the front matter of its document when that holds a string
    under [title], and is otherwise titled with the last segment of its slug
    as it stands: the segment is not humanized. *)
Theorem getDocsIndex_titles `{Platform}
        (fuel : nat) (w w' : world) (entries : list DocIndexEntry) :
  getDocsIndex fuel w = (Return entries, w') ->
  forall e, In e entries ->
    exists source data content,
      documentSource (entry_slug e) = Some source /\
      matter source = Some (data, content) /\
      entry_title e = match stringField data "title" with
                      | Some title => title
                      | None => default "" (last (entry_slug e))
                      end.
Proof.
  intros Hg e He. apply getDocsIndex_indexedFrom in Hg.
  rewrite List.Forall_forall in Hg.
  destruct (Hg e He) as (source & data & content & Hs & Hm & Ht & _).
  exists source, data, content. auto.
Qed.

Lemma getDocsIndex_titles_witness :
  let entries := returned [] (getDocsIndex (H := Fixture.site) 3 emptyWorld) in
  Forall (fun e =>
            exists source data content,
              documentSource (H := Fixture.site) (entry_slug e) = Some source /\
              Fixture.toyMatter source = Some (data, content) /\
              entry_title e = match stringField data "title" with
                              | Some title => title
                              | None => default "" (last (entry_slug e))
                              end) entries.
Proof.
  intros entries. apply List.Forall_forall.
  apply (getDocsIndex_titles (H := Fixture.site) 3 emptyWorld
           (snd (getDocsIndex (H := Fixture.site) 3 emptyWorld))).
  vm_compute. reflexivity.
Defined.

(** C9 fails: the fixture's [guide/getting-started] has no title in its
    front matter and is indexed under [getting-started], which is not the
    humanized segment [Getting Started]. *)
Lemma getDocsIndex_title_not_humanized :
  let entries := returned [] (getDocsIndex (H := Fixture.site) 3 emptyWorld) in
  exists e, In e entries /\
    entry_slug e = ["guide"; "getting-started"] /\
    (exists source data content,
        documentSource (H := Fixture.site) (entry_slug e) = Some source /\
        Fixture.toyMatter source = Some (data, content) /\
        stringField data "title" = None) /\
    entry_title e = "getting-started" /\
    humanizeName "getting-started" = "Getting Started" /\
    entry_title e <> humanizeName "getting-started".
Proof.
  exists (mkDocIndexEntry ["guide"; "getting-started"] "getting-started" "Install it").
  split; [vm_compute; tauto|]. split; [reflexivity|].
  split; [eexists _, _, _; repeat split; vm_compute; reflexivity|].
  split; [reflexivity|]. split; [vm_compute; reflexivity|].
  vm_compute. discriminate.
Qed.

(** C5. What [collectDocs] returns holds no directory without a document
    below it, at any depth.  On a well-formed disk whose content root is a
    directory, [getDocsTree] returns once its fuel covers the height of that
    directory, and every directory of the tree it returns is a directory of
    the disk below which a document file lies. *)
Theorem collectDocs_prunes_directories `{Platform} :
  (forall fuel dirPath ancestorSlug w w' nodes,
      collectDocs fuel dirPath ancestorSlug w = (Return nodes, w') ->
      Forall (fun node => node_type node = TDirectory -> 0 < countFiles node)
             (flat_map subtree nodes)) /\
  (forall segs content,
      cwd = absolutePath segs -> Forall entryName segs -> wellFormed disk ->
      walk disk (segs ++ ["content"]) = inr (FDir content) ->
      forall fuel w,
        height (FDir content) <= fuel ->
        exists nodes w',
          getDocsTree fuel w = (Return nodes, w') /\
          Forall (fun node =>
                    node_type node = TDirectory ->
                    0 < countFiles node /\
                    exists sub, resolve disk (node_filePath node) = inr sub /\
                                containsDocument sub = true)
                 (flat_map subtree nodes)).
Proof.
  split.
  - intros fuel dirPath ancestorSlug w w' nodes Hc.
    apply populated_forest. eapply collectDocs_populated. exact Hc.
  - intros segs content Hcwd Hsegs Hwf Hwalk fuel w Hfuel.
    assert (Hcontent : entryName "content").
    { repeat split; try discriminate. simpl. intuition discriminate. }
    assert (Hroot : CONTENT_ROOT = absolutePath (segs ++ ["content"])).
    { unfold CONTENT_ROOT. rewrite Hcwd. now apply join_child. }
    assert (Hsegs' : Forall entryName (segs ++ ["content"])).
    { apply List.Forall_app. split; [assumption | now constructor]. }
    pose proof (collectDocs_treeOf fuel (segs ++ ["content"]) content [] Hwf Hsegs' Hwalk Hfuel)
      as Hret.
    destruct (returns_inv _ _ w Hret) as [w' Hrun].
    exists (treeOf (FDir content) (absolutePath (segs ++ ["content"])) []), w'.
    unfold getDocsTree. rewrite Hroot. split; [exact Hrun|].
    pose proof (populated_forest _ (collectDocs_populated _ _ _ _ _ _ Hrun)) as Hpop.
    pose proof (treeOf_directories (FDir content) (segs ++ ["content"]) [] Hwf Hsegs' Hwalk)
      as Hdisk.
    rewrite List.Forall_forall in Hpop, Hdisk. apply List.Forall_forall.
    intros node Hnode Hdir. split; [now apply Hpop | now apply Hdisk].
Qed.

Ltac fixture_names :=
  repeat match goal with
         | |- _ /\ _ => split
         | |- True => exact I
         | |- NoDup _ => apply (bool_decide_unpack _); vm_compute; exact I
         | |- entryName _ => unfold entryName, plainSegment
         | |- ~ In _ _ => simpl; intuition discriminate
         | |- _ <> _ => discriminate
         | |- Forall _ _ => constructor
         end.

Lemma collectDocs_prunes_directories_witness :
  exists nodes w',
    getDocsTree (H := Fixture.site) 3 emptyWorld = (Return nodes, w') /\
    Forall (fun node =>
              node_type node = TDirectory ->
              0 < countFiles node /\
              exists sub, resolve Fixture.siteDisk (node_filePath node) = inr sub /\
                          containsDocument sub = true)
           (flat_map subtree nodes).
Proof.
  destruct (collectDocs_prunes_directories (H := Fixture.site)) as [_ Htotal].
  apply (Htotal ["srv"; "site"] (match Fixture.content with FDir es => es | _ => [] end));
    clear Htotal.
  - reflexivity.
  - fixture_names.
  - simpl. fixture_names.
  - reflexivity.
  - vm_compute. lia.
Defined.

(** C2. Once the fuel exceeds the number of keys the includes of the disk
    can name, composition always returns, and:
    - a document one of whose include directives names the document itself
      fails to compose, and the errors reported hold the circular-include
      error of its key;
    - so does a document [A] that includes a document [B] that includes
      [A];
    - a document [A] with two sibling directives that name the same
      document, where the first expands below [A] without error and the
      rest of [A] expands too, composes, and the text of the included
      document appears once for each directive. *)
Theorem circular_includes_fail_sibling_includes_compose `{Platform} :
  (forall S nodes fm slugAttr,
      loadDocument S = inr (nodes, fm) ->
      In (MdxInclude slugAttr) nodes -> parseSlug slugAttr = S ->
      forall fuel w, size allKeys < fuel ->
        exists errors w',
          composeDocument fuel S w = (Return (Failed errors), w') /\
          In (CircularInclude (slugKey S)) errors) /\
  (forall A B nodesA fmA nodesB fmB attrA attrB,
      loadDocument A = inr (nodesA, fmA) ->
      In (MdxInclude attrB) nodesA -> parseSlug attrB = B ->
      loadDocument B = inr (nodesB, fmB) ->
      In (MdxInclude attrA) nodesB -> parseSlug attrA = A ->
      forall fuel w, size allKeys < fuel ->
        exists errors w',
          composeDocument fuel A w = (Return (Failed errors), w') /\
          In (CircularInclude (slugKey A)) errors) /\
  (forall A nodesA fmA pre mid post b1 b2 bodyPre bodyMid bodyPost bodyB,
      loadDocument A = inr (nodesA, fmA) ->
      nodesA = pre ++ MdxInclude b1 :: mid ++ MdxInclude b2 :: post ->
      parseSlug b2 = parseSlug b1 ->
      expands {[slugKey A]} [MdxInclude b1] bodyB ->
      expands {[slugKey A]} pre bodyPre ->
      expands {[slugKey A]} mid bodyMid ->
      expands {[slugKey A]} post bodyPost ->
      forall fuel w, size allKeys < fuel ->
        exists w',
          composeDocument fuel A w
          = (Return (Composed (mkComposed A
                                 (bodyPre ++ bodyB ++ bodyMid ++ bodyB ++ bodyPost) fmA)),
             w')).
Proof.
  split; [|split].
  - intros S nodes fm slugAttr Hload Hin Hslug fuel w Hfuel.
    eapply composeDocument_reports; [exact Hfuel | exact Hload|].
    intros l w1 out w2 Hl Hr.
    assert (Hel : In (ElInclude l slugAttr) (map (bindComponents l) nodes)).
    { apply in_map_iff. exists (MdxInclude slugAttr). auto. }
    destruct (render_In _ _ _ _ _ _ _ Hr Hel) as (wa & wb & Hp & Hcase).
    assert (Hla : sets wa !! l = Some {[slugKey S]})
      by (eapply prefix_lookup_Some; eassumption).
    assert (Hne : parseSlug slugAttr <> [])
      by (rewrite Hslug; eapply loadDocument_nonempty; exact Hload).
    assert (Hcycle : slugKey (parseSlug slugAttr) ∈ ({[slugKey S]} : gset string))
      by (rewrite Hslug; set_solver).
    destruct Hcase as [(e & He & Hine)|(c & f & h & w3 & _ & Hc & _)].
    + pose proof (Include_circular _ _ _ _ _ _ Hla Hne Hcycle He) as Heq.
      injection Heq as ->. now rewrite Hslug in Hine.
    + pose proof (Include_circular _ _ _ _ _ _ Hla Hne Hcycle Hc). discriminate.
  - intros A B nodesA fmA nodesB fmB attrA attrB HloadA HinB HslugB HloadB HinA HslugA
           fuel w Hfuel.
    eapply composeDocument_reports; [exact Hfuel | exact HloadA|].
    intros l w1 out w2 Hl Hr.
    assert (Hel : In (ElInclude l attrB) (map (bindComponents l) nodesA)).
    { apply in_map_iff. exists (MdxInclude attrB). auto. }
    destruct (render_In _ _ _ _ _ _ _ Hr Hel) as (wa & wb & Hp & Hcase).
    assert (Hla : sets wa !! l = Some {[slugKey A]})
      by (eapply prefix_lookup_Some; eassumption).
    assert (HneB : parseSlug attrB <> [])
      by (rewrite HslugB; eapply loadDocument_nonempty; exact HloadB).
    assert (HneA : parseSlug attrA <> [])
      by (rewrite HslugA; eapply loadDocument_nonempty; exact HloadA).
    destruct (decide (slugKey B ∈ ({[slugKey A]} : gset string))) as [Hsame|Hother].
    + (* the keys coincide: the include of [B] is itself the cycle *)
      assert (Hcycle : slugKey (parseSlug attrB) ∈ ({[slugKey A]} : gset string))
        by now rewrite HslugB.
      assert (Hkey : slugKey B = slugKey A) by set_solver.
      destruct Hcase as [(e & He & Hine)|(c & f & h & w3 & _ & Hc & _)].
      * pose proof (Include_circular _ _ _ _ _ _ Hla HneB Hcycle He) as Heq.
        injection Heq as ->. now rewrite HslugB, Hkey in Hine.
      * pose proof (Include_circular _ _ _ _ _ _ Hla HneB Hcycle Hc). discriminate.
    + assert (Hfresh : slugKey (parseSlug attrB) ∉ ({[slugKey A]} : gset string))
        by now rewrite HslugB.
      rewrite <- HslugB in HloadB.
      destruct Hcase as [(e & He & Hine)|(c & f & h & w3 & -> & Hc & Hh & Hincl)].
      * destruct (Include_loaded _ _ _ _ _ _ _ _ Hla HneB Hfresh HloadB He) as [Hbad _].
        discriminate.
      * destruct (Include_loaded _ _ _ _ _ _ _ _ Hla HneB Hfresh HloadB Hc) as [[= ->] Hlb].
        apply Hincl.
        assert (Hel' : In (ElInclude (S (length (sets wa))) attrA)
                          (map (bindComponents (S (length (sets wa)))) nodesB)).
        { apply in_map_iff. exists (MdxInclude attrA). auto. }
        destruct (render_In _ _ _ _ _ _ _ Hh Hel') as (wc & wd & Hp' & Hcase').
        assert (Hlc : sets wc !! S (length (sets wa))
                      = Some ({[slugKey (parseSlug attrB)]} ∪ {[slugKey A]}))
          by (eapply prefix_lookup_Some; eassumption).
        assert (Hcycle : slugKey (parseSlug attrA)
                           ∈ ({[slugKey (parseSlug attrB)]} ∪ {[slugKey A]} : gset string))
          by (rewrite HslugA; set_solver).
        destruct Hcase' as [(e & He & Hine)|(c' & f' & h' & w4 & _ & Hc' & _)].
        -- pose proof (Include_circular _ _ _ _ _ _ Hlc HneA Hcycle He) as Heq.
           injection Heq as ->. now rewrite HslugA in Hine.
        -- pose proof (Include_circular _ _ _ _ _ _ Hlc HneA Hcycle Hc'). discriminate.
  - intros A nodesA fmA pre mid post b1 b2 bodyPre bodyMid bodyPost bodyB
           Hload -> Hslug HB Hpre Hmid Hpost fuel w Hfuel.
    eapply composeDocument_expands; [exact Hfuel | exact Hload|].
    apply expands_app; [exact Hpre|].
    apply (expands_app _ [MdxInclude b1] _ bodyB); [exact HB|].
    apply expands_app; [exact Hmid|].
    apply (expands_app _ [MdxInclude b2] _ bodyB); [|exact Hpost].
    eapply expands_same_slug; eassumption.
Qed.

Lemma circular_includes_fail_sibling_includes_compose_witness :
  (exists errors w',
      composeDocument (H := Fixture.site) 5 ["loops"; "self"] emptyWorld
      = (Return (Failed errors), w') /\
      In (CircularInclude "loops/self") errors) /\
  (exists errors w',
      composeDocument (H := Fixture.site) 5 ["loops"; "ping"] emptyWorld
      = (Return (Failed errors), w') /\
      In (CircularInclude "loops/ping") errors) /\
  (exists w',
      composeDocument (H := Fixture.site) 5 ["guide"; "intro"] emptyWorld
      = (Return (Composed (mkComposed ["guide"; "intro"]
                             ["Intro"; "Shared content"; "Shared content"] ∅)),
         w')).
Proof.
  destruct (circular_includes_fail_sibling_includes_compose (H := Fixture.site))
    as (Hself & Hmutual & Hsiblings).
  assert (Hfuel : size (allKeys (H := Fixture.site)) < 5) by (vm_compute; lia).
  split; [|split].
  - apply (Hself ["loops"; "self"] [MdxInclude "loops/self"] ∅ "loops/self");
      [vm_compute; reflexivity | now left | vm_compute; reflexivity | exact Hfuel].
  - apply (Hmutual ["loops"; "ping"] ["loops"; "pong"]
                   [MdxInclude "loops/pong"] ∅ [MdxInclude "loops/ping"] ∅
                   "loops/ping" "loops/pong");
      [vm_compute; reflexivity | now left | vm_compute; reflexivity
       | vm_compute; reflexivity | now left | vm_compute; reflexivity | exact Hfuel].
  - apply (Hsiblings ["guide"; "intro"]
                     [MdxText "Intro"; MdxInclude "general/shared"; MdxInclude "general/shared"]
                     ∅ [MdxText "Intro"] [] [] "general/shared" "general/shared"
                     ["Intro"] [] [] ["Shared content"]);
      [vm_compute; reflexivity | reflexivity | reflexivity | | | | | exact Hfuel].
    + apply (expands_include _ "general/shared" [] [MdxText "Shared content"]
               {[ "title" := FmString "Shared" ]} ["Shared content"] []).
      * vm_compute. discriminate.
      * apply not_elem_of_singleton. vm_compute. discriminate.
      * vm_compute. reflexivity.
      * repeat constructor.
      * constructor.
    + repeat constructor.
    + constructor.
    + constructor.
Defined.

(** C3. Composition returns once the fuel exceeds the number of keys the
    includes of the disk can name.  When the root document loads and its
    include directives expand, level after level, without meeting an
    ancestor or a missing or malformed document, what is returned is a
    composed document: its content is the texts met on the way and its
    metadata is the front matter of the root, whatever front matter the
    included documents carry.  And the metadata of every composed document
    is the front matter that [compileMDX] extracts from the root document's
    own source: an include hands back the content of its document and
    nothing else. *)
Theorem composed_metadata_is_root_front_matter `{Platform}
        (slug : list string) (fuel : nat) (w : world) :
  size allKeys < fuel ->
  exists c w',
    composeDocument fuel slug w = (Return c, w') /\
    (forall nodes fm body,
        loadDocument slug = inr (nodes, fm) ->
        expands {[slugKey slug]} nodes body ->
        c = Composed (mkComposed slug body fm)) /\
    forall doc,
      c = Composed doc ->
      cd_slug doc = slug /\
      exists source nodes,
        documentSource slug = Some source /\
        compileMDX source = Some (nodes, cd_metadata doc).
Proof.
  intros Hfuel.
  destruct (composeDocument_terminates fuel slug w Hfuel) as (c & w' & Hc).
  exists c, w'. split; [exact Hc|]. split.
  - intros nodes fm body Hl Hexp.
    destruct (composeDocument_expands fuel slug w nodes fm body Hfuel Hl Hexp) as [w1 Hrun].
    rewrite Hc in Hrun. now injection Hrun as -> _.
  - intros doc ->.
    destruct (loadDocument slug) as [e|[nodes fm]] eqn:Hl.
    + destruct (composeDocument_failed fuel slug w e Hl) as [w1 Hrun].
      rewrite Hc in Hrun. discriminate.
    + destruct (composeDocument_loaded fuel slug w nodes fm Hl) as (w1 & _ & Hrun).
      rewrite Hc in Hrun.
      destruct (render fuel _ w1) as [[out|e|] w2]; try discriminate.
      destruct (r_errors out); [|discriminate].
      injection Hrun as -> _. simpl. split; [reflexivity|].
      destruct (loadDocument_source slug nodes fm Hl) as (source & Hs & Hcompiled).
      exists source, nodes. auto.
Qed.

Lemma composed_metadata_is_root_front_matter_witness :
  (exists nodes,
      loadDocument (H := ComposeFixture.manualSite) ["parts"; "one"]
      = inr (nodes, {[ "title" := FmString "One" ]})) /\
  (exists nodes,
      loadDocument (H := ComposeFixture.manualSite) ["parts"; "two"]
      = inr (nodes, {[ "title" := FmString "Two" ]})) /\
  exists w',
    composeDocument (H := ComposeFixture.manualSite) 3 ["manual"] emptyWorld
    = (Return (Composed (mkComposed ["manual"] ["Intro"; "First"; "Second"; "Outro"]
                           {[ "title" := FmString "Manual" ]})),
       w').
Proof.
  split; [eexists; vm_compute; reflexivity|].
  split; [eexists; vm_compute; reflexivity|].
  assert (Hfuel : size (allKeys (H := ComposeFixture.manualSite)) < 3) by (vm_compute; lia).
  destruct (composed_metadata_is_root_front_matter (H := ComposeFixture.manualSite)
              ["manual"] 3 emptyWorld Hfuel) as (c & w' & Hrun & Hcomposed & _).
  exists w'. rewrite Hrun. f_equal. f_equal.
  apply (Hcomposed [MdxText "Intro"; MdxInclude "parts/one"; MdxText "Outro"]
                   {[ "title" := FmString "Manual" ]}
                   ["Intro"; "First"; "Second"; "Outro"]).
  - vm_compute. reflexivity.
  - apply expands_text.
    apply (expands_include _ "parts/one" [MdxText "Outro"]
             [MdxText "First"; MdxInclude "parts/two"]
             {[ "title" := FmString "One" ]} ["First"; "Second"] ["Outro"]).
    + vm_compute. discriminate.
    + apply not_elem_of_singleton. vm_compute. discriminate.
    + vm_compute. reflexivity.
    + apply expands_text.
      apply (expands_include _ "parts/two" [] [MdxText "Second"]
               {[ "title" := FmString "Two" ]} ["Second"] []).
      * vm_compute. discriminate.
      * vm_compute. intros Hin. discriminate Hin.
      * vm_compute. reflexivity.
      * repeat constructor.
      * constructor.
    + repeat constructor.
Defined.

(** * Further properties of the sources

    ** [lib/mdx.ts] *)

Section MdxProperties.
Context `{Platform}.

(** X1. [readMdxFile] validates before it reads: the empty slug is rejected
    with the empty-slug error, and a slug is rejected at its first segment
    that is empty or holds [..], a slash or a backslash, with the error
    naming that segment.  In both cases the world is left as it was: no call
    to the disk has been made. *)
Theorem readMdxFile_rejects_unsafe_slug (slug : list string) (w : world) :
  (slug = [] -> readMdxFile slug w = (Throw EmptySlug, w)) /\
  (forall safe segment rest,
      slug = safe ++ segment :: rest ->
      Forall (fun s => unsafeSegment s = false) safe -> unsafeSegment segment = true ->
      readMdxFile slug w = (Throw (InvalidSlugSegment segment), w)).
Proof.
  split.
  - intros ->. reflexivity.
  - intros safe segment rest -> Hsafe Hbad. unfold readMdxFile, bind.
    now rewrite assertSafeSlug_unsafe.
Qed.

(** X2. With the process in a directory given in normal form, [readMdxFile]
    on a slug that passes the validation makes exactly one call to the disk:
    it reads the file reached from the content root through the segments of
    the slug other than [.], the last one with the extension [.mdx].  None
    of these entries is [.] or [..], so the file lies below the content
    root; the outcome is the text of that file, or the rejection of the
    disk. *)
Theorem readMdxFile_stays_in_content_root (root slug : list string) (w : world) :
  cwd = absolutePath root -> Forall entryName root ->
  slug <> [] -> Forall (fun s => unsafeSegment s = false) slug ->
  Forall entryName (documentEntries slug) /\
  trace (snd (readMdxFile slug w))
  = trace w ++ [ReadFile (absolutePath (root ++ "content" :: documentEntries slug))] /\
  fst (readMdxFile slug w)
  = match walk disk (root ++ "content" :: documentEntries slug) with
    | inr (FFile source) =>
        Return (source, absolutePath (root ++ "content" :: documentEntries slug))
    | inr (FDir _) => Throw (Errno EISDIR)
    | inr FOther => Throw (Errno ENOENT)
    | inl code => Throw (Errno code)
    end.
Proof.
  intros Hcwd Hroot Hne Hsafe.
  destruct (documentEntries_entries slug Hsafe) as [_ Hentries].
  split; [exact Hentries|].
  unfold readMdxFile, bind. rewrite (assertSafeSlug_safe slug w Hne Hsafe).
  rewrite (readMdxFile_path root slug Hcwd Hroot Hne Hsafe).
  unfold fs_readFile, bind, logCall, resolve. 
  rewrite segmentsOf_absolutePath.
  2:{ apply List.Forall_app. split; [exact Hroot|]. constructor; [|exact Hentries].
      split; [split; [discriminate|]|split; discriminate]. simpl. intuition discriminate. }
  destruct (walk disk _) as [code|[content|entries|]]; simpl; split; reflexivity.
Qed.

(** X3. [mdxExists] answers [true] when the document is a regular file and
    [false] only when the file is missing; it does not answer for a slug
    that fails the validation, nor when a directory stands in the place of
    the file or a file in the place of a directory on the way: these errors
    are thrown. *)
Theorem mdxExists_answers (root slug : list string) (w : world) :
  cwd = absolutePath root -> Forall entryName root ->
  fst (mdxExists slug w)
  = match slug, List.find unsafeSegment slug with
    | [], _ => Throw EmptySlug
    | _, Some segment => Throw (InvalidSlugSegment segment)
    | _, None =>
        match walk disk (root ++ "content" :: documentEntries slug) with
        | inr (FFile _) => Return true
        | inr (FDir _) => Throw (Errno EISDIR)
        | inr FOther => Return false
        | inl ENOENT => Return false
        | inl code => Throw (Errno code)
        end
    end.
Proof.
  intros Hcwd Hroot. unfold mdxExists, tryCatch.
  destruct slug as [|x l]; [reflexivity|].
  destruct (List.find unsafeSegment (x :: l)) as [segment|] eqn:Hfind.
  - apply find_unsafe_some in Hfind as (safe & rest & Heq & Hsafe & Hbad).
    unfold bind at 1. rewrite Heq.
    now rewrite (readMdxFile_unsafe safe segment rest w Hsafe Hbad).
  - apply find_unsafe_none in Hfind.
    destruct (readMdxFile_safe root (x :: l) w Hcwd Hroot
                ltac:(discriminate) Hfind) as (_ & Hout).
    unfold bind at 1. destruct (readMdxFile (x :: l) w) as [r w1]. simpl in Hout.
    rewrite Hout.
    destruct (walk disk _) as [[]|[content|entries|]]; reflexivity.
Qed.

(** X4. The slugs and the paths of the tree [collectDocs] returns follow the
    directories: the slug of a node is the slug of its parent followed by
    its name, the path of a directory is the path of its parent joined with
    its name, and the path of a document is the path of its parent joined
    with its name and the extension. *)
Theorem collectDocs_mirrors_directories
        (fuel : nat) (dirPath : string) (ancestorSlug : list string)
        (w w' : world) (nodes : list DocNode) :
  collectDocs fuel dirPath ancestorSlug w = (Return nodes, w') ->
  Forall (located dirPath ancestorSlug) nodes.
Proof. apply collectDocs_located. Qed.

(** X5. [getAllDocSlugs] returns the slugs of the document nodes of the
    tree [getDocsTree] returns in the same world, at every depth and in the
    order of the tree: one slug for each document, and none of them
    empty. *)
Theorem getAllDocSlugs_documents (fuel : nat) (w w' : world) (slugs : list (list string)) :
  getAllDocSlugs fuel w = (Return slugs, w') ->
  Forall (fun slug => slug <> []) slugs /\
  exists tree,
    getDocsTree fuel w = (Return tree, w') /\
    slugs = map node_slug (documentNodes tree) /\
    length slugs = list_sum (map countFiles tree).
Proof.
  unfold getAllDocSlugs. intros Hrun.
  apply bind_Return_inv in Hrun as (tree & w1 & Htree & Hrun).
  apply ret_Return_inv in Hrun as [<- <-].
  pose proof (collectDocs_located _ _ _ _ _ _ Htree) as Hlocated. split.
  - apply List.Forall_forall. intros slug Hin.
    apply in_flat_map in Hin as (node & Hnode & Hin).
    rewrite List.Forall_forall in Hlocated. specialize (Hlocated node Hnode).
    apply located_slugs in Hlocated.
    rewrite List.Forall_forall in Hlocated.
    destruct (Hlocated slug Hin) as (rest & Hrest & Heq).
    rewrite Heq.
    destruct rest; [contradiction|discriminate].
  - exists tree. split; [exact Htree|]. split.
    + eapply forest_documents. exact Hlocated.
    + clear Htree Hlocated.
      induction tree as [|node tree IH]; [reflexivity|].
      simpl. now rewrite length_app, walkSlugs_count, IH.
Qed.

(** X6. On a well-formed disk, with the process in a directory given in
    normal form and fuel for the height of the content root,
    [getAllDocSlugs] returns, and [readMdxFile] takes back every slug it
    lists whose segments are not [.]: it returns the document, unless a
    segment fails the validation of [assertSafeSlug], in which case it
    throws the error of that segment. *)
Theorem listed_documents_are_readable
        (root : list string) (content : list (string * fsnode)) (fuel : nat) (w : world) :
  cwd = absolutePath root -> Forall entryName root -> wellFormed disk ->
  walk disk (root ++ ["content"]) = inr (FDir content) ->
  height (FDir content) <= fuel ->
  exists slugs w',
    getAllDocSlugs fuel w = (Return slugs, w') /\
    forall slug, In slug slugs ->
      match List.find unsafeSegment slug with
      | Some segment => fst (readMdxFile slug w) = Throw (InvalidSlugSegment segment)
      | None =>
          Forall (fun s => s <> ".") slug ->
          exists source filePath, fst (readMdxFile slug w) = Return (source, filePath)
      end.
Proof.
  intros Hcwd Hroot Hwf Hwalk Hfuel.
  assert (Hcontent : entryName "content").
  { repeat split; try discriminate. simpl. intuition discriminate. }
  assert (Hsegs : Forall entryName (root ++ ["content"])).
  { apply List.Forall_app. split; [assumption | now constructor]. }
  pose proof (collectDocs_treeOf fuel (root ++ ["content"]) content [] Hwf Hsegs Hwalk Hfuel)
    as Hret.
  destruct (returns_inv _ _ w Hret) as [w' Hrun].
  rewrite <- (CONTENT_ROOT_absolute root Hcwd Hroot) in Hrun.
  eexists _, w'. split.
  { unfold getAllDocSlugs, getDocsTree, bind. rewrite Hrun. reflexivity. }
  intros slug Hslug.
  pose proof (treeOf_documents (FDir content) (root ++ ["content"]) [] Hwf Hsegs Hwalk)
    as Hdocs.
  rewrite (CONTENT_ROOT_absolute root Hcwd Hroot) in Hslug.
  rewrite List.Forall_forall in Hdocs.
  destruct (Hdocs slug Hslug) as (dirs & base & text & Heq & Hfile). simpl in Heq. subst slug.
  destruct (List.find unsafeSegment (dirs ++ [base])) as [segment|] eqn:Hfind.
  - apply find_unsafe_some in Hfind as (safe & rest & Heq & Hsafe & Hbad).
    rewrite Heq. now rewrite readMdxFile_unsafe.
  - intros Hdots. apply find_unsafe_none in Hfind.
    assert (Hne : dirs ++ [base] <> []) by (destruct dirs; discriminate).
    destruct (readMdxFile_safe root (dirs ++ [base]) w Hcwd Hroot Hne Hfind) as [_ Hout].
    rewrite documentEntries_dotless in Hout.
    + rewrite <- app_assoc in Hfile. simpl in Hfile. rewrite Hfile in Hout. eauto.
    + eapply List.Forall_impl; [|exact Hdots]. intros s Hs. now apply String.eqb_neq.
Qed.

(** X7. When [getChildNodes] returns a listing, every regular file of the
    directory whose name ends in [.mdx] and does not start with a dot is
    listed as a file, named by its base name, under the slug of the
    directory followed by that name, with the [title] string of its front
    matter when it has one.  Conversely every file of the listing is such a
    file, and carries no [hasChildren] flag. *)
Theorem getChildNodes_lists_documents
        (slug : list string) (w w' : world) (items : list DocListItem) :
  getChildNodes slug w = (Return items, w') ->
  let target := Path.join (CONTENT_ROOT :: slug) in
  exists entries,
    resolve disk target = inr (FDir entries) /\
    (forall name text,
        In (name, FFile text) entries -> Js.startsWith name "." = false ->
        Js.endsWith name ".mdx" = true ->
        exists source data content,
          resolve disk (Path.join [target; name]) = inr (FFile source) /\
          matter source = Some (data, content) /\
          In (mkDocListItem TFile (Js.dropEnd name 4) (slug ++ [Js.dropEnd name 4])
                None (stringField data "title")) items) /\
    (forall item,
        In item items -> item_type item = TFile ->
        exists name text,
          In (name, FFile text) entries /\ Js.startsWith name "." = false /\
          Js.endsWith name ".mdx" = true /\ item_name item = Js.dropEnd name 4 /\
          item_hasChildren item = None).
Proof.
  intros Hg target. apply getChildNodes_inv in Hg as (raw & produced & Hraw & Hall & ->).
  exists raw. split; [exact Hraw|]. split.
  - intros name text Hin Hdot Hext.
    assert (Hentry : In (direntOf (name, FFile text)) (map direntOf raw)) by now apply in_map.
    destruct (Forall2_In_l _ _ _ _ Hall Hentry) as (item & Hitem & w1 & w2 & Hrun).
    apply listEntry_document in Hrun as (source & data & content & Hsrc & Hm & ->);
      [|exact Hdot|unfold isDocumentEntry; simpl; exact Hext].
    exists source, data, content. split; [exact Hsrc|]. split; [exact Hm|].
    apply sort_In, In_compact. exact Hitem.
  - intros item Hin Hfile. apply sort_In, In_compact in Hin.
    destruct (Forall2_In_r _ _ _ _ Hall Hin) as (entry & Hentry & w1 & w2 & Hrun).
    apply listEntry_Some in Hrun as [Hdot [(_ & Hdir & _)|(Hdoc & _ & Hname & Hhas)]];
      [congruence|].
    apply in_map_iff in Hentry as ([name node] & <- & Hraw').
    unfold isDocumentEntry in Hdoc. simpl in *.
    apply andb_true_iff in Hdoc as [Hkind Hext].
    destruct node as [text| |]; try discriminate. exists name, text. auto 6.
Qed.

(** X8. [getChildNodes] asks the disk for the target first.  When the path
    does not resolve it throws the path-does-not-exist error, whatever the
    rejection of the disk was, and when the path is no directory it throws
    the not-a-directory error, in both cases after this one call; on a
    directory its second call reads the entries of the target. *)
Theorem getChildNodes_rejects_what_is_no_directory (slug : list string) (w : world) :
  let target := Path.join (CONTENT_ROOT :: slug) in
  let statOnly := World (sets w) (trace w ++ [Stat target]) in
  match resolve disk target with
  | inl _ => getChildNodes slug w = (Throw PathDoesNotExist, statOnly)
  | inr (FDir _) =>
      exists t, trace (snd (getChildNodes slug w))
                = trace w ++ Stat target :: Readdir target :: t
  | inr _ => getChildNodes slug w = (Throw NotADirectory, statOnly)
  end.
Proof.
  intros target statOnly. unfold getChildNodes. fold target.
  unfold tryCatch, fs_stat, bind at 1 2, logCall at 1, fromDisk at 1.
  destruct (resolve disk target) as [code|[content|entries|]] eqn:Hres;
    simpl; try reflexivity.
  unfold bind at 1, fs_readdir, bind at 1, logCall, fromDisk. rewrite Hres. simpl.
  destruct (appendsOnly_bind
              (mapM (listEntry slug target) (map (fun e => mkDirent (fst e) (kindOf (snd e))) entries))
              (fun items => ret (Js.sort listingOrder (compact items)))
              (appendsOnly_mapM _ _ (appendsOnly_listEntry slug target))
              (fun items => appendsOnly_ret _)
              (World (sets w) ((trace w ++ [Stat target]) ++ [Readdir target])))
    as [t Ht].
  exists t. rewrite Ht. simpl. now rewrite <- !app_assoc.
Qed.

(** X9. The index [getDocsIndex] returns has exactly one entry for each slug
    [getAllDocSlugs] lists from the same world: the slugs of the entries are
    a permutation of that list. *)
Theorem getDocsIndex_one_entry_per_document (fuel : nat) (w w' : world)
        (entries : list DocIndexEntry) :
  getDocsIndex fuel w = (Return entries, w') ->
  exists slugs w1,
    getAllDocSlugs fuel w = (Return slugs, w1) /\
    Permutation (map entry_slug entries) slugs.
Proof.
  unfold getDocsIndex, getAllDocSlugs. intros Hrun.
  apply bind_Return_inv in Hrun as (tree & w1 & Htree & Hrun).
  apply bind_Return_inv in Hrun as (ess & w2 & Hmap & Hrun).
  apply ret_Return_inv in Hrun as [<- _].
  exists (flat_map walkSlugs tree), w1. split.
  - unfold bind. now rewrite Htree.
  - rewrite <- (mapM_visit_slugs _ _ _ _ Hmap). apply Permutation_map, sort_Permutation.
Qed.

(** X10. With a consistent [localeCompare], the entries [getDocsIndex]
    returns are sorted by title. *)
Theorem getDocsIndex_sorted_by_title (fuel : nat) (w w' : world)
        (entries : list DocIndexEntry) :
  consistentCompare localeCompare ->
  getDocsIndex fuel w = (Return entries, w') ->
  StronglySorted (fun a b => (localeCompare (entry_title a) (entry_title b) <= 0)%Z) entries.
Proof.
  intros Hcmp Hrun. destruct (byTitle_consistent Hcmp) as [Hflip Htrans].
  unfold getDocsIndex in Hrun.
  apply bind_Return_inv in Hrun as (tree & w1 & Htree & Hrun).
  apply bind_Return_inv in Hrun as (ess & w2 & Hmap & Hrun).
  apply ret_Return_inv in Hrun as [<- _].
  exact (sort_sorted byTitle Hflip Htrans (concat ess)).
Qed.

(** X11. [stripMarkdown] leaves plain prose as it is: a text without
    backticks, opening brackets and the characters [* _ ~ > # -], whose
    white space is single spaces between words, is returned unchanged. *)
Theorem stripMarkdown_keeps_plain_prose (value : string) :
  (forall c, In c (chars value) ->
             c <> backtick /\ c <> "["%char /\ isMarker c = false) ->
  singleSpaced value -> noLeadingSpace value -> noTrailingSpace value ->
  stripMarkdown value = value.
Proof.
  intros Hchars Hsingle Hlead Htrail.
  assert (Htick : ~ In backtick (chars value)) by (intros Hin; now apply Hchars in Hin).
  assert (Hbracket : ~ In "["%char (chars value))
    by (intros Hin; apply Hchars in Hin; tauto).
  unfold stripMarkdown.
  rewrite (replaceRegex_none matchFence value backtick); [|
    intros t rest Hm; apply matchFence_head in Hm as [t' ->]; now left | exact Htick].
  rewrite (replaceRegex_none matchInlineCode value backtick); [|
    intros t rest Hm; apply matchInlineCode_head in Hm as [t' ->]; now left | exact Htick].
  rewrite (replaceRegex_none matchImage value "["%char); [|
    intros t rest Hm; apply matchImage_head in Hm as [t' ->]; right; now left
    | exact Hbracket].
  rewrite (replaceRegex_none matchLink value "["%char); [|
    intros t rest Hm; apply matchLink_head in Hm as [t' ->]; now left | exact Hbracket].
  rewrite (replaceRuns_none isMarker value) by (intros c Hc; now apply Hchars in Hc).
  rewrite (replaceRuns_id _ Hsingle). now apply trim_id.
Qed.

End MdxProperties.

Lemma readMdxFile_rejects_unsafe_slug_witness :
  readMdxFile (H := Fixture.site) ["guide"; "../secret"; "notes"] emptyWorld
  = (Throw (InvalidSlugSegment "../secret"), emptyWorld).
Proof.
  apply (proj2 (readMdxFile_rejects_unsafe_slug (H := Fixture.site)
                  ["guide"; "../secret"; "notes"] emptyWorld)
               ["guide"] "../secret" ["notes"]).
  - reflexivity.
  - repeat constructor.
  - reflexivity.
Defined.

Lemma readMdxFile_stays_in_content_root_witness :
  Forall entryName (documentEntries ["guide"; "intro"]) /\
  trace (snd (readMdxFile (H := Fixture.site) ["guide"; "intro"] emptyWorld))
  = [ReadFile "/srv/site/content/guide/intro.mdx"] /\
  fst (readMdxFile (H := Fixture.site) ["guide"; "intro"] emptyWorld)
  = Return ("Intro|+general/shared|+general/shared",
            "/srv/site/content/guide/intro.mdx").
Proof.
  apply (readMdxFile_stays_in_content_root (H := Fixture.site)
           ["srv"; "site"] ["guide"; "intro"] emptyWorld).
  - reflexivity.
  - fixture_names.
  - discriminate.
  - repeat constructor.
Defined.

Lemma mdxExists_answers_witness :
  fst (mdxExists (H := Fixture.site) ["guide"; "missing"] emptyWorld) = Return false.
Proof.
  assert (Hroot : Forall entryName ["srv"; "site"]) by fixture_names.
  exact (mdxExists_answers (H := Fixture.site) ["srv"; "site"] ["guide"; "missing"]
           emptyWorld eq_refl Hroot).
Defined.

Lemma collectDocs_mirrors_directories_witness :
  Forall (located (CONTENT_ROOT (H := Fixture.site)) [])
         (returned [] (getDocsTree (H := Fixture.site) 3 emptyWorld)).
Proof.
  apply (collectDocs_mirrors_directories (H := Fixture.site) 3
           (CONTENT_ROOT (H := Fixture.site)) [] emptyWorld
           (snd (getDocsTree (H := Fixture.site) 3 emptyWorld))).
  vm_compute. reflexivity.
Defined.

Lemma getAllDocSlugs_documents_witness :
  let slugs := returned [] (getAllDocSlugs (H := Fixture.site) 3 emptyWorld) in
  slugs = [["general"; "shared"]; ["guide"; "getting-started"]; ["guide"; "intro"];
           ["home"]; ["loops"; "ping"]; ["loops"; "pong"]; ["loops"; "self"];
           ["mixed"; "a"]; ["mixed"; "b"; "c"]; ["zebra"]] /\
  Forall (fun slug => slug <> []) slugs /\
  exists tree,
    getDocsTree (H := Fixture.site) 3 emptyWorld
    = (Return tree, snd (getAllDocSlugs (H := Fixture.site) 3 emptyWorld)) /\
    slugs = map node_slug (documentNodes tree) /\
    length slugs = list_sum (map countFiles tree).
Proof.
  intros slugs. split; [vm_compute; reflexivity|].
  apply (getAllDocSlugs_documents (H := Fixture.site) 3 emptyWorld
           (snd (getAllDocSlugs (H := Fixture.site) 3 emptyWorld)) slugs).
  vm_compute. reflexivity.
Defined.

Lemma listed_documents_are_readable_witness :
  exists slugs w',
    getAllDocSlugs (H := Fixture.site) 3 emptyWorld = (Return slugs, w') /\
    forall slug, In slug slugs ->
      match List.find unsafeSegment slug with
      | Some segment =>
          fst (readMdxFile (H := Fixture.site) slug emptyWorld)
          = Throw (InvalidSlugSegment segment)
      | None =>
          Forall (fun s => s <> ".") slug ->
          exists source filePath,
            fst (readMdxFile (H := Fixture.site) slug emptyWorld)
            = Return (source, filePath)
      end.
Proof.
  apply (listed_documents_are_readable (H := Fixture.site) ["srv"; "site"]
           (match Fixture.content with FDir es => es | _ => [] end)).
  - reflexivity.
  - fixture_names.
  - simpl. fixture_names.
  - reflexivity.
  - vm_compute. lia.
Defined.

Lemma getChildNodes_lists_documents_witness :
  let items := returned [] (getChildNodes (H := Fixture.site) ["guide"] emptyWorld) in
  exists entries,
    resolve (disk (Platform := Fixture.site))
            (Path.join (CONTENT_ROOT (H := Fixture.site) :: ["guide"]))
    = inr (FDir entries) /\
    forall item, In item items -> item_type item = TFile ->
      exists name text,
        In (name, FFile text) entries /\ Js.startsWith name "." = false /\
        Js.endsWith name ".mdx" = true /\ item_name item = Js.dropEnd name 4 /\
        item_hasChildren item = None.
Proof.
  intros items.
  assert (Hrun : getChildNodes (H := Fixture.site) ["guide"] emptyWorld
                 = (Return items, snd (getChildNodes (H := Fixture.site) ["guide"] emptyWorld)))
    by (vm_compute; reflexivity).
  destruct (getChildNodes_lists_documents ["guide"] _ _ _ Hrun) as (entries & Hres & _ & Hfiles).
  exists entries. split; [exact Hres | exact Hfiles].
Defined.

Lemma getDocsIndex_one_entry_per_document_witness :
  let entries := returned [] (getDocsIndex (H := Fixture.site) 3 emptyWorld) in
  exists slugs w1,
    getAllDocSlugs (H := Fixture.site) 3 emptyWorld = (Return slugs, w1) /\
    Permutation (map entry_slug entries) slugs.
Proof.
  apply (getDocsIndex_one_entry_per_document (H := Fixture.site) 3 emptyWorld
           (snd (getDocsIndex (H := Fixture.site) 3 emptyWorld))).
  vm_compute. reflexivity.
Defined.

Lemma getDocsIndex_sorted_by_title_witness :
  StronglySorted
    (fun a b => (Fixture.codeUnitCompare (entry_title a) (entry_title b) <= 0)%Z)
    (returned [] (getDocsIndex (H := Fixture.site) 3 emptyWorld)).
Proof.
  apply (getDocsIndex_sorted_by_title (H := Fixture.site) 3 emptyWorld
           (snd (getDocsIndex (H := Fixture.site) 3 emptyWorld))).
  - exact codeUnitCompare_consistent.
  - vm_compute. reflexivity.
Defined.

Lemma stripMarkdown_keeps_plain_prose_witness :
  stripMarkdown "Install it" = "Install it".
Proof.
  apply stripMarkdown_keeps_plain_prose.
  - intros c Hc. simpl in Hc.
    repeat (destruct Hc as [<-|Hc];
            [split; [intros E; vm_compute in E; discriminate
                    |split; [discriminate|reflexivity]]|]).
    destruct Hc.
  - simpl. repeat split; try discriminate.
  - intros c rest [= <- _]. reflexivity.
  - intros pre c Heq.
    assert (Hc : c = "t"%char).
    { apply (f_equal (fun s => List.last (chars s) " "%char)) in Heq.
      rewrite chars_append in Heq. change (chars (String c "")) with [c] in Heq.
      rewrite last_last in Heq. simpl in Heq. congruence. }
    now subst.
Defined.

Section SeoProperties.
Context `{Platform} {Json : Type} (JSON_parse : string -> option Json) (truthy : Json -> bool).

(** X12. [getSeoMetadata] takes the SEO data of the nearest directory: when
    the file [seo.json] below the first [k] segments of the slug parses to a
    truthy value, and below every longer prefix the file is missing or holds
    a falsy value, that value is returned, and the files read are those of
    the prefixes from the whole slug down to [k] segments, in this order,
    and no other. *)
Theorem getSeoMetadata_nearest_directory_wins
        (slug : list string) (k : nat) (raw : string) (seo : Json) (w : world) :
  k <= length slug ->
  (forall j, k < j <= length slug -> seoAbsent JSON_parse truthy (seoCandidate slug j)) ->
  resolve disk (seoCandidate slug k) = inr (FFile raw) ->
  JSON_parse raw = Some seo -> truthy seo = true ->
  getSeoMetadata JSON_parse truthy slug w
  = (Return (inr (Some seo)),
     World (sets w)
           (trace w ++ map (fun j => ReadFile (seoCandidate slug j))
                           (rev (seq k (S (length slug - k)))))).
Proof.
  intros Hk Hdeeper Hres Hparse Htruthy. unfold getSeoMetadata.
  rewrite (candidates_split slug k Hk), firstSeo_skip.
  - rewrite (firstSeo_hit JSON_parse truthy _ raw seo _ _ Hres Hparse Htruthy). simpl sets. simpl trace.
    f_equal. f_equal. rewrite <- app_assoc. f_equal.
    change (S (length slug - k)) with (1 + (length slug - k)).
    rewrite seq_app. simpl seq. rewrite rev_app_distr. simpl rev.
    rewrite map_app, map_map. replace (k + 1) with (S k) by lia. reflexivity.
  - apply List.Forall_forall. intros p Hp. apply in_map_iff in Hp as (j & <- & Hj).
    apply in_rev, in_seq in Hj. apply Hdeeper. lia.
Qed.

(** X13. When no directory on the way from the slug up to the content root
    holds SEO data, [getSeoMetadata] returns [null] after it has read every
    candidate: one file per prefix of the slug, the empty prefix included,
    and the file of the content root a second time. *)
Theorem getSeoMetadata_without_seo_files (slug : list string) (w : world) :
  (forall j, j <= length slug -> seoAbsent JSON_parse truthy (seoCandidate slug j)) ->
  exists w',
    getSeoMetadata JSON_parse truthy slug w = (Return (inr None), w') /\
    sets w' = sets w /\
    trace w' = trace w ++ map ReadFile (seoCandidates slug) /\
    length (seoCandidates slug) = length slug + 2.
Proof.
  intros Habsent. unfold getSeoMetadata.
  assert (Hall : Forall (seoAbsent JSON_parse truthy) (seoCandidates slug)).
  { unfold seoCandidates. apply List.Forall_app. split.
    - apply List.Forall_forall. intros p Hp. apply in_map_iff in Hp as (j & <- & Hj).
      apply in_rev, in_seq in Hj. apply Habsent. lia.
    - constructor; [|constructor]. apply (Habsent 0). lia. }
  pose proof (firstSeo_skip JSON_parse truthy (seoCandidates slug) [] w Hall) as Hrun.
  rewrite app_nil_r in Hrun.
  exists (World (sets w) (trace w ++ map ReadFile (seoCandidates slug))).
  split; [exact Hrun|]. split; [reflexivity|]. split; [reflexivity|].
  unfold seoCandidates. rewrite length_app, length_map, length_rev, length_seq. simpl. lia.
Qed.

(** X14. A malformed [seo.json] is not skipped: when the nearest file that
    exists does not parse, the run ends with the syntax error of
    [JSON.parse], whatever the directories above hold. *)
Theorem getSeoMetadata_malformed_file
        (slug : list string) (k : nat) (raw : string) (w : world) :
  k <= length slug ->
  (forall j, k < j <= length slug -> seoAbsent JSON_parse truthy (seoCandidate slug j)) ->
  resolve disk (seoCandidate slug k) = inr (FFile raw) ->
  JSON_parse raw = None ->
  fst (getSeoMetadata JSON_parse truthy slug w) = Return (inl JsonSyntaxError).
Proof.
  intros Hk Hdeeper Hres Hparse. unfold getSeoMetadata.
  rewrite (candidates_split slug k Hk), firstSeo_skip.
  - simpl firstSeo.
    unfold bind at 1, readSeoMetadataFile, tryCatch, bind at 1, fs_readFile, bind at 1, logCall,
      fromDisk.
    rewrite Hres. simpl. rewrite Hparse. reflexivity.
  - apply List.Forall_forall. intros p Hp. apply in_map_iff in Hp as (j & <- & Hj).
    apply in_rev, in_seq in Hj. apply Hdeeper. lia.
Qed.

End SeoProperties.

Lemma getSeoMetadata_nearest_directory_wins_witness :
  getSeoMetadata (H := SeoFixture.seoSite) SeoFixture.toyParse SeoFixture.toyTruthy
                 ["guide"; "deep"; "page"] emptyWorld
  = (Return (inr (Some "{guide}")),
     World [] [ReadFile "/srv/site/content/guide/deep/page/seo.json";
               ReadFile "/srv/site/content/guide/deep/seo.json";
               ReadFile "/srv/site/content/guide/seo.json"]).
Proof.
  apply (getSeoMetadata_nearest_directory_wins (H := SeoFixture.seoSite)
           SeoFixture.toyParse SeoFixture.toyTruthy
           ["guide"; "deep"; "page"] 1 "{guide}" "{guide}" emptyWorld).
  - simpl. lia.
  - intros j Hj. assert (Hcases : j = 2 \/ j = 3) by (simpl in Hj; lia).
    destruct Hcases as [->| ->]; vm_compute; eauto.
  - reflexivity.
  - reflexivity.
  - reflexivity.
Defined.

Lemma getSeoMetadata_without_seo_files_witness :
  exists w',
    getSeoMetadata (H := Fixture.site) SeoFixture.toyParse SeoFixture.toyTruthy
                   ["guide"; "intro"] emptyWorld = (Return (inr None), w') /\
    sets w' = sets emptyWorld /\
    trace w' = trace emptyWorld
               ++ map ReadFile (seoCandidates (H := Fixture.site) ["guide"; "intro"]) /\
    length (seoCandidates (H := Fixture.site) ["guide"; "intro"])
    = length ["guide"; "intro"] + 2.
Proof.
  apply (getSeoMetadata_without_seo_files (H := Fixture.site)
           SeoFixture.toyParse SeoFixture.toyTruthy ["guide"; "intro"] emptyWorld).
  intros j Hj. assert (Hcases : j = 0 \/ j = 1 \/ j = 2) by (simpl in Hj; lia).
  destruct Hcases as [->|[->| ->]]; vm_compute; exact I.
Defined.

Lemma getSeoMetadata_malformed_file_witness :
  fst (getSeoMetadata (H := SeoFixture.seoSite) SeoFixture.toyParse SeoFixture.toyTruthy
                      ["broken"; "page"] emptyWorld)
  = Return (inl JsonSyntaxError).
Proof.
  apply (getSeoMetadata_malformed_file (H := SeoFixture.seoSite)
           SeoFixture.toyParse SeoFixture.toyTruthy ["broken"; "page"] 1 "{oops" emptyWorld).
  - simpl. lia.
  - intros j Hj. assert (Hcases : j = 2) by (simpl in Hj; lia).
    subst j. vm_compute. exact I.
  - reflexivity.
  - reflexivity.
Defined.

(** ** [app/api/docs/tree/route.ts] and [components/mdx-renderer.tsx] *)

Section RouteProperties.
Context `{Platform}.

(** X15. The route always answers.  Its slug is the [slug] parameter split
    at the slashes, trimmed and freed of empty segments (the root when the
    parameter is absent or empty); what [getChildNodes] returns for it is
    answered with status 200, what it throws is answered with status 400 and
    the error, and nothing is thrown by the handler itself. *)
Theorem GET_always_responds (slugParam : option string) (w : world) :
  let slug := match slugParam with
              | Some p => parseSlug p
              | None => []
              end in
  match getChildNodes slug w with
  | (Return items, w') => GET slugParam w = (Return (Json200 items), w')
  | (Throw error, w') => GET slugParam w = (Return (Json400 error), w')
  | (OutOfFuel, _) => False
  end.
Proof.
  intros slug.
  assert (Hslug : match slugParam with
                  | Some p => if Js.truthy p then parseSlug p else []
                  | None => []
                  end = slug).
  { unfold slug. destruct slugParam as [[|c p]|]; reflexivity. }
  pose proof (terminates_getChildNodes slug w) as Hterm.
  unfold GET, tryCatch, bind. rewrite Hslug.
  destruct (getChildNodes slug w) as [[items|error|] w1]; simpl in *;
    [reflexivity|reflexivity|congruence].
Qed.

(** X16. Every segment the route and the [Include] component make of a slug
    text is non-empty, holds no slash, and neither starts nor ends with
    white space. *)
Theorem parseSlug_segments (slugParam : string) :
  Forall (fun segment =>
            plainSegment segment /\ noLeadingSpace segment /\ noTrailingSpace segment)
         (parseSlug slugParam).
Proof.
  unfold parseSlug. apply List.Forall_forall. intros segment Hin.
  apply list_elem_of_In, list_elem_of_filter in Hin as [Htruthy Hin].
  apply list_elem_of_In, in_map_iff in Hin as (part & <- & Hpart).
  pose proof (split_parts "/" slugParam) as Hparts.
  rewrite List.Forall_forall in Hparts. specialize (Hparts _ Hpart).
  split; [split|split].
  - now apply truthy_true.
  - intros Hin. apply Hparts. now apply trim_chars.
  - apply trim_noLeadingSpace.
  - apply trim_noTrailingSpace.
Qed.

(** X17. Split takes back what join made: a slug whose segments are
    non-empty, free of slashes and trimmed is the slug the route, and the
    [Include] component, read from its segments joined with slashes, which
    is the text the navigation menu sends. *)
Theorem parseSlug_join (slug : list string) :
  Forall (fun segment => plainSegment segment /\ Js.trim segment = segment) slug ->
  parseSlug (Js.join "/" slug) = slug.
Proof.
  intros Hslug.
  assert (Hplain : Forall plainSegment slug).
  { eapply List.Forall_impl; [|exact Hslug]. now intros ? []. }
  destruct slug as [|x l]; [reflexivity|].
  unfold parseSlug. rewrite split_join by (assumption || discriminate).
  assert (Hmap : map Js.trim (x :: l) = x :: l).
  { clear Hplain. induction Hslug as [|y l' [_ Hy] _ IH]; [reflexivity|].
    simpl. now rewrite Hy, IH. }
  rewrite Hmap. now apply filter_truthy_plain.
Qed.

(** X18. With the process in a directory given in normal form, [renderMdx]
    tells a missing document from the other failures: when no file stands
    at the path of the slug it throws the not-found signal of the
    framework; a slug that fails the validation, a directory in the place of
    the file, a file in the place of a directory and a source the compiler
    rejects each end with their own error; otherwise it returns the compiled
    document with the front matter of the source. *)
Theorem renderMdx_outcome (root slug : list string) (w : world) :
  cwd = absolutePath root -> Forall entryName root ->
  match slug, List.find unsafeSegment slug with
  | [], _ => fst (renderMdx slug w) = Throw EmptySlug
  | _, Some segment => fst (renderMdx slug w) = Throw (InvalidSlugSegment segment)
  | _, None =>
      match walk disk (root ++ "content" :: documentEntries slug) with
      | inr (FFile source) =>
          match compileMDX source with
          | Some (nodes, frontmatter) =>
              exists r, fst (renderMdx slug w) = Return r /\
                        rm_frontmatter r = frontmatter /\
                        length (rm_content r) = length nodes
          | None => fst (renderMdx slug w) = Throw MdxCompileError
          end
      | inr (FDir _) => fst (renderMdx slug w) = Throw (Errno EISDIR)
      | inr FOther => fst (renderMdx slug w) = Throw NextNotFound
      | inl ENOENT => fst (renderMdx slug w) = Throw NextNotFound
      | inl code => fst (renderMdx slug w) = Throw (Errno code)
      end
  end.
Proof.
  intros Hcwd Hroot.
  destruct (renderMdx_spec slug w) as (w' & _ & Hspec). unfold loadDocument in Hspec.
  destruct slug as [|x l].
  - simpl in Hspec. now rewrite Hspec.
  - destruct (List.find unsafeSegment (x :: l)) as [segment|] eqn:Hfind.
    + apply find_unsafe_some in Hfind as (safe & rest & Heq & Hsafe & Hbad).
      rewrite Heq in *. rewrite readMdxFile_unsafe in Hspec by assumption.
      simpl in Hspec. now rewrite Hspec.
    + apply find_unsafe_none in Hfind.
      destruct (readMdxFile_safe root (x :: l) emptyWorld Hcwd Hroot
                  ltac:(discriminate) Hfind) as [_ Hout].
      rewrite Hout in Hspec.
      destruct (walk disk _) as [[]|[source|entries|]]; simpl in Hspec;
        try (now rewrite Hspec).
      destruct (compileMDX source) as [[nodes fm]|]; [|now rewrite Hspec].
      destruct Hspec as [Hrun _]. rewrite Hrun. eexists. split; [reflexivity|].
      split; [reflexivity|]. simpl. apply length_map.
Qed.

(** X19. A composition that returns has left every [Set] object that
    existed before as it was: the sets of the world it started from are a
    prefix of the sets of the world it ends in. *)
Theorem composition_keeps_existing_sets (fuel : nat) (slug : list string)
        (w w' : world) (result : composition) :
  composeDocument fuel slug w = (Return result, w') ->
  sets w `prefix_of` sets w'.
Proof.
  unfold composeDocument. intros Hrun.
  apply bind_Return_inv in Hrun as (root & w1 & Hroot & Hrun).
  assert (Hfirst : sets w `prefix_of` sets w1).
  { destruct (renderMdx_spec slug w) as (w2 & Hpre & Hspec). unfold attempt in Hroot.
    destruct (loadDocument slug) as [e|[nodes fm]].
    - rewrite Hspec in Hroot. now injection Hroot as _ <-.
    - destruct Hspec as [Hspec _]. rewrite Hspec in Hroot. now injection Hroot as _ <-. }
  destruct root as [e|r].
  - apply ret_Return_inv in Hrun as [_ <-]. exact Hfirst.
  - apply bind_Return_inv in Hrun as (out & w2 & Hrender & Hrun).
    apply render_prefix in Hrender.
    assert (w' = w2) as ->.
    { destruct (r_errors out); now apply ret_Return_inv in Hrun as [_ <-]. }
    now transitivity (sets w1).
Qed.

End RouteProperties.

Lemma parseSlug_join_witness :
  parseSlug (Js.join "/" ["guide"; "getting-started"]) = ["guide"; "getting-started"].
Proof.
  apply parseSlug_join.
  repeat constructor; try discriminate; simpl; intuition discriminate.
Defined.

Lemma renderMdx_outcome_witness :
  fst (renderMdx (H := Fixture.site) ["guide"; "missing"] emptyWorld) = Throw NextNotFound.
Proof.
  assert (Hroot : Forall entryName ["srv"; "site"]) by fixture_names.
  exact (renderMdx_outcome (H := Fixture.site) ["srv"; "site"] ["guide"; "missing"]
           emptyWorld eq_refl Hroot).
Defined.

Lemma composition_keeps_existing_sets_witness :
  let w0 := snd (composeDocument (H := Fixture.site) 5 ["guide"; "intro"] emptyWorld) in
  let w1 := snd (composeDocument (H := Fixture.site) 5 ["loops"; "ping"] w0) in
  sets w0 = [ {[ "guide/intro" ]}; {[ "guide/intro" ]};
              {[ "general/shared"; "guide/intro" ]}; {[ "general/shared"; "guide/intro" ]};
              {[ "general/shared"; "guide/intro" ]}; {[ "general/shared"; "guide/intro" ]} ] /\
  sets w0 `prefix_of` sets w1 /\
  length (sets w1) = 11.
Proof.
  intros w0 w1. split; [vm_compute; reflexivity|]. split; [|vm_compute; reflexivity].
  apply (composition_keeps_existing_sets (H := Fixture.site) 5 ["loops"; "ping"] w0 w1
           (returned (Failed [])
                     (composeDocument (H := Fixture.site) 5 ["loops"; "ping"] w0))).
  vm_compute. reflexivity.
Defined.

(** ** [components/navigation-menu.tsx] and the [NavBar] component *)

Section NavigationProperties.
Context `{Platform}.

(** X20. The label [humanizeName] makes of a name holds no hyphen and no
    underscore, its white space is single spaces between words, it neither
    starts nor ends with white space, and none of its words starts with a
    lower-case letter. *)
Theorem humanizeName_label (value : string) :
  let label := humanizeName value in
  (forall c, In c (chars label) -> c <> "-"%char /\ c <> "_"%char) /\
  singleSpaced label /\ noLeadingSpace label /\ noTrailingSpace label /\
  wordsCapitalized false label.
Proof. apply humanizeName_shape. Qed.

(** X21. [humanizeName] is idempotent: a label is its own label. *)
Theorem humanizeName_idempotent (value : string) :
  humanizeName (humanizeName value) = humanizeName value.
Proof.
  destruct (humanizeName_shape value) as (Hchars & Hsingle & Hlead & Htrail & Hcaps).
  set (label := humanizeName value) in *. unfold humanizeName at 1.
  rewrite mapChars_id.
  - rewrite (replaceRuns_id _ Hsingle), (capitalizeWords_id _ _ Hcaps).
    now apply trim_id.
  - intros c Hc. destruct (Hchars c Hc) as [Hd Hu].
    destruct (Ascii.eqb_spec c "-"); [contradiction|].
    destruct (Ascii.eqb_spec c "_"); [contradiction|reflexivity].
Qed.

(** X22. Whatever the path name, [deriveActiveSlug] returns a slug that is
    not empty, with segments that are not empty and hold no slash. *)
Theorem deriveActiveSlug_segments (pathname : string) :
  deriveActiveSlug pathname <> [] /\ Forall plainSegment (deriveActiveSlug pathname).
Proof.
  unfold deriveActiveSlug. pose proof (segments_plain pathname) as Hplain.
  destruct (filter _ (Js.split "/" pathname)) as [|x l]; simpl.
  - split; [discriminate|]. constructor; [|constructor]. split; [discriminate|].
    simpl. intuition discriminate.
  - split; [discriminate|exact Hplain].
Qed.

(** X23. The directories the menu expands for the active slug are its
    proper non-empty prefixes, each once, from the shortest to the
    longest. *)
Theorem activeDirectories_prefixes (activeSlug : list string) :
  activeDirectories activeSlug
  = map (fun k => firstn k activeSlug) (seq 1 (length activeSlug - 1)) /\
  forall directory,
    In directory (activeDirectories activeSlug) <->
    directory <> [] /\ directory <> activeSlug /\ directory `prefix_of` activeSlug.
Proof.
  split; [apply activeDirectories_seq|]. intros directory.
  rewrite activeDirectories_seq, in_map_iff. split.
  - intros (k & <- & Hk). apply in_seq in Hk.
    assert (Hlen : length (firstn k activeSlug) = k) by (rewrite length_take; lia).
    split; [|split].
    + intros Heq. rewrite Heq in Hlen. simpl in Hlen. lia.
    + intros Heq. rewrite Heq in Hlen. lia.
    + exists (skipn k activeSlug). symmetry. apply firstn_skipn.
  - intros (Hne & Hneq & rest & ->). exists (length directory). split.
    + now rewrite take_app_length.
    + apply in_seq. rewrite length_app.
      destruct directory; [contradiction|]. destruct rest.
      * rewrite app_nil_r in Hneq. contradiction.
      * simpl. lia.
Qed.

(** X24. A snippet is short: at most 140 characters for the empty query, at
    most 160 when the query does not occur in the content, and in every case
    at most the length of the query and 166 more. *)
Theorem buildSnippet_length (content normalizedQuery : string) :
  (normalizedQuery = "" -> String.length (buildSnippet content normalizedQuery) <= 140) /\
  (Js.indexOf (Js.toLowerCase content) normalizedQuery = None ->
   String.length (buildSnippet content normalizedQuery) <= 160) /\
  String.length (buildSnippet content normalizedQuery)
  <= String.length normalizedQuery + 166.
Proof.
  assert (Hshort : forall n, String.length (Js.trim (Js.slice content 0 n)) <= n).
  { intros n. pose proof (length_trim (Js.slice content 0 n)).
    pose proof (length_slice content 0 n). lia. }
  unfold buildSnippet. split; [|split].
  - intros ->. simpl. apply Hshort.
  - intros ->. destruct (negb _); [specialize (Hshort 140); lia|apply Hshort].
  - destruct (negb _); [specialize (Hshort 140); lia|].
    destruct (Js.indexOf _ _) as [matchIndex|]; [|specialize (Hshort 160); lia].
    cbv zeta.
    set (start := matchIndex - 80).
    set (end_ := Nat.min (String.length content)
                        (matchIndex + String.length normalizedQuery + 80)).
    eapply Nat.le_trans; [apply length_replaceRuns|].
    pose proof (length_trim (Js.slice content start end_)) as Htrim.
    pose proof (length_slice content start end_) as Hslice.
    assert (Hwindow : end_ - start <= String.length normalizedQuery + 160)
      by (unfold start, end_; lia).
    destruct (0 <? start)%nat, (end_ <? String.length content)%nat;
      rewrite ?length_append; simpl String.length; lia.
Qed.


(** X26. A link of the navigation bar other than the home link is active
    on the page of its own slug and on the pages of the slugs it is a prefix
    of, and on no other page. *)
Theorem isActiveLink_prefix (page link : list string) :
  Forall plainSegment page -> Forall plainSegment link ->
  link <> [] -> link <> ["home"] ->
  isActiveLink (slugToHref page) (slugToHref link) = true <-> link `prefix_of` page.
Proof.
  intros Hpage Hlink Hne Hhome. unfold isActiveLink.
  rewrite (slugToHref_join link Hhome).
  assert (Hjoin : Js.join "/" link <> "") by now apply join_nonempty.
  assert (Hroot : String.eqb ("/" +:+ Js.join "/" link) "/" = false).
  { apply String.eqb_neq. simpl. intros Heq. injection Heq. exact Hjoin. }
  rewrite Hroot. simpl negb. rewrite andb_true_l.
  assert (Hhref : exists body, slugToHref page = "/" +:+ body /\
                               ((page = ["home"] /\ body = "") \/
                                (page <> ["home"] /\ body = Js.join "/" page))).
  { destruct (decide (page = ["home"])) as [->|Hp].
    - exists "". split; [reflexivity|now left].
    - exists (Js.join "/" page). split; [now apply slugToHref_join|now right]. }
  destruct Hhref as (body & -> & Hbody).
  rewrite orb_true_iff, String.eqb_eq, startsWith_spec. split.
  - intros [Heq|[rest Heq]].
    + apply append_inj_l in Heq. destruct Hbody as [[_ ->]|[_ ->]]; [congruence|].
      apply join_inj in Heq; [subst; reflexivity|assumption..].
    + rewrite !append_assoc in Heq. apply append_inj_l in Heq.
      destruct Hbody as [[_ ->]|[_ ->]].
      { destruct (Js.join "/" link); [contradiction|discriminate]. }
      apply (f_equal segmentsOf) in Heq.
      change ("/" +:+ rest) with (String "/"%char rest) in Heq.
      rewrite segmentsOf_app_sep, !segmentsOf_join in Heq by assumption.
      rewrite Heq. now eexists.
  - intros [k ->]. destruct Hbody as [[Hp _]|[_ ->]].
    { destruct link as [|x [|y l]]; [contradiction| |discriminate].
      simpl in Hp. congruence. }
    destruct k as [|y k].
    + left. now rewrite app_nil_r.
    + right. exists (Js.join "/" (y :: k)).
      rewrite join_app by (assumption || discriminate).
      now rewrite !append_assoc.
Qed.

End NavigationProperties.


Lemma isActiveLink_prefix_witness :
  isActiveLink (slugToHref ["guide"; "intro"]) (slugToHref ["guide"]) = true.
Proof.
  apply (isActiveLink_prefix ["guide"; "intro"] ["guide"]).
  - repeat constructor; try discriminate; simpl; intuition discriminate.
  - repeat constructor; try discriminate; simpl; intuition discriminate.
  - discriminate.
  - discriminate.
  - exists ["intro"]. reflexivity.
Defined.

(** ** [app/[...slug]/page.tsx] and [app/sitemap.ts] *)

Section StaticParamProperties.
Context `{Platform}.

(** X27. The static parameters are the slugs [getAllDocSlugs] lists other
    than [["home"]], in the order of that list. *)
Theorem generateStaticParams_all_but_home (fuel : nat) (w w' : world)
        (params : list (list string)) :
  generateStaticParams fuel w = (Return params, w') ->
  exists slugs,
    getAllDocSlugs fuel w = (Return slugs, w') /\
    params `sublist_of` slugs /\
    (forall slug, In slug params <-> In slug slugs /\ slug <> ["home"]).
Proof.
  unfold generateStaticParams. intros Hrun.
  apply bind_Return_inv in Hrun as (slugs & w1 & Hslugs & Hrun).
  apply ret_Return_inv in Hrun as [<- <-]. exists slugs. split; [exact Hslugs|]. split.
  - apply sublist_filter.
  - intros slug. rewrite <- !list_elem_of_In, list_elem_of_filter, join_home. tauto.
Qed.

End StaticParamProperties.

Section SitemapProperties.
Import PrimFloat.
Set Warnings "-inexact-float".
Context `{Platform} (BASE_URL : string) {Date : Type} (newDate : nat -> Date).

(** X28. The sitemap always lists the home page: whatever the documents,
    one of its entries has the base URL, with priority 0.8 and monthly
    change frequency. *)
Theorem sitemap_lists_home (fuel : nat) (w w' : world) (entries : list SitemapEntry) :
  sitemap BASE_URL newDate fuel w = (Return entries, w') ->
  exists e, In e entries /\ sm_url e = BASE_URL /\ sm_priority e = 0.8%float /\
            sm_changeFrequency e = "monthly".
Proof.
  intros Hrun. apply sitemap_inv in Hrun as (slugs & _ & ->).
  assert (Hhome : In "home" (sitemapKeys slugs)) by (apply add_In; now right).
  apply In_lookup in Hhome as [i Hi].
  exists (sitemapEntryOf BASE_URL newDate i "home"). split; [|repeat split].
  apply In_imap. eauto.
Qed.

(** X29. When the segments of the listed slugs are non-empty and hold no
    slash, the sitemap returns in the world of [getAllDocSlugs], no URL
    occurs twice in it, and its URLs are the base URL and the URL of every
    listed slug. *)
Theorem sitemap_one_url_per_document
        (fuel : nat) (w w' : world) (slugs : list (list string)) :
  getAllDocSlugs fuel w = (Return slugs, w') ->
  Forall (Forall plainSegment) slugs ->
  exists entries,
    sitemap BASE_URL newDate fuel w = (Return entries, w') /\
    NoDup (map sm_url entries) /\
    (forall url, In url (map sm_url entries) <->
                 url = BASE_URL \/
                 exists slug, In slug slugs /\ url = buildUrl BASE_URL slug).
Proof.
  intros Hslugs Hplain. pose proof (getAllDocSlugs_nonempty _ _ _ _ Hslugs) as Hne.
  eexists. split; [apply sitemap_run, Hslugs|]. rewrite sitemap_urls. split.
  - apply NoDup_fmap_2_strong.
    + intros k1 k2 H1 H2 Heq. apply list_elem_of_In in H1, H2.
      apply (sitemap_keys_plain _ _ Hne Hplain) in H1 as (s1 & _ & -> & Hn1 & Hp1).
      apply (sitemap_keys_plain _ _ Hne Hplain) in H2 as (s2 & _ & -> & Hn2 & Hp2).
      rewrite !segmentsOf_join in Heq by assumption.
      now apply (buildUrl_inj BASE_URL).
    + apply add_NoDup, ofArray_NoDup.
  - intros url. rewrite in_map_iff. split.
    + intros (key & <- & Hkey).
      apply (sitemap_keys_plain _ _ Hne Hplain) in Hkey as (slug & Hslug & -> & Hn & Hp).
      rewrite segmentsOf_join by assumption.
      destruct Hslug as [->|Hin]; [now left|right; eauto].
    + intros [->|(slug & Hin & ->)].
      * exists "home". split; [reflexivity|]. apply keys_slugs. exists ["home"]. auto.
      * exists (Js.join "/" slug). rewrite List.Forall_forall in Hplain.
        rewrite segmentsOf_join by now apply Hplain. split; [reflexivity|].
        apply keys_slugs. eauto.
Qed.

(** X30. Under the same condition every entry of the sitemap is the entry of
    the home slug or of a listed slug, with priority 0.8 when the slug has
    one segment and 0.6 otherwise: the priority 1.0 is never given. *)
Theorem sitemap_priorities
        (fuel : nat) (w w' : world) (slugs : list (list string))
        (entries : list SitemapEntry) :
  getAllDocSlugs fuel w = (Return slugs, w') ->
  Forall (Forall plainSegment) slugs ->
  sitemap BASE_URL newDate fuel w = (Return entries, w') ->
  forall e, In e entries ->
    exists slug,
      (slug = ["home"] \/ In slug slugs) /\ sm_url e = buildUrl BASE_URL slug /\
      sm_priority e = (if (length slug =? 1)%nat then 0.8 else 0.6)%float /\
      sm_priority e <> 1.0%float.
Proof.
  intros Hslugs Hplain Hrun e He.
  pose proof (getAllDocSlugs_nonempty _ _ _ _ Hslugs) as Hne.
  rewrite (sitemap_run BASE_URL newDate _ _ _ _ Hslugs) in Hrun. injection Hrun as <-.
  apply In_imap in He as (i & key & Hkey & ->).
  assert (Hin : In key (sitemapKeys slugs)) by (apply In_lookup; eauto).
  apply (sitemap_keys_plain _ _ Hne Hplain) in Hin as (slug & Hslug & -> & Hn & Hp).
  exists slug. split; [exact Hslug|]. unfold sitemapEntryOf. simpl.
  rewrite segmentsOf_join by assumption. split; [reflexivity|].
  unfold getPriorityForSlug, DEFAULT_PRIORITY.
  destruct slug as [|x [|y l]]; [contradiction| |]; simpl; (split; [reflexivity|]);
    intros Heq; apply (f_equal (fun p => PrimFloat.eqb p 1.0)) in Heq;
    vm_compute in Heq; discriminate.
Qed.

End SitemapProperties.

Ltac fixture_slugs :=
  repeat constructor; try discriminate; simpl; intuition discriminate.

Lemma generateStaticParams_all_but_home_witness :
  let params := returned [] (generateStaticParams (H := Fixture.site) 3 emptyWorld) in
  exists slugs,
    getAllDocSlugs (H := Fixture.site) 3 emptyWorld
    = (Return slugs, snd (generateStaticParams (H := Fixture.site) 3 emptyWorld)) /\
    params `sublist_of` slugs /\
    Forall (fun slug => In slug slugs /\ slug <> ["home"]) params.
Proof.
  intros params.
  assert (Hrun : generateStaticParams (H := Fixture.site) 3 emptyWorld
                 = (Return params, snd (generateStaticParams (H := Fixture.site) 3 emptyWorld)))
    by (vm_compute; reflexivity).
  destruct (generateStaticParams_all_but_home (H := Fixture.site) 3 emptyWorld _ params Hrun)
    as (slugs & Hslugs & Hsub & Hin).
  exists slugs. split; [exact Hslugs|]. split; [exact Hsub|].
  apply List.Forall_forall. intros slug Hslug.
  destruct (Hin slug) as [Hto _]. exact (Hto Hslug).
Defined.

Section SitemapWitnesses.
Import PrimFloat.
Set Warnings "-inexact-float".

Lemma sitemap_lists_home_witness :
  let entries := returned [] (sitemap (H := Fixture.site) "http://localhost:3000"
                                      (fun index => index) 3 emptyWorld) in
  exists e, In e entries /\ sm_url e = "http://localhost:3000" /\
            sm_priority e = 0.8%float /\ sm_changeFrequency e = "monthly".
Proof.
  intros entries.
  apply (sitemap_lists_home (H := Fixture.site) "http://localhost:3000"
           (fun index => index) 3 emptyWorld
           (snd (sitemap (H := Fixture.site) "http://localhost:3000"
                         (fun index => index) 3 emptyWorld))).
  vm_compute. reflexivity.
Defined.

Lemma sitemap_one_url_per_document_witness :
  let slugs := returned [] (getAllDocSlugs (H := Fixture.site) 3 emptyWorld) in
  exists entries,
    sitemap (H := Fixture.site) "http://localhost:3000" (fun index => index) 3 emptyWorld
    = (Return entries, snd (getAllDocSlugs (H := Fixture.site) 3 emptyWorld)) /\
    NoDup (map sm_url entries) /\
    (forall url, In url (map sm_url entries) <->
                 url = "http://localhost:3000" \/
                 exists slug, In slug slugs /\ url = buildUrl "http://localhost:3000" slug).
Proof.
  intros slugs.
  apply (sitemap_one_url_per_document (H := Fixture.site) "http://localhost:3000"
           (fun index => index) 3 emptyWorld).
  - vm_compute. reflexivity.
  - vm_compute. fixture_slugs.
Defined.

Lemma sitemap_priorities_witness :
  let slugs := returned [] (getAllDocSlugs (H := Fixture.site) 3 emptyWorld) in
  let entries := returned [] (sitemap (H := Fixture.site) "http://localhost:3000"
                                      (fun index => index) 3 emptyWorld) in
  Forall (fun e =>
            exists slug,
              (slug = ["home"] \/ In slug slugs) /\
              sm_url e = buildUrl "http://localhost:3000" slug /\
              sm_priority e = (if (length slug =? 1)%nat then 0.8 else 0.6)%float /\
              sm_priority e <> 1.0%float) entries.
Proof.
  intros slugs entries. apply List.Forall_forall.
  apply (sitemap_priorities (H := Fixture.site) "http://localhost:3000"
           (fun index => index) 3 emptyWorld
           (snd (getAllDocSlugs (H := Fixture.site) 3 emptyWorld)) slugs entries).
  - vm_compute. reflexivity.
  - vm_compute. fixture_slugs.
  - vm_compute. reflexivity.
Defined.

End SitemapWitnesses.
